(** * Maximum flow by depth-first augmenting paths (Lab3/main.cpp)

    A shallow embedding of the program and the proofs of its properties.

    Pointers are modelled by keys into a store: a [Vertex*] is the vertex's
    name (readGraph keeps one vertex per name in its std::map), an [Edge*] is
    the index of the edge in the arena of allocated edges, in allocation
    order, and [nullptr] is [None].  The last resort of EdgePtrComparator,
    the comparison [a < b] of two addresses, is taken on these indices.
    An [int] is a [Z] kept in the 32-bit range by [wrap_int] at every
    arithmetic update (signed overflow is undefined in C++; the model takes
    the two's-complement result of the usual targets).  A [char] is the
    signed type of the same targets: names compare by [char_value]. *)

From Stdlib Require Import ZArith Lia Ascii Sorted.
From stdpp Require Import gmap strings pretty list sorting fin_maps.

Local Open Scope Z_scope.

(** ** Machine integers *)

Definition int_min : Z := -2147483648.
Definition int_max : Z := 2147483647.

Definition wrap_int (z : Z) : Z :=
  (z + 2147483648) `mod` 4294967296 - 2147483648.

Definition in_int (z : Z) : Prop := int_min ≤ z ≤ int_max.

(** ** Outcomes of a run *)

Inductive failure :=
  | AssertionFailed   (* an assert(...) does not hold: abort() *)
  | OutOfRange        (* std::map::at throws std::out_of_range *)
  | NullPointer       (* a null reverseEdge is dereferenced *)
  | OutOfFuel.        (* the recursion or loop bound of the model is used up *)

Inductive res (A : Type) :=
  | Done (a : A)
  | Fail (f : failure).
Arguments Done {A} a.
Arguments Fail {A} f.

#[global] Instance res_ret : MRet res := λ A a, Done a.
#[global] Instance res_bind : MBind res := λ A B k r,
  match r with
  | Done a => k a
  | Fail f => Fail f
  end.

(** ** Data model *)

Record Edge := mkEdge {
  source : ascii;
  target : ascii;
  capacity : Z;
  flow : Z;
  isReverseEdge : bool;
  reverseEdge : option nat
}.

Record Vertex := mkVertex {
  name : ascii;
  inPath : bool;
  edges : list nat
}.

Record Graph := mkGraph {
  gsource : ascii;
  gtarget : ascii;
  vertices : list ascii
}.

(** The objects reachable from a graph: every allocated edge, and the
    vertices by name. *)
Record Heap := mkHeap {
  arena : list Edge;
  verts : gmap ascii Vertex
}.

Definition Path := list nat.

(** [Edge{}] and [Vertex{}] as the default member initialisers make them;
    the null source and target of a default edge read as name '?'. *)
Definition defaultEdge : Edge := mkEdge "?" "?" 0 0 false None.
Definition defaultVertex : Vertex := mkVertex "?" false [].

Definition edge_of (h : Heap) (e : nat) : Edge :=
  default defaultEdge (arena h !! e).

Definition vertex_of (h : Heap) (v : ascii) : Vertex :=
  default defaultVertex (verts h !! v).

Definition set_inPath (v : ascii) (b : bool) (h : Heap) : Heap :=
  mkHeap (arena h)
         (alter (λ x, mkVertex (name x) b (edges x)) v (verts h)).

Definition set_edge (e : nat) (x : Edge) (h : Heap) : Heap :=
  mkHeap (<[e := x]> (arena h)) (verts h).

(** ** The ordered sets *)

(** The value of a [char]: [char] is a signed type on the usual targets
    (x86-64), so that a name byte from 0x80 on is negative and comes before
    the ASCII names. *)
Definition char_value (a : ascii) : Z :=
  let n := Z.of_nat (nat_of_ascii a) in
  if 128 <=? n then n - 256 else n.

(** [a < b] on [char] *)
Definition char_lt (a b : ascii) : bool := char_value a <? char_value b.

(** EdgePtrComparator::operator() *)
Definition EdgePtrComparator (h : Heap) (a b : nat) : bool :=
  if negb (Ascii.eqb (source (edge_of h a)) (source (edge_of h b))) then
    char_lt (source (edge_of h a)) (source (edge_of h b))
  else if negb (Ascii.eqb (target (edge_of h a)) (target (edge_of h b))) then
    char_lt (target (edge_of h a)) (target (edge_of h b))
  else (a <? b)%nat.

(** VertexPtrComparator::operator() *)
Definition VertexPtrComparator (a b : ascii) : bool := char_lt a b.

(** std::set::insert on the ordered list of the set's elements: the new
    element goes before the first greater one, and is dropped when an
    equivalent element (neither less than the other) is met. *)
Fixpoint set_insert {A} (lt : A → A → bool) (x : A) (l : list A) : list A :=
  match l with
  | [] => [x]
  | y :: l' =>
      if lt x y then x :: l
      else if lt y x then y :: set_insert lt x l'
      else l
  end.

(** [new Edge], with the members as they are once the caller has set them:
    the edge takes the next free index. *)
Definition new_edge (x : Edge) (h : Heap) : Heap :=
  mkHeap (arena h ++ [x]) (verts h).

(** [vertex->edges.insert(e)] *)
Definition edges_insert (v : ascii) (e : nat) (h : Heap) : Heap :=
  mkHeap (arena h)
         (alter (λ x, mkVertex (name x) (inPath x)
                         (set_insert (EdgePtrComparator h) e (edges x)))
                v (verts h)).

(** ** findPath *)

(** The for loop over the edges of [src], highest first; [findPath_rec]
    stands for the recursive call [findPath(edge->target, target, path,
    false)].  The state is the heap (only the inPath markers change) and
    the path vector. *)
Fixpoint findPath_loop (findPath_rec : Heap → ascii → Path → res (Heap * Path * bool))
    (src tgt : ascii) (es : list nat) (h : Heap) (path : Path)
    : res (Heap * Path * bool) :=
  match es with
  | [] => Done (set_inPath src false h, path, false)
  | edge :: es' =>
      let w := target (edge_of h edge) in
      if negb (inPath (vertex_of h w)) && (0 <? capacity (edge_of h edge))
      then
        let path1 := path ++ [edge] in
        if Ascii.eqb w tgt then Done (h, path1, true)
        else
          let h1 := set_inPath w true h in
          '(h2, path2, pathIsFound) ← findPath_rec h1 w path1;
          let h3 := set_inPath w false h2 in
          if (pathIsFound : bool) then
            Done (set_inPath src false h3, path2, true)
          else findPath_loop findPath_rec src tgt es' h3 (removelast path2)
      else findPath_loop findPath_rec src tgt es' h path
  end.

(** findPath, its recursion depth bounded by [fuel]. *)
Fixpoint findPath (fuel : nat) (h : Heap) (src tgt : ascii) (path : Path)
    (clearPath : bool) {struct fuel} : res (Heap * Path * bool) :=
  match fuel with
  | O => Fail OutOfFuel
  | S fuel' =>
      let path0 := if clearPath then [] else path in
      let h0 := if clearPath then set_inPath src true h else h in
      findPath_loop (λ h1 w path1, findPath fuel' h1 w tgt path1 false)
        src tgt (reverse (edges (vertex_of h0 src))) h0 path0
  end.

(** ** findMinCapacity *)

Definition findMinCapacity (h : Heap) (path : Path) : res Z :=
  match path with
  | [] => Fail AssertionFailed
  | front :: _ =>
      Done (foldl (λ minCapacity edge, Z.min minCapacity (capacity (edge_of h edge)))
                  (capacity (edge_of h front)) path)
  end.

(** ** changeFlow *)

Definition changeFlow_edge (flowChange : Z) (h : Heap) (edge : nat) : res Heap :=
  let e := edge_of h edge in
  if capacity e <? flowChange then Fail AssertionFailed
  else
    let h1 := set_edge edge
                (mkEdge (source e) (target e)
                        (wrap_int (capacity e - flowChange))
                        (wrap_int (flow e + flowChange))
                        (isReverseEdge e) (reverseEdge e)) h in
    match reverseEdge e with
    | None => Fail NullPointer
    | Some rev =>
        let r := edge_of h1 rev in
        Done (set_edge rev
                (mkEdge (source r) (target r)
                        (wrap_int (capacity r + flowChange))
                        (wrap_int (flow r - flowChange))
                        (isReverseEdge r) (reverseEdge r)) h1)
    end.

Fixpoint changeFlow_loop (flowChange : Z) (h : Heap) (path : Path) : res Heap :=
  match path with
  | [] => Done h
  | edge :: path' =>
      h' ← changeFlow_edge flowChange h edge;
      changeFlow_loop flowChange h' path'
  end.

Definition changeFlow (h : Heap) (path : Path) (flowChange : Z) : res Heap :=
  if flowChange <? 0 then Fail AssertionFailed
  else changeFlow_loop flowChange h path.

(** ** addReverseEdges *)

(** The body of the inner loop for one edge. *)
Definition addReverseEdge (h : Heap) (edge : nat) : res Heap :=
  let e := edge_of h edge in
  if isReverseEdge e && negb (bool_decide (is_Some (reverseEdge e)))
  then Fail AssertionFailed
  else
    match reverseEdge e with
    | Some _ => Done h
    | None =>
        let rev := length (arena h) in
        let h1 := new_edge (mkEdge (target e) (source e) 0 0 true (Some edge)) h in
        let h2 := set_edge edge
                    (mkEdge (source e) (target e) (capacity e) (flow e)
                            (isReverseEdge e) (Some rev)) h1 in
        Done (edges_insert (target e) rev h2)
    end.

Fixpoint addReverseEdges_edges (h : Heap) (es : list nat) : res Heap :=
  match es with
  | [] => Done h
  | edge :: es' =>
      h' ← addReverseEdge h edge;
      addReverseEdges_edges h' es'
  end.

(** The outer loop.  The inner loop runs over the elements that the
    vertex's set holds when the loop is entered: the only elements a body
    adds to the set under iteration are reverse edges of self loops, whose
    reverseEdge is set, so that reaching one of them is a [continue]
    ([addReverseEdge_paired]). *)
Fixpoint addReverseEdges_vertices (h : Heap) (vs : list ascii) : res Heap :=
  match vs with
  | [] => Done h
  | vertex :: vs' =>
      h' ← addReverseEdges_edges h (edges (vertex_of h vertex));
      addReverseEdges_vertices h' vs'
  end.

Definition addReverseEdges (graph : Graph) (h : Heap) : res Heap :=
  addReverseEdges_vertices h (vertices graph).

(** ** findMaxFlow *)

(** One turn of the while loop: [None] when findPath fails, the new heap
    and the bottleneck otherwise. *)
Definition augment (depth : nat) (graph : Graph) (h : Heap)
    : res (Heap * option Z) :=
  '(h1, path, found) ← findPath depth h (gsource graph) (gtarget graph) [] true;
  if (found : bool) then
    minCapacity ← findMinCapacity h1 path;
    h2 ← changeFlow h1 path minCapacity;
    Done (h2, Some minCapacity)
  else Done (h1, None).

Fixpoint findMaxFlow_loop (depth fuel : nat) (graph : Graph) (h : Heap)
    (maxFlow : Z) : res (Heap * Z) :=
  match fuel with
  | O => Fail OutOfFuel
  | S fuel' =>
      '(h', step) ← augment depth graph h;
      match step with
      | Some minCapacity =>
          findMaxFlow_loop depth fuel' graph h' (wrap_int (maxFlow + minCapacity))
      | None => Done (h', maxFlow)
      end
  end.

Definition findMaxFlow (fuel : nat) (graph : Graph) (h : Heap) : res (Heap * Z) :=
  h' ← addReverseEdges graph h;
  findMaxFlow_loop fuel fuel graph h' 0.

(** ** readGraph *)

(** The input after the edge count: the two labels and the edge lines, the
    capacities as [operator>>] stores them in an [int]; the statements that
    depend on the number read ask for [int_lines]. *)
Record Input := mkInput {
  sourceName : ascii;
  targetName : ascii;
  edgeLines : list (ascii * ascii * Z)
}.

(** [vertices[name]], with the vertex created on a null entry. *)
Definition lookup_or_new (v : ascii) (h : Heap) : Heap :=
  match verts h !! v with
  | Some _ => h
  | None => mkHeap (arena h) (<[v := mkVertex v false []]> (verts h))
  end.

Definition readEdge (h : Heap) (line : ascii * ascii * Z) : Heap :=
  let '(edgeSourceName, edgeTargetName, cap) := line in
  let h1 := lookup_or_new edgeSourceName h in
  let h2 := lookup_or_new edgeTargetName h1 in
  let edge := length (arena h2) in
  let h3 := new_edge (mkEdge edgeSourceName edgeTargetName cap 0 false None) h2 in
  edges_insert edgeSourceName edge h3.

Definition emptyHeap : Heap := mkHeap [] ∅.

Definition readGraph (inp : Input) : res (Graph * Heap) :=
  let h := foldl readEdge emptyHeap (edgeLines inp) in
  match verts h !! sourceName inp with
  | None => Fail OutOfRange
  | Some _ =>
      match verts h !! targetName inp with
      | None => Fail OutOfRange
      | Some _ =>
          Done (mkGraph (sourceName inp) (targetName inp)
                  (foldr (set_insert VertexPtrComparator) []
                         (map_to_list (verts h)).*1),
                h)
      end
  end.

(** main, without the printing: the value printed first and the final heap *)
Definition run (fuel : nat) (inp : Input) : res (Heap * Z) :=
  '(graph, h) ← readGraph inp;
  findMaxFlow fuel graph h.


(** * Properties *)

(** ** Machine integers *)

Lemma wrap_int_id z : in_int z → wrap_int z = z.
Proof.
  unfold in_int, int_min, int_max, wrap_int. intros Hz.
  rewrite Z.mod_small; lia.
Qed.

Lemma wrap_int_range z : in_int (wrap_int z).
Proof.
  unfold in_int, int_min, int_max, wrap_int.
  pose proof (Z.mod_pos_bound (z + 2147483648) 4294967296). lia.
Qed.

Lemma wrap_int_add z d : wrap_int (wrap_int z + d) = wrap_int (z + d).
Proof.
  unfold wrap_int. f_equal.
  replace ((z + 2147483648) `mod` 4294967296 - 2147483648 + d + 2147483648)
    with ((z + 2147483648) `mod` 4294967296 + d) by lia.
  rewrite Zplus_mod_idemp_l. f_equal. lia.
Qed.

(** ** The store *)

Definition valid (h : Heap) (e : nat) : Prop := (e < length (arena h))%nat.

#[global] Instance valid_dec h e : Decision (valid h e).
Proof. unfold valid. apply _. Defined.

Definition marked (h : Heap) (v : ascii) : bool := inPath (vertex_of h v).

Lemma edge_of_lookup h e E : arena h !! e = Some E → edge_of h e = E.
Proof. unfold edge_of. by intros ->. Qed.

Lemma valid_lookup h e : valid h e → arena h !! e = Some (edge_of h e).
Proof.
  unfold valid, edge_of. intros H.
  destruct (lookup_lt_is_Some_2 (arena h) e H) as [E ->]. done.
Qed.

Lemma lookup_valid h e E : arena h !! e = Some E → valid h e.
Proof. unfold valid. intros H. by eapply lookup_lt_Some. Qed.

Lemma edge_of_invalid h e : ¬ valid h e → edge_of h e = defaultEdge.
Proof.
  unfold valid, edge_of. intros H. rewrite lookup_ge_None_2; [done | lia].
Qed.

Lemma edge_of_set_edge_eq h e X : valid h e → edge_of (set_edge e X h) e = X.
Proof.
  unfold valid, edge_of, set_edge. simpl. intros H.
  by rewrite list_lookup_insert_eq.
Qed.

Lemma edge_of_set_edge_ne h e e' X : e ≠ e' → edge_of (set_edge e X h) e' = edge_of h e'.
Proof.
  unfold edge_of, set_edge. simpl. intros H.
  by rewrite list_lookup_insert_ne.
Qed.

Lemma valid_set_edge h e X e' : valid (set_edge e X h) e' ↔ valid h e'.
Proof. unfold valid, set_edge. simpl. by rewrite length_insert. Qed.

Lemma vertex_of_set_inPath_ne h v b u :
  u ≠ v → vertex_of (set_inPath v b h) u = vertex_of h u.
Proof.
  unfold vertex_of, set_inPath. simpl. intros H.
  by rewrite lookup_alter_ne.
Qed.

Lemma edges_set_inPath h v b u :
  edges (vertex_of (set_inPath v b h) u) = edges (vertex_of h u).
Proof.
  unfold vertex_of, set_inPath. simpl.
  destruct (decide (v = u)) as [->|Hne].
  - rewrite lookup_alter_eq. by destruct (verts h !! u).
  - by rewrite lookup_alter_ne.
Qed.

Lemma marked_set_inPath_eq h v b :
  is_Some (verts h !! v) → marked (set_inPath v b h) v = b.
Proof.
  unfold marked, vertex_of, set_inPath. simpl. intros [x Hx].
  by rewrite lookup_alter_eq, Hx.
Qed.

Lemma marked_set_inPath_ne h v b u :
  u ≠ v → marked (set_inPath v b h) u = marked h u.
Proof. unfold marked. intros H. by rewrite vertex_of_set_inPath_ne. Qed.

Lemma is_Some_set_inPath h v b u :
  is_Some (verts (set_inPath v b h) !! u) ↔ is_Some (verts h !! u).
Proof.
  unfold set_inPath. simpl. rewrite lookup_alter. case_decide; [subst|done].
  by rewrite fmap_is_Some.
Qed.

Lemma set_inPath_idemp h v b b' :
  set_inPath v b (set_inPath v b' h) = set_inPath v b h.
Proof.
  unfold set_inPath. simpl. f_equal. apply map_eq. intros u.
  destruct (decide (v = u)) as [->|Hne].
  - rewrite !lookup_alter_eq. by destruct (verts h !! u).
  - by rewrite !lookup_alter_ne.
Qed.

Lemma set_inPath_same h v : set_inPath v (marked h v) h = h.
Proof.
  unfold set_inPath, marked, vertex_of. destruct h as [a m]. simpl. f_equal.
  apply map_eq. intros u. rewrite lookup_alter. case_decide; [subst|done].
  destruct (m !! u) as [[]|]; done.
Qed.

Lemma set_inPath_restore h v b :
  marked h v = false → set_inPath v false (set_inPath v b h) = h.
Proof.
  intros H. rewrite set_inPath_idemp. rewrite <- H. apply set_inPath_same.
Qed.

(** ** Paths in the residual graph *)

(** The heap as findPath needs it: the edge set of a vertex holds exactly
    the allocated edges that leave it, and every edge ends in a vertex. *)
Record wf (h : Heap) : Prop := mk_wf {
  wf_adj : ∀ v e, e ∈ edges (vertex_of h v) → valid h e ∧ source (edge_of h e) = v;
  wf_src : ∀ e, valid h e → e ∈ edges (vertex_of h (source (edge_of h e)));
  wf_tgt : ∀ e, valid h e → is_Some (verts h !! target (edge_of h e))
}.

(** [p] leads from [a] to [b]: each edge starts where the one before ends *)
Fixpoint walk (h : Heap) (a b : ascii) (p : Path) : Prop :=
  match p with
  | [] => a = b
  | e :: p' => valid h e ∧ source (edge_of h e) = a ∧ walk h (target (edge_of h e)) b p'
  end.

Definition targets (h : Heap) (p : Path) : list ascii :=
  (λ e, target (edge_of h e)) <$> p.

Definition residual (h : Heap) (p : Path) : Prop :=
  Forall (λ e, 0 < capacity (edge_of h e)) p.

(** An augmenting path: at least one edge, every edge with capacity left,
    no vertex met twice. *)
Definition augmenting_path (h : Heap) (a b : ascii) (p : Path) : Prop :=
  p ≠ [] ∧ walk h a b p ∧ residual h p ∧ NoDup (a :: targets h p).

(** What a call of findPath can still find: a path whose vertices after the
    first are unmarked and distinct. *)
Definition open_path (h : Heap) (a b : ascii) (p : Path) : Prop :=
  p ≠ [] ∧ walk h a b p ∧ residual h p ∧
  Forall (λ v, marked h v = false) (targets h p) ∧ NoDup (targets h p).

(** The result of a call that does not clear the path. *)
Definition findPath_post (h : Heap) (src tgt : ascii) (path : Path)
    (r : Heap * Path * bool) : Prop :=
  let '(h', path', found) := r in
  if (found : bool) then
    ∃ p, path' = path ++ p ∧ open_path h src tgt p ∧
         (h' = h ∨ h' = set_inPath src false h)
  else
    path' = path ∧ h' = set_inPath src false h ∧ ∀ p, ¬ open_path h src tgt p.

Lemma wf_set_inPath h v b : wf h → wf (set_inPath v b h).
Proof.
  intros [H1 H2 H3]. split.
  - intros u e. rewrite edges_set_inPath. apply H1.
  - intros e He. rewrite edges_set_inPath. by apply H2.
  - intros e He. apply is_Some_set_inPath. by apply H3.
Qed.

Lemma wf_vertex_of_source h e :
  wf h → valid h e → is_Some (verts h !! source (edge_of h e)).
Proof.
  intros Hwf He. pose proof (wf_src h Hwf e He) as Hin.
  unfold vertex_of in Hin. destruct (verts h !! source (edge_of h e)); [done|].
  simpl in Hin. by apply elem_of_nil in Hin.
Qed.

Lemma walk_set_inPath h v b a c p :
  walk (set_inPath v b h) a c p ↔ walk h a c p.
Proof.
  revert a. induction p as [|e p IH]; intros a; simpl; [done|].
  by rewrite IH.
Qed.

Lemma open_path_marked h v a b p :
  v ∉ targets h p →
  open_path h a b p → open_path (set_inPath v true h) a b p.
Proof.
  intros Hnot (Hne & Hw & Hr & Hm & Hnd).
  split_and!; [done|by apply walk_set_inPath|exact Hr| |exact Hnd].
  apply Forall_forall. intros u Hu.
  rewrite marked_set_inPath_ne; [|by intros ->].
  revert u Hu. by apply Forall_forall.
Qed.

Lemma open_path_unmarked h v a b p :
  is_Some (verts h !! v) →
  open_path (set_inPath v true h) a b p →
  open_path h a b p ∧ v ∉ targets h p.
Proof.
  intros Hv (Hne & Hw & Hr & Hm & Hnd).
  assert (Hnot : v ∉ targets h p).
  { intros Hin. rewrite Forall_forall in Hm. specialize (Hm v Hin).
    by rewrite marked_set_inPath_eq in Hm. }
  split; [|done].
  split_and!; [done|by apply walk_set_inPath in Hw|exact Hr| |exact Hnd].
  apply Forall_forall. intros u Hu.
  rewrite Forall_forall in Hm. specialize (Hm u Hu).
  rewrite marked_set_inPath_ne in Hm; [done|]. by intros ->.
Qed.

Lemma open_path_single h e b :
  valid h e → target (edge_of h e) = b → 0 < capacity (edge_of h e) →
  marked h b = false →
  open_path h (source (edge_of h e)) b [e].
Proof.
  intros Hv Ht Hc Hm. unfold open_path. split_and!.
  - done.
  - simpl. done.
  - by apply Forall_singleton.
  - simpl. apply Forall_singleton. by rewrite Ht.
  - apply NoDup_singleton.
Qed.

Lemma open_path_cons h e b p :
  valid h e → 0 < capacity (edge_of h e) →
  marked h (target (edge_of h e)) = false →
  target (edge_of h e) ∉ targets h p →
  open_path h (target (edge_of h e)) b p →
  open_path h (source (edge_of h e)) b (e :: p).
Proof.
  intros Hv Hc Hm Hnot (Hne & Hw & Hr & Hmk & Hnd). unfold open_path. split_and!.
  - done.
  - simpl. done.
  - by apply Forall_cons.
  - simpl. by apply Forall_cons.
  - simpl. by apply NoDup_cons.
Qed.

Lemma open_path_inv h a b e p :
  open_path h a b (e :: p) →
  valid h e ∧ source (edge_of h e) = a ∧ 0 < capacity (edge_of h e) ∧
  marked h (target (edge_of h e)) = false ∧
  (target (edge_of h e) ≠ b →
   open_path h (target (edge_of h e)) b p ∧ target (edge_of h e) ∉ targets h p).
Proof.
  intros (_ & Hw & Hr & Hmk & Hnd). simpl in *.
  destruct Hw as (Hv & Hs & Hw).
  apply Forall_cons in Hr as [Hc Hr]. apply Forall_cons in Hmk as [Hm Hmk].
  apply NoDup_cons in Hnd as [Hnot Hnd].
  split_and!; try done. intros Hneq. split; [|done].
  unfold open_path. split_and!; try done.
  intros ->. simpl in Hw. done.
Qed.

Lemma findPath_loop_post rec src tgt es h path r :
  wf h →
  (∀ h1 w path1 r1, wf h1 → rec h1 w path1 = Done r1 → findPath_post h1 w tgt path1 r1) →
  (∀ e, e ∈ es → e ∈ edges (vertex_of h src)) →
  findPath_loop rec src tgt es h path = Done r →
  let '(h', path', found) := r in
  if (found : bool) then
    ∃ p, path' = path ++ p ∧ open_path h src tgt p ∧
         (h' = h ∨ h' = set_inPath src false h)
  else
    path' = path ∧ h' = set_inPath src false h ∧
    ∀ e p, e ∈ es → ¬ open_path h src tgt (e :: p).
Proof.
  intros Hwf Hrec. revert r. induction es as [|e es IH]; intros r Hes Hrun.
  - simpl in Hrun. injection Hrun as <-. split_and!; try done.
    intros e p He. by apply elem_of_nil in He.
  - simpl in Hrun.
    assert (Hee : valid h e ∧ source (edge_of h e) = src).
    { apply (wf_adj h Hwf). apply Hes. left. }
    destruct Hee as [Hvalid Hsrc].
    assert (Hes' : ∀ e0, e0 ∈ es → e0 ∈ edges (vertex_of h src)).
    { intros e0 He0. apply Hes. by right. }
    destruct (negb (inPath (vertex_of h (target (edge_of h e)))) &&
              (0 <? capacity (edge_of h e))) eqn:Htest.
    + apply andb_true_iff in Htest as [Hm Hc].
      apply negb_true_iff in Hm. apply Z.ltb_lt in Hc.
      destruct (Ascii.eqb_spec (target (edge_of h e)) tgt) as [Heq|Hneq].
      * injection Hrun as <-. exists [e]. split_and!; [done| |by left].
        rewrite <- Hsrc. apply open_path_single; try done.
        unfold marked. by rewrite <- Heq.
      * set (w := target (edge_of h e)) in *.
        assert (Hw : is_Some (verts h !! w)) by by apply (wf_tgt h Hwf).
        destruct (rec (set_inPath w true h) w (path ++ [e]))
          as [[[h2 path2] found2]|f] eqn:Hcall; simpl in Hrun; [|done].
        apply Hrec in Hcall; [|by apply wf_set_inPath]. simpl in Hcall.
        destruct found2.
        -- destruct Hcall as (p2 & -> & Hopen & Hh2).
           injection Hrun as <-.
           assert (set_inPath w false h2 = h) as ->.
           { destruct Hh2 as [->| ->]; [|rewrite set_inPath_idemp];
               by apply set_inPath_restore. }
           apply open_path_unmarked in Hopen as [Hopen Hnot]; [|done].
           exists (e :: p2). split_and!; [by rewrite <- app_assoc| |by right].
           rewrite <- Hsrc. by apply open_path_cons.
        -- destruct Hcall as (-> & -> & Hnone).
           rewrite set_inPath_idemp, set_inPath_restore in Hrun by done.
           rewrite removelast_last in Hrun.
           specialize (IH r Hes' Hrun). destruct r as [[h' path'] found].
           destruct found; [done|].
           destruct IH as (-> & -> & IH). split_and!; try done.
           intros e0 p He0 Hopen. apply elem_of_cons in He0 as [->|He0].
           ++ apply open_path_inv in Hopen as (_ & _ & _ & _ & Hopen).
              destruct (Hopen Hneq) as [Hopen' Hnot].
              apply (Hnone p). by apply open_path_marked.
           ++ by apply (IH e0 p).
    + specialize (IH r Hes' Hrun). destruct r as [[h' path'] found].
      destruct found; [done|].
      destruct IH as (-> & -> & IH). split_and!; try done.
      intros e0 p He0 Hopen. apply elem_of_cons in He0 as [->|He0].
      * apply open_path_inv in Hopen as (_ & _ & Hc & Hm & _).
        unfold marked in Hm. rewrite Hm in Htest. simpl in Htest.
        apply Z.ltb_ge in Htest. lia.
      * by apply (IH e0 p).
Qed.

Lemma findPath_post_inner fuel h src tgt path r :
  wf h → findPath fuel h src tgt path false = Done r →
  findPath_post h src tgt path r.
Proof.
  revert h src path r. induction fuel as [|fuel IH]; intros h src path r Hwf Hrun.
  - done.
  - simpl in Hrun.
    apply findPath_loop_post in Hrun; [|done| |].
    + destruct r as [[h' path'] found]. simpl. destruct found; [done|].
      destruct Hrun as (-> & -> & Hnone). split_and!; try done.
      intros [|e p] Hopen; [by destruct Hopen|].
      apply (Hnone e p); [|done].
      apply open_path_inv in Hopen as (Hv & <- & _).
      apply elem_of_reverse. by apply (wf_src h Hwf).
    + intros h1 w path1 r1 Hwf1 Hcall. by apply IH.
    + intros e He. by rewrite elem_of_reverse in He.
Qed.

Lemma findPath_post_gen fuel h src tgt path clearPath r :
  wf h → findPath fuel h src tgt path clearPath = Done r →
  findPath_post (if clearPath then set_inPath src true h else h) src tgt
                (if clearPath then [] else path) r.
Proof.
  intros Hwf Hrun. destruct clearPath; [|by eapply findPath_post_inner].
  destruct fuel as [|fuel]; [done|]. simpl in Hrun.
  pose proof (wf_set_inPath h src true Hwf) as Hwf0.
  apply findPath_loop_post in Hrun; [|done| |].
  - destruct r as [[h' path'] found]. simpl. destruct found; [done|].
    destruct Hrun as (-> & -> & Hnone). split_and!; try done.
    intros [|e p] Hopen; [by destruct Hopen|].
    apply (Hnone e p); [|done].
    apply open_path_inv in Hopen as (Hv & Hs & _).
    apply elem_of_reverse. pose proof (wf_src _ Hwf0 e Hv) as Hin.
    by rewrite Hs in Hin.
  - intros h1 w path1 r1 Hwf1 Hcall. by eapply findPath_post_inner.
  - intros e He. by rewrite elem_of_reverse in He.
Qed.

(** The markers are clear, the one of [src] apart (findPath sets it). *)
Definition clean (h : Heap) (src : ascii) : Prop :=
  ∀ v, v ≠ src → marked h v = false.

Lemma open_path_augmenting h src tgt p :
  wf h → open_path (set_inPath src true h) src tgt p → augmenting_path h src tgt p.
Proof.
  intros Hwf Hopen.
  assert (Hsrc : is_Some (verts h !! src)).
  { destruct Hopen as (Hne & Hw & _). destruct p as [|e p]; [done|].
    apply walk_set_inPath in Hw. destruct Hw as (Hv & <- & _).
    by apply wf_vertex_of_source. }
  apply open_path_unmarked in Hopen as [(Hne & Hw & Hr & Hmk & Hnd) Hnot]; [|done].
  unfold augmenting_path. split_and!; try done. by apply NoDup_cons.
Qed.

Lemma augmenting_open_path h src tgt p :
  clean h src → augmenting_path h src tgt p →
  open_path (set_inPath src true h) src tgt p.
Proof.
  intros Hclean (Hne & Hw & Hr & Hnd).
  apply NoDup_cons in Hnd as [Hnot Hnd].
  apply open_path_marked; [done|].
  unfold open_path. split_and!; try done.
  apply Forall_forall. intros u Hu. apply Hclean. by intros ->.
Qed.

(** findPath as the driver calls it: [found] tells whether an augmenting
    path exists, and then [path'] is one. *)
Lemma findPath_top fuel h src tgt path h' path' found :
  wf h → clean h src →
  findPath fuel h src tgt path true = Done (h', path', found) →
  (h' = set_inPath src true h ∨ h' = set_inPath src false h) ∧
  if found then augmenting_path h src tgt path'
  else path' = [] ∧ h' = set_inPath src false h ∧
       ∀ p, ¬ augmenting_path h src tgt p.
Proof.
  intros Hwf Hclean Hrun. apply findPath_post_gen in Hrun; [|done].
  simpl in Hrun. destruct found.
  - destruct Hrun as (p & -> & Hopen & Hh). simpl. split.
    + destruct Hh as [->| ->]; [by left|right]. apply set_inPath_idemp.
    + by apply open_path_augmenting.
  - destruct Hrun as (-> & -> & Hnone). rewrite set_inPath_idemp.
    split_and!; try done; [by right|].
    intros p Hp. apply (Hnone p). by apply augmenting_open_path.
Qed.

(** *** Enough fuel *)

Lemma findPath_loop_total rec src tgt es h path :
  wf h →
  (∀ h1 w path1 r1, wf h1 → rec h1 w path1 = Done r1 → findPath_post h1 w tgt path1 r1) →
  (∀ w path1, is_Some (verts h !! w) → marked h w = false →
              ∃ r1, rec (set_inPath w true h) w path1 = Done r1) →
  (∀ e, e ∈ es → e ∈ edges (vertex_of h src)) →
  ∃ r, findPath_loop rec src tgt es h path = Done r.
Proof.
  intros Hwf Hpost Hrec. induction es as [|e es IH]; intros Hes; simpl.
  - eauto.
  - assert (Hes' : ∀ e0, e0 ∈ es → e0 ∈ edges (vertex_of h src)).
    { intros e0 He0. apply Hes. by right. }
    assert (Hvalid : valid h e).
    { apply (wf_adj h Hwf src). apply Hes. left. }
    destruct (negb (inPath (vertex_of h (target (edge_of h e)))) &&
              (0 <? capacity (edge_of h e))) eqn:Htest; [|by apply IH].
    apply andb_true_iff in Htest as [Hm Hc]. apply negb_true_iff in Hm.
    destruct (Ascii.eqb_spec (target (edge_of h e)) tgt) as [Heq|Hneq]; [eauto|].
    set (w := target (edge_of h e)) in *.
    assert (Hw : is_Some (verts h !! w)) by by apply (wf_tgt h Hwf).
    destruct (Hrec w (path ++ [e]) Hw Hm) as [[[h2 path2] found2] Hcall].
    rewrite Hcall. simpl.
    apply Hpost in Hcall; [|by apply wf_set_inPath]. simpl in Hcall.
    destruct found2; [eauto|].
    destruct Hcall as (-> & -> & _).
    rewrite set_inPath_idemp, set_inPath_restore by done.
    rewrite removelast_last. by apply IH.
Qed.

Lemma findPath_total_inner fuel h src tgt path (l : list ascii) :
  wf h →
  (∀ v, is_Some (verts h !! v) → marked h v = false → v ∈ l) →
  (length l < fuel)%nat →
  ∃ r, findPath fuel h src tgt path false = Done r.
Proof.
  revert h src path l. induction fuel as [|fuel IH]; intros h src path l Hwf Hl Hlen.
  - lia.
  - simpl. apply findPath_loop_total; try done.
    + intros h1 w path1 r1 Hwf1 Hcall. by eapply findPath_post_inner.
    + intros w path1 Hw Hm.
      apply (IH _ _ _ (filter (λ v, v ≠ w) l)).
      * by apply wf_set_inPath.
      * intros v Hv Hmv. apply is_Some_set_inPath in Hv.
        apply list_elem_of_filter.
        destruct (decide (v = w)) as [->|Hne].
        -- by rewrite marked_set_inPath_eq in Hmv.
        -- rewrite marked_set_inPath_ne in Hmv by done. split; [done|by apply Hl].
      * assert (Hin : w ∈ l) by by apply Hl.
        assert (length (filter (λ v, v ≠ w) l) < length l)%nat; [|lia].
        clear -Hin. induction l as [|x l IHl]; [by apply elem_of_nil in Hin|].
        rewrite filter_cons. simpl. case_decide as Hx.
        -- simpl. apply elem_of_cons in Hin as [->|Hin]; [done|].
           specialize (IHl Hin). lia.
        -- pose proof (length_filter (λ v, v ≠ w) l). lia.
    + intros e He. by rewrite elem_of_reverse in He.
Qed.

Lemma findPath_total fuel h src tgt path clearPath :
  wf h → (size (verts h) < fuel)%nat →
  ∃ r, findPath fuel h src tgt path clearPath = Done r.
Proof.
  intros Hwf Hfuel.
  assert (Hkeys : ∀ h0 : Heap, ∀ v, is_Some (verts h0 !! v) →
                                     v ∈ (map_to_list (verts h0)).*1).
  { intros h0 v [x Hx]. apply list_elem_of_fmap. exists (v, x).
    split; [done|]. by apply elem_of_map_to_list. }
  assert (Hlen : length ((map_to_list (verts h)).*1) = size (verts h)).
  { by rewrite length_fmap, length_map_to_list. }
  destruct clearPath.
  - destruct fuel as [|fuel]; [lia|]. simpl.
    pose proof (wf_set_inPath h src true Hwf) as Hwf0.
    apply findPath_loop_total; try done.
    + intros h1 w path1 r1 Hwf1 Hcall. by eapply findPath_post_inner.
    + intros w path1 Hw Hm.
      apply (findPath_total_inner _ _ _ _ _
               (filter (λ v, v ≠ w) (map_to_list (verts h)).*1)).
      * by apply wf_set_inPath.
      * intros v Hv Hmv. apply is_Some_set_inPath in Hv.
        apply list_elem_of_filter.
        destruct (decide (v = w)) as [->|Hne].
        -- by rewrite marked_set_inPath_eq in Hmv.
        -- split; [done|]. apply Hkeys. by apply is_Some_set_inPath in Hv.
      * assert (Hin : w ∈ (map_to_list (verts h)).*1).
        { apply Hkeys. by apply is_Some_set_inPath in Hw. }
        revert Hin Hlen Hfuel. generalize ((map_to_list (verts h)).*1).
        intros l Hin Hlen Hfuel.
        assert (length (filter (λ v, v ≠ w) l) < length l)%nat; [|lia].
        clear -Hin. induction l as [|x l IHl]; [by apply elem_of_nil in Hin|].
        rewrite filter_cons. simpl. case_decide as Hx.
        -- simpl. apply elem_of_cons in Hin as [->|Hin]; [done|].
           specialize (IHl Hin). lia.
        -- pose proof (length_filter (λ v, v ≠ w) l). lia.
    + intros e He. by rewrite elem_of_reverse in He.
  - apply (findPath_total_inner _ _ _ _ _ (map_to_list (verts h)).*1); try done.
    + intros v Hv _. by apply Hkeys.
    + lia.
Qed.

Lemma findPath_loop_mono rec1 rec2 src tgt es h path r :
  (∀ h1 w path1 r1, rec1 h1 w path1 = Done r1 → rec2 h1 w path1 = Done r1) →
  findPath_loop rec1 src tgt es h path = Done r →
  findPath_loop rec2 src tgt es h path = Done r.
Proof.
  intros Hrec. revert h path. induction es as [|e es IH]; intros h path Hrun.
  - done.
  - simpl in *.
    destruct (negb (inPath (vertex_of h (target (edge_of h e)))) &&
              (0 <? capacity (edge_of h e))); [|by apply IH].
    destruct (Ascii.eqb (target (edge_of h e)) tgt); [done|].
    destruct (rec1 _ _ _) as [[[h2 path2] found2]|f] eqn:Hcall; [|done].
    apply Hrec in Hcall. rewrite Hcall. simpl in *.
    destruct found2; [done|]. by apply IH.
Qed.

Lemma findPath_mono fuel fuel' h src tgt path clearPath r :
  (fuel ≤ fuel')%nat →
  findPath fuel h src tgt path clearPath = Done r →
  findPath fuel' h src tgt path clearPath = Done r.
Proof.
  revert fuel' h src path clearPath r.
  induction fuel as [|fuel IH]; intros fuel' h src path clearPath r Hle Hrun.
  - done.
  - destruct fuel' as [|fuel']; [lia|]. simpl in *.
    eapply findPath_loop_mono; [|done].
    intros h1 w path1 r1 Hcall. apply (IH fuel'); [lia|done].
Qed.

(** ** The residual network of an input *)

Abbreviation Line := (ascii * ascii * Z)%type.

Definition int_lines (lines : list Line) : Prop :=
  ∀ i a b c, lines !! i = Some (a, b, c) → in_int c.

(** Edge [i] of the input with endpoints [a], [b] and capacity [c] carries
    flow [f], and its reverse edge [r] holds the opposite. *)
Definition pair_state (h : Heap) (i : nat) (a b : ascii) (c : Z) (r : nat) (f : Z)
    : Prop :=
  edge_of h i = mkEdge a b (c - f) f false (Some r) ∧
  edge_of h r = mkEdge b a f (- f) true (Some i).

Record network (lines : list Line) (h : Heap) : Prop := mk_network {
  net_valid : ∀ i, (i < length lines)%nat → valid h i;
  net_fwd : ∀ i a b c, lines !! i = Some (a, b, c) →
    ∃ r f, (length lines ≤ r)%nat ∧ valid h r ∧ 0 ≤ f ≤ Z.max 0 c ∧
           pair_state h i a b c r f;
  net_rev : ∀ r, (length lines ≤ r)%nat → valid h r →
    ∃ i, (i < length lines)%nat ∧ reverseEdge (edge_of h i) = Some r
}.

(** The effect of one turn of changeFlow's loop on edge [x]: the flow of
    the input edge of [x]'s pair moves by [d], up when [x] is the input
    edge and down when it is the reverse edge. *)
Definition pushed (lines : list Line) (h h' : Heap) (x : nat) (d : Z) : Prop :=
  ∃ i a b c r f δ,
    lines !! i = Some (a, b, c) ∧ (length lines ≤ r)%nat ∧ valid h r ∧
    pair_state h i a b c r f ∧
    (x = i ∧ δ = d ∨ x = r ∧ δ = - d) ∧
    d ≤ capacity (edge_of h x) ∧
    0 ≤ f + δ ≤ Z.max 0 c ∧
    pair_state h' i a b c r (f + δ) ∧
    verts h' = verts h ∧ length (arena h') = length (arena h) ∧
    ∀ e, e ≠ i → e ≠ r → edge_of h' e = edge_of h e.

Lemma changeFlow_edge_pushed lines h x d h' :
  int_lines lines → network lines h → 0 ≤ d →
  changeFlow_edge d h x = Done h' → pushed lines h h' x d.
Proof.
  intros Hint Hnet Hd Hrun. unfold changeFlow_edge in Hrun.
  destruct (decide (valid h x)) as [Hx|Hx]; cycle 1.
  { rewrite (edge_of_invalid h x Hx) in Hrun. simpl in Hrun.
    by destruct (0 <? d). }
  destruct (decide (x < length lines)%nat) as [Hlt|Hge].
  - destruct (lookup_lt_is_Some_2 lines x Hlt) as [[[a b] c] Hline].
    destruct (net_fwd _ _ Hnet x a b c Hline) as (r & f & Hr & Hvr & Hf & HE & HR).
    pose proof (Hint _ _ _ _ Hline) as Hc. unfold in_int, int_min, int_max in Hc.
    rewrite HE in Hrun. simpl in Hrun.
    destruct (c - f <? d) eqn:Hcmp; [done|]. apply Z.ltb_ge in Hcmp.
    injection Hrun as <-.
    rewrite edge_of_set_edge_ne, HR by lia. simpl.
    rewrite !wrap_int_id by (unfold in_int, int_min, int_max; lia).
    exists x, a, b, c, r, f, d. split_and!; try done.
    + by left.
    + rewrite HE. simpl. lia.
    + lia.
    + lia.
    + split.
      * rewrite edge_of_set_edge_ne by lia. rewrite edge_of_set_edge_eq by done.
        f_equal; lia.
      * rewrite edge_of_set_edge_eq by by apply valid_set_edge.
        f_equal; lia.
    + simpl. by rewrite !length_insert.
    + intros e He1 He2. by rewrite !edge_of_set_edge_ne.
  - destruct (net_rev _ _ Hnet x) as (i & Hi & Hrev); [lia|done|].
    destruct (lookup_lt_is_Some_2 lines i Hi) as [[[a b] c] Hline].
    destruct (net_fwd _ _ Hnet i a b c Hline) as (r & f & Hr & Hvr & Hf & HE & HR).
    pose proof (Hint _ _ _ _ Hline) as Hc. unfold in_int, int_min, int_max in Hc.
    rewrite HE in Hrev. simpl in Hrev. injection Hrev as ->.
    rewrite HR in Hrun. simpl in Hrun.
    destruct (f <? d) eqn:Hcmp; [done|]. apply Z.ltb_ge in Hcmp.
    injection Hrun as <-.
    rewrite edge_of_set_edge_ne, HE by lia. simpl.
    rewrite !wrap_int_id by (unfold in_int, int_min, int_max; lia).
    exists i, a, b, c, x, f, (- d). split_and!; try done.
    + by right.
    + rewrite HR. simpl. lia.
    + lia.
    + lia.
    + split.
      * rewrite edge_of_set_edge_eq.
        -- f_equal; lia.
        -- apply valid_set_edge. by apply (net_valid _ _ Hnet).
      * rewrite edge_of_set_edge_ne by lia. rewrite edge_of_set_edge_eq by done.
        f_equal; lia.
    + simpl. by rewrite !length_insert.
    + intros e He1 He2. by rewrite !edge_of_set_edge_ne.
Qed.

Lemma pushed_static lines h h' x d :
  pushed lines h h' x d → ∀ e,
  source (edge_of h' e) = source (edge_of h e) ∧
  target (edge_of h' e) = target (edge_of h e) ∧
  isReverseEdge (edge_of h' e) = isReverseEdge (edge_of h e) ∧
  reverseEdge (edge_of h' e) = reverseEdge (edge_of h e).
Proof.
  intros (i & a & b & c & r & f & δ & _ & _ & _ & [HE HR] & _ & _ & _ & [HE' HR'] & _ & _ & Hoth) e.
  destruct (decide (e = i)) as [->|Hi]; [by rewrite HE, HE'|].
  destruct (decide (e = r)) as [->|Hr]; [by rewrite HR, HR'|].
  by rewrite Hoth.
Qed.

Lemma pushed_valid lines h h' x d :
  pushed lines h h' x d → ∀ e, valid h' e ↔ valid h e.
Proof.
  intros (i & a & b & c & r & f & δ & _ & _ & _ & _ & _ & _ & _ & _ & _ & Hlen & _) e.
  unfold valid. by rewrite Hlen.
Qed.

Lemma pushed_verts lines h h' x d :
  pushed lines h h' x d → verts h' = verts h.
Proof.
  by intros (i & a & b & c & r & f & δ & _ & _ & _ & _ & _ & _ & _ & _ & ? & _).
Qed.

Lemma pushed_other lines h h' x d z :
  pushed lines h h' x d →
  source (edge_of h z) ≠ source (edge_of h x) →
  target (edge_of h z) ≠ source (edge_of h x) →
  edge_of h' z = edge_of h z.
Proof.
  intros (i & a & b & c & r & f & δ & _ & _ & _ & [HE HR] & Hx & _ & _ & _ & _ & _ & Hoth) Hs Ht.
  apply Hoth.
  - intros ->. destruct Hx as [[-> _]|[-> _]]; [done|].
    rewrite HE, HR in Ht. done.
  - intros ->. destruct Hx as [[-> _]|[-> _]]; [|done].
    rewrite HE, HR in Ht. done.
Qed.

Lemma pushed_network lines h h' x d :
  network lines h → pushed lines h h' x d → network lines h'.
Proof.
  intros Hnet Hp.
  pose proof (pushed_valid _ _ _ _ _ Hp) as Hval.
  pose proof (pushed_static _ _ _ _ _ Hp) as Hstat.
  destruct Hp as (i & a & b & c & r & f & δ & Hline & Hr & Hvr & [HE HR] & _ & _ & Hf & [HE' HR'] & _ & _ & Hoth).
  split.
  - intros k Hk. apply Hval. by apply (net_valid _ _ Hnet).
  - intros k a' b' c' Hk.
    destruct (decide (k = i)) as [->|Hki].
    + rewrite Hline in Hk. injection Hk as <- <- <-.
      exists r, (f + δ). split; [done|]. split; [by apply Hval|].
      split; [done|]. by split.
    + destruct (net_fwd _ _ Hnet k a' b' c' Hk) as (r' & f' & Hr' & Hvr' & Hf' & HEk & HRk).
      exists r', f'. split; [done|]. split; [by apply Hval|]. split; [done|].
      assert (Hklt : (k < length lines)%nat) by by eapply lookup_lt_Some.
      assert (Hilt : (i < length lines)%nat) by by eapply lookup_lt_Some.
      split.
      * rewrite Hoth; [done|done|lia].
      * rewrite Hoth; [done|lia|]. intros ->.
        rewrite HR in HRk. by injection HRk.
  - intros r' Hr' Hvr'. apply Hval in Hvr'.
    destruct (net_rev _ _ Hnet r' Hr' Hvr') as (k & Hk & Hrev).
    exists k. split; [done|]. destruct (Hstat k) as (_ & _ & _ & ->). done.
Qed.

Lemma pushed_wf lines h h' x d : wf h → pushed lines h h' x d → wf h'.
Proof.
  intros [H1 H2 H3] Hp.
  pose proof (pushed_valid _ _ _ _ _ Hp) as Hval.
  pose proof (pushed_static _ _ _ _ _ Hp) as Hstat.
  pose proof (pushed_verts _ _ _ _ _ Hp) as Hv.
  unfold vertex_of in *. split; unfold vertex_of.
  - intros v e. rewrite Hv, Hval. destruct (Hstat e) as (-> & _). apply H1.
  - intros e. rewrite Hv, Hval. destruct (Hstat e) as (-> & _). apply H2.
  - intros e. rewrite Hv, Hval. destruct (Hstat e) as (_ & -> & _). apply H3.
Qed.

(** ** Sums over the input edges *)

Fixpoint sum_lines (g : nat → Line → Z) (k : nat) (lines : list Line) : Z :=
  match lines with
  | [] => 0
  | l :: lines' => g k l + sum_lines g (S k) lines'
  end.

Lemma sum_lines_ext g g' k lines :
  (∀ j l, lines !! j = Some l → g (k + j)%nat l = g' (k + j)%nat l) →
  sum_lines g k lines = sum_lines g' k lines.
Proof.
  revert k. induction lines as [|l lines IH]; intros k H; simpl; [done|].
  f_equal.
  - specialize (H 0%nat l eq_refl). by rewrite Nat.add_0_r in H.
  - apply IH. intros j l' Hj. specialize (H (S j) l' Hj).
    by replace (S k + j)%nat with (k + S j)%nat by lia.
Qed.

Lemma sum_lines_le g g' k lines :
  (∀ j l, lines !! j = Some l → g (k + j)%nat l ≤ g' (k + j)%nat l) →
  sum_lines g k lines ≤ sum_lines g' k lines.
Proof.
  revert k. induction lines as [|l lines IH]; intros k H; simpl; [done|].
  assert (g k l ≤ g' k l).
  { specialize (H 0%nat l eq_refl). by rewrite Nat.add_0_r in H. }
  assert (sum_lines g (S k) lines ≤ sum_lines g' (S k) lines); [|lia].
  apply IH. intros j l' Hj. specialize (H (S j) l' Hj).
  by replace (S k + j)%nat with (k + S j)%nat by lia.
Qed.

Lemma sum_lines_add g1 g2 k lines :
  sum_lines (λ i l, g1 i l + g2 i l) k lines =
  sum_lines g1 k lines + sum_lines g2 k lines.
Proof.
  revert k. induction lines as [|l lines IH]; intros k; simpl; [done|].
  rewrite IH. lia.
Qed.

Lemma sum_lines_scale z g k lines :
  sum_lines (λ i l, z * g i l) k lines = z * sum_lines g k lines.
Proof.
  revert k. induction lines as [|l lines IH]; intros k; simpl; [lia|].
  rewrite IH. lia.
Qed.

Lemma sum_lines_zero k lines : sum_lines (λ _ _, 0) k lines = 0.
Proof. revert k. induction lines as [|l lines IH]; intros k; simpl; [done|]. by rewrite IH. Qed.

Lemma sum_lines_change g g' k lines j lj :
  lines !! j = Some lj →
  (∀ j' l, lines !! j' = Some l → j' ≠ j → g' (k + j')%nat l = g (k + j')%nat l) →
  sum_lines g' k lines = sum_lines g k lines + (g' (k + j)%nat lj - g (k + j)%nat lj).
Proof.
  revert k j. induction lines as [|l lines IH]; intros k j Hj H; [done|].
  destruct j as [|j]; simpl in *.
  - injection Hj as ->. rewrite Nat.add_0_r.
    rewrite (sum_lines_ext g' g (S k) lines); [lia|].
    intros j l Hl. specialize (H (S j) l Hl).
    replace (S k + j)%nat with (k + S j)%nat by lia. apply H. lia.
  - rewrite (IH (S k) j Hj).
    + replace (S k + j)%nat with (k + S j)%nat by lia.
      specialize (H 0%nat l eq_refl). rewrite Nat.add_0_r in H.
      rewrite H; [lia|lia].
    + intros j' l' Hj' Hne. specialize (H (S j') l' Hj').
      replace (S k + j')%nat with (k + S j')%nat by lia. apply H. lia.
Qed.

(** ** Flows on the input graph *)

(** The notions of the specification: a flow assignment gives every input
    edge [i] a value [f i]; it is feasible when it respects the capacities
    and conserves flow at every vertex but the source and the target, and
    its value is what leaves the source minus what enters it. *)

Definition ind (a v : ascii) : Z := if decide (a = v) then 1 else 0.

Definition outflow (lines : list Line) (f : nat → Z) (v : ascii) : Z :=
  sum_lines (λ i l, ind l.1.1 v * f i) 0 lines.

Definition inflow (lines : list Line) (f : nat → Z) (v : ascii) : Z :=
  sum_lines (λ i l, ind l.1.2 v * f i) 0 lines.

Definition feasible_flow (lines : list Line) (s t : ascii) (f : nat → Z) : Prop :=
  (∀ i a b c, lines !! i = Some (a, b, c) → 0 ≤ f i ≤ c) ∧
  (∀ v, v ≠ s → v ≠ t → inflow lines f v = outflow lines f v).

Definition flow_value (lines : list Line) (s : ascii) (f : nat → Z) : Z :=
  outflow lines f s - inflow lines f s.

(** The flow assignment that a heap holds. *)
Definition flow_of (h : Heap) : nat → Z := λ i, flow (edge_of h i).

Definition excess (lines : list Line) (f : nat → Z) (v : ascii) : Z :=
  outflow lines f v - inflow lines f v.

Lemma excess_sum lines f v :
  excess lines f v = sum_lines (λ i l, (ind l.1.1 v - ind l.1.2 v) * f i) 0 lines.
Proof.
  unfold excess, outflow, inflow.
  rewrite (sum_lines_ext (λ i l, (ind l.1.1 v - ind l.1.2 v) * f i)
             (λ i l, ind l.1.1 v * f i + (-1) * (ind l.1.2 v * f i))).
  - rewrite sum_lines_add, (sum_lines_scale (-1)). lia.
  - intros j l _. lia.
Qed.

Lemma pushed_excess lines h h' x d v :
  pushed lines h h' x d →
  excess lines (flow_of h') v =
  excess lines (flow_of h) v +
  d * (ind (source (edge_of h x)) v - ind (target (edge_of h x)) v).
Proof.
  intros (i & a & b & c & r & f & δ & Hline & Hr & _ & [HE HR] & Hx & _ & _ & [HE' HR'] & _ & _ & Hoth).
  rewrite !excess_sum.
  rewrite (sum_lines_change (λ i l, (ind l.1.1 v - ind l.1.2 v) * flow_of h i)
             _ 0 lines i (a, b, c) Hline).
  - simpl. unfold flow_of. rewrite HE, HE'. simpl.
    destruct Hx as [[-> ->]|[-> ->]].
    + rewrite HE. simpl. lia.
    + rewrite HR. simpl. lia.
  - intros k l Hk Hne. simpl. unfold flow_of.
    assert (Hklt : (k < length lines)%nat) by by eapply lookup_lt_Some.
    rewrite Hoth; [done|done|lia].
Qed.

(** ** findMinCapacity and changeFlow *)

Lemma foldl_min_le h p init :
  foldl (λ m e, Z.min m (capacity (edge_of h e))) init p ≤ init ∧
  ∀ e, e ∈ p → foldl (λ m e, Z.min m (capacity (edge_of h e))) init p
               ≤ capacity (edge_of h e).
Proof.
  revert init. induction p as [|x p IH]; intros init; simpl.
  - split; [lia|]. intros e He. by apply elem_of_nil in He.
  - destruct (IH (Z.min init (capacity (edge_of h x)))) as [H1 H2].
    split; [lia|]. intros e He. apply elem_of_cons in He as [->|He]; [lia|].
    by apply H2.
Qed.

Lemma foldl_min_pos h p init :
  0 < init → residual h p →
  0 < foldl (λ m e, Z.min m (capacity (edge_of h e))) init p.
Proof.
  revert init. induction p as [|x p IH]; intros init Hi Hr; simpl; [done|].
  apply Forall_cons in Hr as [Hx Hr]. apply IH; [lia|done].
Qed.

Lemma findMinCapacity_done h p :
  p ≠ [] → ∃ m, findMinCapacity h p = Done m.
Proof. destruct p; [done|]. intros _. unfold findMinCapacity. eauto. Qed.

Lemma findMinCapacity_le h p m :
  findMinCapacity h p = Done m → ∀ e, e ∈ p → m ≤ capacity (edge_of h e).
Proof.
  unfold findMinCapacity. destruct p as [|x p]; [done|]. intros [= <-].
  intros e He. by apply (proj2 (foldl_min_le h (x :: p) (capacity (edge_of h x)))).
Qed.

Lemma findMinCapacity_pos h p m :
  findMinCapacity h p = Done m → residual h p → 0 < m.
Proof.
  unfold findMinCapacity. destruct p as [|x p]; [done|]. intros [= <-] Hr.
  apply Forall_cons in Hr as [Hx Hr]. apply foldl_min_pos; [lia|done].
Qed.

Lemma changeFlow_edge_done lines h x d :
  network lines h → valid h x → d ≤ capacity (edge_of h x) →
  ∃ h', changeFlow_edge d h x = Done h'.
Proof.
  intros Hnet Hx Hd. unfold changeFlow_edge.
  destruct (capacity (edge_of h x) <? d) eqn:Hcmp; [apply Z.ltb_lt in Hcmp; lia|].
  destruct (decide (x < length lines)%nat) as [Hlt|Hge].
  - destruct (lookup_lt_is_Some_2 lines x Hlt) as [[[a b] c] Hline].
    destruct (net_fwd _ _ Hnet x a b c Hline) as (r & f & _ & _ & _ & HE & _).
    rewrite HE. simpl. eauto.
  - destruct (net_rev _ _ Hnet x) as (i & Hi & Hrev); [lia|done|].
    destruct (lookup_lt_is_Some_2 lines i Hi) as [[[a b] c] Hline].
    destruct (net_fwd _ _ Hnet i a b c Hline) as (r & f & _ & _ & _ & HE & HR).
    rewrite HE in Hrev. simpl in Hrev. injection Hrev as ->.
    rewrite HR. simpl. eauto.
Qed.

Lemma walk_ends h a b p z :
  walk h a b p → z ∈ p →
  source (edge_of h z) ∈ a :: targets h p ∧ target (edge_of h z) ∈ targets h p.
Proof.
  revert a. induction p as [|x p IH]; intros a Hw Hz; [by apply elem_of_nil in Hz|].
  simpl in Hw. destruct Hw as (_ & Hs & Hw). simpl.
  apply elem_of_cons in Hz as [->|Hz].
  - split; [rewrite Hs|]; by left.
  - destruct (IH _ Hw Hz) as [H1 H2]. split; by right.
Qed.

Lemma walk_ext h h' a b p :
  (∀ z, valid h' z ↔ valid h z) →
  (∀ z, z ∈ p → edge_of h' z = edge_of h z) →
  walk h a b p → walk h' a b p.
Proof.
  intros Hval. revert a. induction p as [|x p IH]; intros a Hext Hw; [done|].
  simpl in *. destruct Hw as (Hv & Hs & Hw).
  rewrite (Hext x) by by left. split_and!; [by apply Hval|done|].
  apply IH; [|done]. intros z Hz. apply Hext. by right.
Qed.

Lemma targets_ext h h' p :
  (∀ z, z ∈ p → edge_of h' z = edge_of h z) → targets h' p = targets h p.
Proof.
  intros Hext. unfold targets. apply list_fmap_ext.
  intros i z Hz. rewrite Hext; [done|]. by eapply list_elem_of_lookup_2.
Qed.

Lemma changeFlow_loop_network lines h p d h' :
  int_lines lines → network lines h → 0 ≤ d →
  changeFlow_loop d h p = Done h' →
  network lines h' ∧ verts h' = verts h ∧ (wf h → wf h') ∧
  ∀ e, valid h' e ↔ valid h e.
Proof.
  intros Hint Hnet Hd. revert h Hnet. induction p as [|x p IH]; intros h Hnet Hrun.
  - injection Hrun as <-. done.
  - simpl in Hrun.
    destruct (changeFlow_edge d h x) as [h1|] eqn:Hedge; [|done]. simpl in Hrun.
    apply (changeFlow_edge_pushed lines) in Hedge; try done.
    destruct (IH h1) as (Hnet' & Hv' & Hwf' & Hval'); [by eapply pushed_network|done|].
    split_and!; [done| | |].
    + rewrite Hv'. by eapply pushed_verts.
    + intros Hwf. apply Hwf'. by eapply pushed_wf.
    + intros e. rewrite Hval'. by eapply pushed_valid.
Qed.

Lemma changeFlow_loop_path lines h p d a b :
  int_lines lines → network lines h → 0 ≤ d →
  walk h a b p → NoDup (a :: targets h p) →
  (∀ e, e ∈ p → d ≤ capacity (edge_of h e)) →
  ∃ h', changeFlow_loop d h p = Done h' ∧
        ∀ v, excess lines (flow_of h') v =
             excess lines (flow_of h) v + d * (ind a v - ind b v).
Proof.
  intros Hint Hnet Hd. revert h a Hnet.
  induction p as [|x p IH]; intros h a Hnet Hw Hnd Hcap.
  - simpl in Hw. subst b. exists h. split; [done|]. intros v. lia.
  - simpl in Hw. destruct Hw as (Hx & Hs & Hw).
    destruct (changeFlow_edge_done lines h x d) as [h1 Hedge]; try done.
    { apply Hcap. by left. }
    simpl. rewrite Hedge. simpl.
    pose proof (changeFlow_edge_pushed lines _ _ _ _ Hint Hnet Hd Hedge) as Hp.
    assert (Hext : ∀ z, z ∈ p → edge_of h1 z = edge_of h z).
    { intros z Hz. destruct (walk_ends _ _ _ _ _ Hw Hz) as [H1 H2].
      simpl in Hnd. apply NoDup_cons in Hnd as [Hnot _].
      eapply pushed_other; [done| |]; rewrite Hs; intros Heq; apply Hnot.
      - by rewrite <- Heq.
      - rewrite <- Heq. by right. }
    destruct (IH h1 (target (edge_of h x))) as (h' & Hrun & Hex).
    + by eapply pushed_network.
    + eapply walk_ext; [by eapply pushed_valid|done|done].
    + rewrite (targets_ext h h1) by done.
      simpl in Hnd. by apply NoDup_cons in Hnd as [_ ?].
    + intros e He. rewrite Hext by done. apply Hcap. by right.
    + exists h'. split; [done|]. intros v. rewrite Hex.
      rewrite (pushed_excess _ _ _ _ _ v Hp). rewrite Hs. lia.
Qed.

Lemma network_set_inPath lines h v b :
  network lines h → network lines (set_inPath v b h).
Proof. intros [H1 H2 H3]. by split. Qed.

Lemma flow_of_set_inPath h v b : flow_of (set_inPath v b h) = flow_of h.
Proof. done. Qed.

Lemma augmenting_path_set_inPath h v b a c p :
  augmenting_path h a c p → augmenting_path (set_inPath v b h) a c p.
Proof.
  intros (Hne & Hw & Hr & Hnd). unfold augmenting_path.
  split_and!; [done|by apply walk_set_inPath|exact Hr|exact Hnd].
Qed.

Lemma walk_last h a b p : walk h a b p → p ≠ [] → b ∈ targets h p.
Proof.
  revert a. induction p as [|x p IH]; intros a Hw Hne; [done|].
  simpl in *. destruct Hw as (_ & _ & Hw).
  destruct p as [|y p]; [simpl in Hw; subst; by left|].
  right. by apply (IH _ Hw).
Qed.

Lemma augmenting_path_ends h a b p : augmenting_path h a b p → a ≠ b.
Proof.
  intros (Hne & Hw & _ & Hnd) ->.
  apply NoDup_cons in Hnd as [Hnot _]. apply Hnot. by eapply walk_last.
Qed.

Lemma clean_set_inPath h s b : clean h s → clean (set_inPath s b h) s.
Proof. intros H v Hv. rewrite marked_set_inPath_ne by done. by apply H. Qed.

(** ** The driver loop *)

(** What holds of the heap whenever the while loop tests its condition. *)
Record driver_inv (lines : list Line) (s t : ascii) (h : Heap) : Prop := mk_driver_inv {
  inv_wf : wf h;
  inv_network : network lines h;
  inv_clean : clean h s;
  inv_conserved : ∀ v, v ≠ s → v ≠ t → excess lines (flow_of h) v = 0
}.

(** One successful turn of the loop. *)
Lemma augment_step lines depth graph h h' d :
  int_lines lines →
  driver_inv lines (gsource graph) (gtarget graph) h →
  augment depth graph h = Done (h', Some d) →
  0 < d ∧ driver_inv lines (gsource graph) (gtarget graph) h' ∧
  excess lines (flow_of h') (gsource graph) =
  excess lines (flow_of h) (gsource graph) + d ∧
  dom (verts h') = dom (verts h).
Proof.
  intros Hint [Hwf Hnet Hclean Hcons] Hrun. unfold augment in Hrun.
  destruct (findPath depth h (gsource graph) (gtarget graph) [] true)
    as [[[h1 path] found]|] eqn:Hfind; [|done]. simpl in Hrun.
  apply findPath_top in Hfind as [Hh1 Hfound]; try done.
  destruct found; cycle 1. { by injection Hrun. }
  destruct (findMinCapacity h1 path) as [m|] eqn:Hmin; [|done]. simpl in Hrun.
  destruct (changeFlow h1 path m) as [h2|] eqn:Hchange; [|done]. simpl in Hrun.
  injection Hrun as <- <-.
  assert (Hwf1 : wf h1) by (destruct Hh1 as [->| ->]; by apply wf_set_inPath).
  assert (Hnet1 : network lines h1)
    by (destruct Hh1 as [->| ->]; by apply network_set_inPath).
  assert (Hclean1 : clean h1 (gsource graph))
    by (destruct Hh1 as [->| ->]; by apply clean_set_inPath).
  assert (Hflow1 : flow_of h1 = flow_of h) by by destruct Hh1 as [->| ->].
  assert (Hpath : augmenting_path h1 (gsource graph) (gtarget graph) path)
    by (destruct Hh1 as [->| ->]; by apply augmenting_path_set_inPath).
  pose proof (augmenting_path_ends _ _ _ _ Hpath) as Hst.
  destruct Hpath as (Hne & Hw & Hr & Hnd).
  pose proof (findMinCapacity_pos _ _ _ Hmin Hr) as Hpos.
  unfold changeFlow in Hchange.
  destruct (m <? 0) eqn:Hneg; [apply Z.ltb_lt in Hneg; lia|].
  assert (Hm0 : 0 ≤ m) by lia.
  destruct (changeFlow_loop_network lines _ _ _ _ Hint Hnet1 Hm0 Hchange)
    as (Hnet2 & Hv2 & Hwf2 & _).
  destruct (changeFlow_loop_path lines h1 path m _ _ Hint Hnet1 Hm0 Hw Hnd)
    as (h2' & Hrun2 & Hex).
  { by apply findMinCapacity_le. }
  rewrite Hchange in Hrun2. injection Hrun2 as <-.
  split; [done|]. split; [|split].
  - split; [by apply Hwf2|done| |].
    + intros v Hv. unfold marked, vertex_of. rewrite Hv2. by apply Hclean1.
    + intros v Hvs Hvt. rewrite Hex, Hflow1, Hcons by done.
      unfold ind. repeat case_decide; try done; lia.
  - rewrite Hex, Hflow1. unfold ind. repeat case_decide; try done; lia.
  - rewrite Hv2. destruct Hh1 as [->| ->]; apply dom_alter_L.
Qed.

Lemma size_verts_set_inPath h v b :
  size (verts (set_inPath v b h)) = size (verts h).
Proof.
  unfold set_inPath. simpl.
  rewrite <- !size_dom. by rewrite dom_alter_L.
Qed.

(** The last turn of the loop: findPath fails, and nothing but the marker
    of the source has been touched. *)
Lemma augment_stop lines depth graph h h' :
  driver_inv lines (gsource graph) (gtarget graph) h →
  augment depth graph h = Done (h', None) →
  h' = set_inPath (gsource graph) false h ∧
  driver_inv lines (gsource graph) (gtarget graph) h' ∧
  ∀ p, ¬ augmenting_path h' (gsource graph) (gtarget graph) p.
Proof.
  intros [Hwf Hnet Hclean Hcons] Hrun. unfold augment in Hrun.
  destruct (findPath depth h (gsource graph) (gtarget graph) [] true)
    as [[[h1 path] found]|] eqn:Hfind; [|done]. simpl in Hrun.
  apply findPath_top in Hfind as [Hh1 Hfound]; try done.
  destruct found.
  { destruct (findMinCapacity h1 path); [|done]. simpl in Hrun.
    by destruct (changeFlow h1 path a). }
  injection Hrun as <-. destruct Hfound as (_ & -> & Hnone).
  split; [done|]. split.
  - split; [by apply wf_set_inPath|by apply network_set_inPath|
            by apply clean_set_inPath|done].
  - intros p (Hne & Hw & Hr & Hnd). apply (Hnone p).
    unfold augmenting_path. split_and!; [done|by apply walk_set_inPath in Hw|exact Hr|exact Hnd].
Qed.

Lemma augment_total lines depth graph h :
  int_lines lines →
  driver_inv lines (gsource graph) (gtarget graph) h →
  (size (verts h) < depth)%nat →
  ∃ h' step, augment depth graph h = Done (h', step).
Proof.
  intros Hint [Hwf Hnet Hclean Hcons] Hdepth. unfold augment.
  destruct (findPath_total depth h (gsource graph) (gtarget graph) [] true Hwf Hdepth)
    as [[[h1 path] found] Hfind].
  rewrite Hfind. simpl.
  apply findPath_top in Hfind as [Hh1 Hfound]; try done.
  destruct found; [|eauto].
  assert (Hnet1 : network lines h1)
    by (destruct Hh1 as [->| ->]; by apply network_set_inPath).
  assert (Hpath : augmenting_path h1 (gsource graph) (gtarget graph) path)
    by (destruct Hh1 as [->| ->]; by apply augmenting_path_set_inPath).
  destruct Hpath as (Hne & Hw & Hr & Hnd).
  destruct (findMinCapacity_done h1 path Hne) as [m Hmin]. rewrite Hmin. simpl.
  pose proof (findMinCapacity_pos _ _ _ Hmin Hr) as Hpos.
  assert (Hm0 : 0 ≤ m) by lia.
  destruct (changeFlow_loop_path lines h1 path m _ _ Hint Hnet1 Hm0 Hw Hnd)
    as (h2 & Hrun2 & _).
  { by apply findMinCapacity_le. }
  unfold changeFlow. destruct (m <? 0) eqn:Hneg; [apply Z.ltb_lt in Hneg; lia|].
  rewrite Hrun2. simpl. eauto.
Qed.

Lemma augment_mono depth depth' graph h r :
  (depth ≤ depth')%nat →
  augment depth graph h = Done r → augment depth' graph h = Done r.
Proof.
  intros Hle Hrun. unfold augment in *.
  destruct (findPath depth h (gsource graph) (gtarget graph) [] true)
    as [r1|] eqn:Hfind; [|done].
  by rewrite (findPath_mono _ _ _ _ _ _ _ _ Hle Hfind).
Qed.

Lemma findMaxFlow_loop_mono depth depth' fuel fuel' graph h m r :
  (depth ≤ depth')%nat → (fuel ≤ fuel')%nat →
  findMaxFlow_loop depth fuel graph h m = Done r →
  findMaxFlow_loop depth' fuel' graph h m = Done r.
Proof.
  intros Hd. revert fuel' h m.
  induction fuel as [|fuel IH]; intros fuel' h m Hle Hrun; [done|].
  destruct fuel' as [|fuel']; [lia|]. simpl in *.
  destruct (augment depth graph h) as [[h1 step]|] eqn:Haug; [|done].
  rewrite (augment_mono _ _ _ _ _ Hd Haug). simpl in *.
  destruct step; [|done]. apply IH; [lia|done].
Qed.

(** *** The bound on the flow *)

Definition nonneg_lines (lines : list Line) : Prop :=
  ∀ i a b c, lines !! i = Some (a, b, c) → 0 ≤ c.

(** The total capacity of the input edges that leave [s]. *)
Definition capacity_out (lines : list Line) (s : ascii) : Z :=
  sum_lines (λ _ l, ind l.1.1 s * l.2) 0 lines.

Lemma network_flow_bounds lines h i a b c :
  network lines h → lines !! i = Some (a, b, c) →
  0 ≤ flow_of h i ≤ Z.max 0 c.
Proof.
  intros Hnet Hline.
  destruct (net_fwd _ _ Hnet i a b c Hline) as (r & f & _ & _ & Hf & HE & _).
  unfold flow_of. by rewrite HE.
Qed.

Lemma ind_range a v : 0 ≤ ind a v ≤ 1.
Proof. unfold ind. case_decide; lia. Qed.

Lemma excess_bound lines h s :
  nonneg_lines lines → network lines h →
  excess lines (flow_of h) s ≤ capacity_out lines s.
Proof.
  intros Hnn Hnet. unfold excess, outflow, inflow, capacity_out.
  assert (sum_lines (λ i l, ind l.1.1 s * flow_of h i) 0 lines ≤
          sum_lines (λ _ l, ind l.1.1 s * l.2) 0 lines).
  { apply sum_lines_le. intros j [[a b] c] Hj. simpl.
    pose proof (network_flow_bounds _ _ _ _ _ _ Hnet Hj).
    pose proof (Hnn _ _ _ _ Hj). pose proof (ind_range a s). nia. }
  assert (sum_lines (λ _ _, 0) 0 lines ≤
          sum_lines (λ i l, ind l.1.2 s * flow_of h i) 0 lines).
  { apply sum_lines_le. intros j [[a b] c] Hj. simpl.
    pose proof (network_flow_bounds _ _ _ _ _ _ Hnet Hj).
    pose proof (ind_range b s). nia. }
  rewrite sum_lines_zero in *. lia.
Qed.

(** *** Termination of the loop *)

Lemma findMaxFlow_loop_done lines graph depth (k : nat) h m :
  int_lines lines → nonneg_lines lines →
  driver_inv lines (gsource graph) (gtarget graph) h →
  (size (verts h) < depth)%nat →
  capacity_out lines (gsource graph) - excess lines (flow_of h) (gsource graph)
    ≤ Z.of_nat k →
  in_int m →
  ∃ h' r, findMaxFlow_loop depth (S k) graph h m = Done (h', r) ∧
    driver_inv lines (gsource graph) (gtarget graph) h' ∧
    (∀ p, ¬ augmenting_path h' (gsource graph) (gtarget graph) p) ∧
    excess lines (flow_of h) (gsource graph)
      ≤ excess lines (flow_of h') (gsource graph) ∧
    r = wrap_int (m + (excess lines (flow_of h') (gsource graph)
                       - excess lines (flow_of h) (gsource graph))).
Proof.
  intros Hint Hnn. revert h m.
  induction k as [|k IH]; intros h m Hinv Hdepth Hk Hm.
  - destruct (augment_total lines depth graph h Hint Hinv Hdepth) as (h1 & step & Haug).
    simpl. rewrite Haug. simpl. destruct step as [d|].
    + destruct (augment_step _ _ _ _ _ _ Hint Hinv Haug) as (Hd & Hinv1 & Hex & _).
      pose proof (excess_bound lines h1 (gsource graph) Hnn (inv_network _ _ _ _ Hinv1)).
      lia.
    + destruct (augment_stop _ _ _ _ _ Hinv Haug) as (-> & Hinv1 & Hnone).
      exists (set_inPath (gsource graph) false h), m.
      rewrite flow_of_set_inPath. split_and!; try done.
      rewrite Z.sub_diag, Z.add_0_r. by rewrite wrap_int_id.
  - destruct (augment_total lines depth graph h Hint Hinv Hdepth) as (h1 & step & Haug).
    change (findMaxFlow_loop depth (S (S k)) graph h m) with
      ('(h', step) ← augment depth graph h;
       match step with
       | Some minCapacity =>
           findMaxFlow_loop depth (S k) graph h' (wrap_int (m + minCapacity))
       | None => Done (h', m)
       end).
    rewrite Haug. simpl mbind. cbv beta iota. destruct step as [d|].
    + destruct (augment_step _ _ _ _ _ _ Hint Hinv Haug) as (Hd & Hinv1 & Hex & Hdom).
      destruct (IH h1 (wrap_int (m + d))) as (h' & r & Hrun & Hinv' & Hnone & Hle & Hr);
        try done.
      * by rewrite <- !size_dom, Hdom, !size_dom.
      * lia.
      * apply wrap_int_range.
      * exists h', r. split_and!; try done; [lia|].
        rewrite Hr, wrap_int_add. f_equal. lia.
    + destruct (augment_stop _ _ _ _ _ Hinv Haug) as (-> & Hinv1 & Hnone).
      exists (set_inPath (gsource graph) false h), m.
      rewrite flow_of_set_inPath. split_and!; try done.
      rewrite Z.sub_diag, Z.add_0_r. by rewrite wrap_int_id.
Qed.

(** ** Cuts *)

Fixpoint sum_vertices (g : ascii → Z) (V : list ascii) : Z :=
  match V with
  | [] => 0
  | v :: V' => g v + sum_vertices g V'
  end.

Lemma sum_vertices_ext g g' V :
  (∀ v, v ∈ V → g v = g' v) → sum_vertices g V = sum_vertices g' V.
Proof.
  induction V as [|v V IH]; intros H; simpl; [done|].
  rewrite (H v) by by left. rewrite IH; [done|]. intros u Hu. apply H. by right.
Qed.

Lemma sum_vertices_zero V : sum_vertices (λ _, 0) V = 0.
Proof. induction V as [|v V IH]; simpl; [done|]. by rewrite IH. Qed.

Lemma sum_vertices_ind (g : ascii → Z) a V :
  NoDup V → sum_vertices (λ v, g v * ind a v) V = if decide (a ∈ V) then g a else 0.
Proof.
  induction V as [|v V IH]; intros Hnd; simpl.
  - destruct (decide (a ∈ [])) as [H|H]; [by apply elem_of_nil in H|done].
  - apply NoDup_cons in Hnd as [Hnot Hnd]. rewrite IH by done.
    unfold ind.
    destruct (decide (a ∈ v :: V)) as [Hin|Hnin];
      destruct (decide (a ∈ V)) as [Hin'|Hnin'];
      destruct (decide (a = v)) as [->|Hne]; try lia; try done;
      try (exfalso; apply Hnin; by left);
      try (exfalso; apply Hnin; by right);
      try (apply elem_of_cons in Hin as [?|?]; done).
Qed.

Lemma sum_vertices_lines (G : ascii → nat → Line → Z) V k lines :
  sum_vertices (λ v, sum_lines (G v) k lines) V =
  sum_lines (λ i l, sum_vertices (λ v, G v i l) V) k lines.
Proof.
  induction V as [|v V IH]; simpl.
  - by rewrite sum_lines_zero.
  - rewrite IH. by rewrite <- sum_lines_add.
Qed.

(** The flow that crosses a set [R] of vertices, and the capacity of the
    cut that [R] makes. *)
Definition cut_flow (lines : list Line) (f : nat → Z) (R : ascii → bool) : Z :=
  sum_lines (λ i l, (Z.b2z (R l.1.1) - Z.b2z (R l.1.2)) * f i) 0 lines.

Definition cut_capacity (lines : list Line) (R : ascii → bool) : Z :=
  sum_lines (λ _ l, Z.b2z (R l.1.1 && negb (R l.1.2)) * l.2) 0 lines.

Lemma cut_flow_excess lines s t f (R : ascii → bool) :
  R s = true → R t = false →
  (∀ v, v ≠ s → v ≠ t → excess lines f v = 0) →
  cut_flow lines f R = excess lines f s.
Proof.
  intros Hs Ht Hcons.
  set (V := remove_dups (s :: flat_map (λ l : Line, [l.1.1; l.1.2]) lines)).
  assert (Hnd : NoDup V) by apply NoDup_remove_dups.
  assert (HsV : s ∈ V) by (apply elem_of_remove_dups; by left).
  assert (Hends : ∀ j l, lines !! j = Some l → l.1.1 ∈ V ∧ l.1.2 ∈ V).
  { intros j l Hj. apply list_elem_of_lookup_2 in Hj.
    split; apply elem_of_remove_dups; right; apply list_elem_of_In, in_flat_map;
      exists l; (split; [by apply list_elem_of_In|simpl; auto]). }
  transitivity (sum_vertices (λ v, Z.b2z (R v) * excess lines f v) V).
  - rewrite (sum_vertices_ext _
      (λ v, sum_lines (λ i l, Z.b2z (R v) * ((ind l.1.1 v - ind l.1.2 v) * f i)) 0 lines)).
    2: { intros v _. by rewrite excess_sum, sum_lines_scale. }
    rewrite sum_vertices_lines. unfold cut_flow. apply sum_lines_ext.
    intros j l Hj. simpl. destruct (Hends j l Hj) as [H1 H2].
    rewrite (sum_vertices_ext _
      (λ v, (Z.b2z (R v) * f j) * ind l.1.1 v + (- Z.b2z (R v) * f j) * ind l.1.2 v)).
    2: { intros v _. lia. }
    assert (Hsplit : ∀ g1 g2 W, sum_vertices (λ v, g1 v + g2 v) W =
                                sum_vertices g1 W + sum_vertices g2 W).
    { intros g1 g2 W. induction W as [|w W IHW]; simpl; [done|]. rewrite IHW. lia. }
    rewrite Hsplit.
    rewrite (sum_vertices_ind (λ v, Z.b2z (R v) * f j)) by done.
    rewrite (sum_vertices_ind (λ v, - Z.b2z (R v) * f j)) by done.
    rewrite !decide_True by done. lia.
  - rewrite (sum_vertices_ext _ (λ v, excess lines f s * ind s v)).
    + rewrite (sum_vertices_ind (λ _, excess lines f s)) by done.
      by rewrite decide_True.
    + intros v _. unfold ind. destruct (decide (s = v)) as [<-|Hne].
      * rewrite Hs. simpl. lia.
      * destruct (decide (v = t)) as [->|Hvt]; [rewrite Ht; simpl; lia|].
        rewrite Hcons by done. lia.
Qed.

Lemma cut_flow_le lines f R :
  (∀ i a b c, lines !! i = Some (a, b, c) → 0 ≤ f i ≤ c) →
  cut_flow lines f R ≤ cut_capacity lines R.
Proof.
  intros Hf. unfold cut_flow, cut_capacity. apply sum_lines_le.
  intros j [[a b] c] Hj. simpl. specialize (Hf _ _ _ _ Hj).
  destruct (R a), (R b); simpl; lia.
Qed.

(** ** The vertices within reach of the source *)

(** Whether the residual graph leads from [s] to [v], as findPath tells. *)
Definition reaches (h : Heap) (s v : ascii) : bool :=
  bool_decide (v = s) ||
  match findPath (S (size (verts h))) h s v [] true with
  | Done (_, _, found) => found
  | Fail _ => false
  end.

Lemma reaches_spec h s v :
  wf h → clean h s →
  reaches h s v = true ↔ v = s ∨ ∃ p, augmenting_path h s v p.
Proof.
  intros Hwf Hclean. unfold reaches.
  destruct (findPath_total (S (size (verts h))) h s v [] true Hwf ltac:(lia))
    as [[[h1 path] found] Hfind].
  rewrite Hfind. apply findPath_top in Hfind as [_ Hfound]; try done.
  rewrite orb_true_iff, bool_decide_eq_true. split.
  - intros [->| ->]; [by left|right; eauto].
  - intros [->|[p Hp]]; [by left|]. destruct found; [by right|].
    destruct Hfound as (_ & _ & Hnone). by destruct (Hnone p).
Qed.

Lemma walk_app h a b c p q :
  walk h a b p → walk h b c q → walk h a c (p ++ q).
Proof.
  revert a. induction p as [|x p IH]; intros a Hp Hq; simpl in *; [by subst|].
  destruct Hp as (Hv & Hs & Hp). split_and!; try done. by apply IH.
Qed.

Lemma walk_prefix h a b p w :
  walk h a b p → w ∈ targets h p →
  ∃ p' q, p = p' ++ q ∧ p' ≠ [] ∧ walk h a w p'.
Proof.
  revert a. induction p as [|x p IH]; intros a Hw Hin; [by apply elem_of_nil in Hin|].
  simpl in *. destruct Hw as (Hv & Hs & Hw).
  destruct (decide (w = target (edge_of h x))) as [->|Hne].
  - exists [x], p. split_and!; done.
  - apply elem_of_cons in Hin as [?|Hin]; [done|].
    destruct (IH _ Hw Hin) as (p' & q & -> & Hne' & Hw').
    exists (x :: p'), q. split_and!; done.
Qed.

Lemma reaches_closed h s x :
  wf h → clean h s → valid h x → 0 < capacity (edge_of h x) →
  reaches h s (source (edge_of h x)) = true →
  reaches h s (target (edge_of h x)) = true.
Proof.
  intros Hwf Hclean Hx Hc Hsrc.
  apply reaches_spec in Hsrc; try done. apply reaches_spec; try done.
  destruct (decide (target (edge_of h x) = s)) as [Hts|Hts]; [by left|right].
  destruct Hsrc as [Hs|[p (Hne & Hw & Hr & Hnd)]].
  - exists [x]. unfold augmenting_path. split_and!; try done.
    + by apply Forall_singleton.
    + simpl. apply NoDup_cons. split; [|apply NoDup_singleton].
      intros Hin. apply list_elem_of_singleton in Hin. done.
  - destruct (decide (target (edge_of h x) ∈ targets h p)) as [Hin|Hnin].
    + destruct (walk_prefix _ _ _ _ _ Hw Hin) as (p' & q & -> & Hne' & Hw').
      exists p'. unfold augmenting_path. split_and!; try done.
      * unfold residual in *. by apply Forall_app in Hr as [? _].
      * unfold targets in Hnd. rewrite fmap_app in Hnd.
        rewrite app_comm_cons in Hnd. by apply NoDup_app in Hnd as (? & _).
    + exists (p ++ [x]). unfold augmenting_path. split_and!.
      * by destruct p.
      * eapply walk_app; [done|]. simpl. done.
      * unfold residual in *. apply Forall_app. split; [done|by apply Forall_singleton].
      * unfold targets in *. rewrite fmap_app. simpl.
        rewrite app_comm_cons. apply NoDup_app. split_and!; [done| |apply NoDup_singleton].
        intros v Hv Hv'. apply list_elem_of_singleton in Hv'. subst v.
        apply elem_of_cons in Hv as [?|?]; done.
Qed.

(** ** No augmenting path: the flow is maximum *)

Lemma network_feasible lines s t h :
  nonneg_lines lines → driver_inv lines s t h →
  feasible_flow lines s t (flow_of h).
Proof.
  intros Hnn [_ Hnet _ Hcons]. split.
  - intros i a b c Hi. pose proof (network_flow_bounds _ _ _ _ _ _ Hnet Hi).
    pose proof (Hnn _ _ _ _ Hi). lia.
  - intros v Hs Ht. specialize (Hcons v Hs Ht). unfold excess in Hcons. lia.
Qed.

Lemma no_path_max_flow lines s t h f :
  nonneg_lines lines → driver_inv lines s t h → s ≠ t →
  (∀ p, ¬ augmenting_path h s t p) →
  feasible_flow lines s t f →
  flow_value lines s f ≤ flow_value lines s (flow_of h).
Proof.
  intros Hnn Hinv Hst Hnone [Hf Hcons].
  pose proof Hinv as [Hwf Hnet Hclean Hcons'].
  set (R := reaches h s).
  assert (HRs : R s = true) by (apply reaches_spec; [done|done|by left]).
  assert (HRt : R t = false).
  { destruct (R t) eqn:HR; [|done]. apply reaches_spec in HR; try done.
    destruct HR as [?|[p Hp]]; [done|]. by destruct (Hnone p). }
  change (excess lines f s ≤ excess lines (flow_of h) s).
  rewrite <- (cut_flow_excess lines s t f R HRs HRt).
  2: { intros v Hvs Hvt. unfold excess. rewrite (Hcons v Hvs Hvt). lia. }
  rewrite <- (cut_flow_excess lines s t (flow_of h) R HRs HRt) by done.
  etransitivity; [by apply cut_flow_le|].
  unfold cut_flow, cut_capacity. apply sum_lines_le.
  intros j [[a b] c] Hj. simpl.
  destruct (net_fwd _ _ Hnet j a b c Hj) as (r & fl & Hr & Hvr & Hfl & HE & HR).
  pose proof (Hnn _ _ _ _ Hj) as Hc.
  assert (Hj' : valid h j).
  { apply (net_valid _ _ Hnet). by eapply lookup_lt_Some. }
  unfold flow_of. rewrite HE. simpl.
  destruct (R a) eqn:Ha, (R b) eqn:Hb; simpl; try lia.
  - assert (¬ 0 < c - fl); [|lia]. intros Hpos.
    pose proof (reaches_closed h s j Hwf Hclean Hj') as Hcl.
    rewrite HE in Hcl. simpl in Hcl. specialize (Hcl Hpos Ha).
    fold R in Hcl. congruence.
  - assert (¬ 0 < fl); [|lia]. intros Hpos.
    pose proof (reaches_closed h s r Hwf Hclean Hvr) as Hcl.
    rewrite HR in Hcl. simpl in Hcl. specialize (Hcl Hpos Hb).
    fold R in Hcl. congruence.
Qed.

(** ** Building the graph *)

Lemma elem_of_set_insert {A} (lt : A → A → bool) x l y :
  y ∈ set_insert lt x l → y = x ∨ y ∈ l.
Proof.
  induction l as [|z l IH]; simpl.
  - intros H. apply list_elem_of_singleton in H. by left.
  - destruct (lt x z).
    + intros H. apply elem_of_cons in H as [->|H]; [by left|by right].
    + destruct (lt z x); [|by right].
      intros H. apply elem_of_cons in H as [->|H]; [right; by left|].
      destruct (IH H) as [->|?]; [by left|right; by right].
Qed.

Lemma set_insert_old {A} (lt : A → A → bool) x l y :
  y ∈ l → y ∈ set_insert lt x l.
Proof.
  induction l as [|z l IH]; simpl; [intros H; by apply elem_of_nil in H|]. intros H.
  destruct (lt x z); [by right|]. destruct (lt z x); [|done].
  apply elem_of_cons in H as [->|H]; [by left|right; by apply IH].
Qed.

Lemma set_insert_new {A} (lt : A → A → bool) x l :
  (∀ y, y ∈ l → lt x y = true ∨ lt y x = true) → x ∈ set_insert lt x l.
Proof.
  induction l as [|z l IH]; simpl; intros H; [by left|].
  destruct (lt x z) eqn:H1; [by left|].
  destruct (lt z x) eqn:H2.
  - right. apply IH. intros y Hy. apply H. by right.
  - destruct (H z) as [?|?]; [by left|congruence|congruence].
Qed.

Lemma char_value_inj a b : char_value a = char_value b → a = b.
Proof.
  unfold char_value. intros Heq.
  pose proof (nat_ascii_bounded a) as Ha. pose proof (nat_ascii_bounded b) as Hb.
  rewrite <- (ascii_nat_embedding a), <- (ascii_nat_embedding b). f_equal.
  destruct (Z.leb_spec 128 (Z.of_nat (nat_of_ascii a)));
    destruct (Z.leb_spec 128 (Z.of_nat (nat_of_ascii b))); lia.
Qed.

Lemma char_lt_total a b : a ≠ b → char_lt a b = true ∨ char_lt b a = true.
Proof.
  intros Hne. unfold char_lt.
  assert (char_value a ≠ char_value b) by (intros Heq; by apply Hne, char_value_inj).
  destruct (Z.ltb_spec (char_value a) (char_value b)); [by left|right].
  apply Z.ltb_lt. lia.
Qed.

Lemma EdgePtrComparator_total h a b :
  a ≠ b → EdgePtrComparator h a b = true ∨ EdgePtrComparator h b a = true.
Proof.
  intros Hne. unfold EdgePtrComparator.
  destruct (Ascii.eqb_spec (source (edge_of h a)) (source (edge_of h b))) as [Hs|Hs]; simpl.
  - rewrite Hs, Ascii.eqb_refl. simpl.
    destruct (Ascii.eqb_spec (target (edge_of h a)) (target (edge_of h b))) as [Ht|Ht]; simpl.
    + rewrite Ht, Ascii.eqb_refl. simpl.
      destruct (Nat.ltb_spec a b); [by left|right]. apply Nat.ltb_lt. lia.
    + destruct (Ascii.eqb_spec (target (edge_of h b)) (target (edge_of h a))); [done|].
      simpl. by apply char_lt_total.
  - destruct (Ascii.eqb_spec (source (edge_of h b)) (source (edge_of h a))); [done|].
    simpl. by apply char_lt_total.
Qed.

Lemma edge_of_new_edge_old h x e : valid h e → edge_of (new_edge x h) e = edge_of h e.
Proof.
  unfold valid, edge_of, new_edge. simpl. intros H. by rewrite lookup_app_l.
Qed.

Lemma edge_of_new_edge_new h x : edge_of (new_edge x h) (length (arena h)) = x.
Proof.
  unfold edge_of, new_edge. simpl.
  rewrite lookup_app_r by lia. by rewrite Nat.sub_diag.
Qed.

Lemma valid_new_edge h x e : valid (new_edge x h) e ↔ (e ≤ length (arena h))%nat.
Proof. unfold valid, new_edge. simpl. rewrite length_app. simpl. lia. Qed.

Lemma edges_edges_insert_eq h v e :
  is_Some (verts h !! v) →
  edges (vertex_of (edges_insert v e h) v) =
  set_insert (EdgePtrComparator h) e (edges (vertex_of h v)).
Proof.
  unfold vertex_of, edges_insert. simpl. intros [x Hx].
  by rewrite lookup_alter_eq, Hx.
Qed.

Lemma vertex_of_edges_insert_ne h v e u :
  u ≠ v → vertex_of (edges_insert v e h) u = vertex_of h u.
Proof.
  unfold vertex_of, edges_insert. simpl. intros H. by rewrite lookup_alter_ne.
Qed.

Lemma marked_edges_insert h v e u : marked (edges_insert v e h) u = marked h u.
Proof.
  unfold marked, vertex_of, edges_insert. simpl.
  destruct (decide (v = u)) as [->|Hne].
  - rewrite lookup_alter_eq. by destruct (verts h !! u).
  - by rewrite lookup_alter_ne.
Qed.

Lemma is_Some_edges_insert h v e u :
  is_Some (verts (edges_insert v e h) !! u) ↔ is_Some (verts h !! u).
Proof.
  unfold edges_insert. simpl. rewrite lookup_alter. case_decide; [subst|done].
  by rewrite fmap_is_Some.
Qed.

Lemma edges_insert_old h v e u e' :
  e' ∈ edges (vertex_of h u) → e' ∈ edges (vertex_of (edges_insert v e h) u).
Proof.
  intros H. destruct (decide (u = v)) as [->|Hne].
  - destruct (verts h !! v) as [x|] eqn:Hx.
    + rewrite edges_edges_insert_eq by by rewrite Hx. by apply set_insert_old.
    + unfold vertex_of in H. rewrite Hx in H. simpl in H. by apply elem_of_nil in H.
  - by rewrite vertex_of_edges_insert_ne.
Qed.

Lemma edges_insert_elem h v e u e' :
  e' ∈ edges (vertex_of (edges_insert v e h) u) →
  (e' = e ∧ u = v) ∨ e' ∈ edges (vertex_of h u).
Proof.
  intros H. destruct (decide (u = v)) as [->|Hne].
  - destruct (verts h !! v) as [x|] eqn:Hx.
    + rewrite edges_edges_insert_eq in H by by rewrite Hx.
      apply elem_of_set_insert in H as [->|H]; [by left|by right].
    + unfold vertex_of, edges_insert in H. simpl in H.
      rewrite lookup_alter_eq, Hx in H. simpl in H. by apply elem_of_nil in H.
  - rewrite vertex_of_edges_insert_ne in H by done. by right.
Qed.

(** *** addReverseEdges *)

(** An edge that has its reverse edge is passed over. *)
Lemma addReverseEdge_paired h e :
  is_Some (reverseEdge (edge_of h e)) → addReverseEdge h e = Done h.
Proof.
  intros [r Hr]. unfold addReverseEdge. rewrite Hr.
  rewrite bool_decide_eq_true_2 by eauto. simpl. by rewrite andb_false_r.
Qed.

(** An edge without one gets a new edge as its reverse. *)
Lemma addReverseEdge_new h i :
  valid h i → reverseEdge (edge_of h i) = None →
  isReverseEdge (edge_of h i) = false →
  ∃ h', addReverseEdge h i = Done h' ∧
    (∀ e, valid h' e ↔ (e ≤ length (arena h))%nat) ∧
    edge_of h' i = mkEdge (source (edge_of h i)) (target (edge_of h i))
                     (capacity (edge_of h i)) (flow (edge_of h i))
                     false (Some (length (arena h))) ∧
    edge_of h' (length (arena h)) =
      mkEdge (target (edge_of h i)) (source (edge_of h i)) 0 0 true (Some i) ∧
    (∀ e, valid h e → e ≠ i → edge_of h' e = edge_of h e) ∧
    (∀ u, marked h' u = marked h u) ∧
    (∀ u, is_Some (verts h' !! u) ↔ is_Some (verts h !! u)) ∧
    (∀ u e, e ∈ edges (vertex_of h u) → e ∈ edges (vertex_of h' u)) ∧
    (∀ u e, e ∈ edges (vertex_of h' u) →
       (e = length (arena h) ∧ u = target (edge_of h i)) ∨ e ∈ edges (vertex_of h u)) ∧
    (is_Some (verts h !! target (edge_of h i)) →
     (∀ y, y ∈ edges (vertex_of h (target (edge_of h i))) → valid h y) →
     length (arena h) ∈ edges (vertex_of h' (target (edge_of h i)))).
Proof.
  intros Hi Hnone Hfwd. unfold addReverseEdge. rewrite Hnone, Hfwd. simpl.
  set (L := length (arena h)).
  set (R := mkEdge (target (edge_of h i)) (source (edge_of h i)) 0 0 true (Some i)).
  set (E' := mkEdge (source (edge_of h i)) (target (edge_of h i))
               (capacity (edge_of h i)) (flow (edge_of h i)) false (Some L)).
  set (h2 := set_edge i E' (new_edge R h)).
  assert (Hi1 : valid (new_edge R h) i) by (apply valid_new_edge; unfold valid in Hi; lia).
  eexists. split; [done|]. split_and!.
  - intros e. change (valid h2 e ↔ (e ≤ L)%nat). unfold h2.
    rewrite valid_set_edge. apply valid_new_edge.
  - change (edge_of h2 i = E'). by apply edge_of_set_edge_eq.
  - change (edge_of h2 L = R). unfold h2.
    rewrite edge_of_set_edge_ne by (unfold valid in Hi; lia).
    apply edge_of_new_edge_new.
  - intros e He Hne. change (edge_of h2 e = edge_of h e). unfold h2.
    rewrite edge_of_set_edge_ne by done. by apply edge_of_new_edge_old.
  - intros u. etrans; [apply marked_edges_insert|done].
  - intros u. etrans; [apply is_Some_edges_insert|done].
  - intros u e He. apply (edges_insert_old h2). exact He.
  - intros u e He. apply edges_insert_elem in He as [[-> ->]|He]; [by left|right; exact He].
  - intros Ht Hold. rewrite (edges_edges_insert_eq h2) by exact Ht.
    apply set_insert_new. intros y Hy. apply EdgePtrComparator_total.
    apply Hold in Hy. unfold valid in Hy. fold L in Hy. lia.
Qed.

(** The heap while the reverse edges are being added: input edge [i] either
    is as readGraph left it or has its reverse edge, both without flow. *)
Record building (lines : list Line) (h : Heap) : Prop := mk_building {
  bld_wf : wf h;
  bld_valid : ∀ i, (i < length lines)%nat → valid h i;
  bld_fwd : ∀ i a b c, lines !! i = Some (a, b, c) →
    edge_of h i = mkEdge a b c 0 false None ∨
    ∃ r, (length lines ≤ r)%nat ∧ valid h r ∧ pair_state h i a b c r 0;
  bld_rev : ∀ r, (length lines ≤ r)%nat → valid h r →
    ∃ i, (i < length lines)%nat ∧ reverseEdge (edge_of h i) = Some r;
  bld_marks : ∀ v, marked h v = false
}.

(** What addReverseEdges keeps: edges, reverse links and set members stay. *)
Record extends (h h' : Heap) : Prop := mk_extends {
  ext_valid : ∀ e, valid h e → valid h' e;
  ext_rev : ∀ e, is_Some (reverseEdge (edge_of h e)) →
                 is_Some (reverseEdge (edge_of h' e));
  ext_edges : ∀ v e, e ∈ edges (vertex_of h v) → e ∈ edges (vertex_of h' v);
  ext_verts : ∀ v, is_Some (verts h' !! v) ↔ is_Some (verts h !! v)
}.

Lemma extends_refl h : extends h h.
Proof. by split. Qed.

Lemma extends_trans h1 h2 h3 : extends h1 h2 → extends h2 h3 → extends h1 h3.
Proof.
  intros [A1 A2 A3 A4] [B1 B2 B3 B4]. split; [by auto|by auto|by auto|].
  intros v. by rewrite B4.
Qed.

Lemma building_paired lines h r :
  building lines h → (length lines ≤ r)%nat → valid h r →
  ∃ i a b c, lines !! i = Some (a, b, c) ∧ pair_state h i a b c r 0.
Proof.
  intros Hb Hr Hvr.
  destruct (bld_rev _ _ Hb r Hr Hvr) as (i & Hi & Hrev).
  destruct (lookup_lt_is_Some_2 lines i Hi) as [[[a b] c] Hline].
  exists i, a, b, c. split; [done|].
  destruct (bld_fwd _ _ Hb i a b c Hline) as [HE|(r' & _ & _ & HE & HR)].
  - by rewrite HE in Hrev.
  - rewrite HE in Hrev. simpl in Hrev. injection Hrev as ->. done.
Qed.

Lemma addReverseEdge_building lines h e :
  building lines h → valid h e →
  ∃ h', addReverseEdge h e = Done h' ∧ building lines h' ∧ extends h h' ∧
        is_Some (reverseEdge (edge_of h' e)).
Proof.
  intros Hb He.
  assert (Hskip : is_Some (reverseEdge (edge_of h e)) →
    ∃ h', addReverseEdge h e = Done h' ∧ building lines h' ∧ extends h h' ∧
          is_Some (reverseEdge (edge_of h' e))).
  { intros Hs. exists h. split; [by apply addReverseEdge_paired|].
    split_and!; [done|apply extends_refl|done]. }
  destruct (decide (e < length lines)%nat) as [Hlt|Hge]; cycle 1.
  { destruct (building_paired lines h e Hb) as (i & a & b & c & _ & _ & HR); [lia|done|].
    apply Hskip. rewrite HR. simpl. eauto. }
  destruct (lookup_lt_is_Some_2 lines e Hlt) as [[[a b] c] Hline].
  destruct (bld_fwd _ _ Hb e a b c Hline) as [HE|(r & _ & _ & HE & _)]; cycle 1.
  { apply Hskip. rewrite HE. simpl. eauto. }
  destruct (addReverseEdge_new h e He) as
    (h' & Hrun & Hval & HE' & HR' & Hold & Hmk & Hdom & Hadj & Hadj' & Hnew);
    [by rewrite HE|by rewrite HE|].
  rewrite HE in HE', HR', Hadj', Hnew. simpl in HE', HR', Hadj', Hnew.
  set (L := length (arena h)) in *.
  pose proof (bld_wf _ _ Hb) as Hwf.
  assert (HnL : (length lines ≤ L)%nat).
  { destruct (decide (length lines ≤ L)%nat); [done|].
    pose proof (bld_valid _ _ Hb L ltac:(lia)) as HL. unfold valid in HL. lia. }
  assert (Hvalid_old : ∀ x, valid h x → valid h' x).
  { intros x Hx. apply Hval. unfold valid in Hx. lia. }
  assert (Hsrc : ∀ x, valid h x → source (edge_of h' x) = source (edge_of h x) ∧
                                   target (edge_of h' x) = target (edge_of h x)).
  { intros x Hx. destruct (decide (x = e)) as [->|Hne].
    - by rewrite HE', HE.
    - by rewrite Hold. }
  assert (Hb_dom : is_Some (verts h !! b)).
  { pose proof (wf_tgt h Hwf e He) as Ht. by rewrite HE in Ht. }
  assert (Ha_dom : is_Some (verts h !! a)).
  { pose proof (wf_vertex_of_source h e Hwf He) as Hs. by rewrite HE in Hs. }
  exists h'. split; [done|]. split_and!.
  - split.
    + split.
      * intros v x Hx. apply Hadj' in Hx as [[-> ->]|Hx].
        -- split; [apply Hval; lia|by rewrite HR'].
        -- destruct (wf_adj h Hwf v x Hx) as [Hvx Hsx].
           split; [by apply Hvalid_old|]. by rewrite (proj1 (Hsrc x Hvx)).
      * intros x Hx. apply Hval in Hx.
        destruct (decide (x = L)) as [->|Hne].
        -- rewrite HR'. simpl. apply Hnew; [done|].
           intros y Hy. by apply (wf_adj h Hwf b).
        -- assert (Hvx : valid h x) by (unfold valid; fold L; lia).
           rewrite (proj1 (Hsrc x Hvx)). apply Hadj. by apply (wf_src h Hwf).
      * intros x Hx. apply Hval in Hx. apply Hdom.
        destruct (decide (x = L)) as [->|Hne].
        -- by rewrite HR'.
        -- assert (Hvx : valid h x) by (unfold valid; fold L; lia).
           rewrite (proj2 (Hsrc x Hvx)). by apply (wf_tgt h Hwf).
    + intros i Hi. apply Hvalid_old. by apply (bld_valid _ _ Hb).
    + intros i a' b' c' Hi. destruct (decide (i = e)) as [Hie|Hne].
      * subst i. pose proof (eq_trans (eq_sym Hi) Hline) as Heq.
        injection Heq as -> -> ->. right.
        exists L. split; [done|]. split; [apply Hval; lia|]. split.
        -- rewrite HE'. f_equal. lia.
        -- by rewrite HR'.
      * assert (Hvi : valid h i).
        { apply (bld_valid _ _ Hb). by eapply lookup_lt_Some. }
        destruct (bld_fwd _ _ Hb i a' b' c' Hi) as [HEi|(r & Hr & Hvr & HEi & HRi)].
        -- left. by rewrite Hold.
        -- right. exists r. split; [done|]. split; [by apply Hvalid_old|]. split.
           ++ by rewrite Hold.
           ++ rewrite Hold; [done|done|lia].
    + intros r Hr Hvr. apply Hval in Hvr.
      destruct (decide (r = L)) as [->|Hne].
      * exists e. split; [done|]. by rewrite HE'.
      * assert (Hvr' : valid h r) by (unfold valid; fold L; lia).
        destruct (bld_rev _ _ Hb r Hr Hvr') as (i & Hi & Hrev).
        exists i. split; [done|].
        destruct (decide (i = e)) as [->|Hie]; [by rewrite HE in Hrev|].
        rewrite Hold; [done| |done]. by apply (bld_valid _ _ Hb).
    + intros v. rewrite Hmk. by apply (bld_marks _ _ Hb).
  - split; [done| |done|done].
    intros x Hx. destruct (decide (x = e)) as [->|Hne]; [by rewrite HE'|].
    destruct (decide (valid h x)) as [Hvx|Hvx]; [by rewrite Hold|].
    rewrite (edge_of_invalid h x Hvx) in Hx. by destruct Hx.
  - by rewrite HE'.
Qed.

Lemma addReverseEdges_edges_building lines h es :
  building lines h → (∀ e, e ∈ es → valid h e) →
  ∃ h', addReverseEdges_edges h es = Done h' ∧ building lines h' ∧ extends h h' ∧
        ∀ e, e ∈ es → is_Some (reverseEdge (edge_of h' e)).
Proof.
  revert h. induction es as [|e es IH]; intros h Hb Hes.
  - exists h. split_and!; [done|done|apply extends_refl|].
    intros e He. by apply elem_of_nil in He.
  - destruct (addReverseEdge_building lines h e Hb) as (h1 & Hrun & Hb1 & Hext1 & Hrev1).
    { apply Hes. by left. }
    destruct (IH h1 Hb1) as (h' & Hrun' & Hb' & Hext' & Hrev').
    { intros x Hx. apply (ext_valid _ _ Hext1). apply Hes. by right. }
    exists h'. simpl. rewrite Hrun. simpl. split_and!; try done.
    + by eapply extends_trans.
    + intros x Hx. apply elem_of_cons in Hx as [->|Hx]; [|by apply Hrev'].
      by apply (ext_rev _ _ Hext').
Qed.

Lemma addReverseEdges_vertices_building lines h vs :
  building lines h →
  ∃ h', addReverseEdges_vertices h vs = Done h' ∧ building lines h' ∧ extends h h' ∧
        ∀ v e, v ∈ vs → e ∈ edges (vertex_of h v) →
               is_Some (reverseEdge (edge_of h' e)).
Proof.
  revert h. induction vs as [|v vs IH]; intros h Hb.
  - exists h. split_and!; [done|done|apply extends_refl|].
    intros v e Hv. by apply elem_of_nil in Hv.
  - destruct (addReverseEdges_edges_building lines h (edges (vertex_of h v)) Hb)
      as (h1 & Hrun & Hb1 & Hext1 & Hrev1).
    { intros e He. by apply (wf_adj h (bld_wf _ _ Hb) v). }
    destruct (IH h1 Hb1) as (h' & Hrun' & Hb' & Hext' & Hrev').
    exists h'. simpl. rewrite Hrun. simpl. split_and!; try done.
    + by eapply extends_trans.
    + intros u e Hu He. apply elem_of_cons in Hu as [->|Hu].
      * apply (ext_rev _ _ Hext'). by apply Hrev1.
      * apply (Hrev' u e Hu). by apply (ext_edges _ _ Hext1).
Qed.

(** *** readGraph *)

Definition fresh_edge (l : Line) : Edge := mkEdge l.1.1 l.1.2 l.2 0 false None.

(** The heap that readGraph makes of the edge lines read so far. *)
Definition fresh_heap (lines : list Line) (h : Heap) : Prop :=
  arena h = fresh_edge <$> lines ∧ wf h ∧ ∀ v, marked h v = false.

Lemma lookup_or_new_arena v h : arena (lookup_or_new v h) = arena h.
Proof. unfold lookup_or_new. by destruct (verts h !! v). Qed.

Lemma lookup_or_new_is_Some v h : is_Some (verts (lookup_or_new v h) !! v).
Proof.
  unfold lookup_or_new. destruct (verts h !! v) eqn:Hv; simpl.
  - by rewrite Hv.
  - by rewrite lookup_insert_eq.
Qed.

Lemma lookup_or_new_mono v h u :
  is_Some (verts h !! u) → is_Some (verts (lookup_or_new v h) !! u).
Proof.
  unfold lookup_or_new. destruct (verts h !! v) eqn:Hv; simpl; [done|].
  intros Hu. destruct (decide (v = u)) as [->|Hne].
  - by rewrite lookup_insert_eq.
  - by rewrite lookup_insert_ne.
Qed.

Lemma lookup_or_new_vertex v h u :
  vertex_of (lookup_or_new v h) u = vertex_of h u ∨
  (edges (vertex_of (lookup_or_new v h) u) = [] ∧
   inPath (vertex_of (lookup_or_new v h) u) = false ∧ verts h !! u = None).
Proof.
  unfold lookup_or_new. destruct (verts h !! v) eqn:Hv; simpl; [by left|].
  unfold vertex_of. simpl. destruct (decide (v = u)) as [->|Hne].
  - right. by rewrite lookup_insert_eq.
  - left. by rewrite lookup_insert_ne.
Qed.

Lemma lookup_or_new_wf v h : wf h → wf (lookup_or_new v h).
Proof.
  intros Hwf. split.
  - intros u e He. unfold valid, edge_of. rewrite lookup_or_new_arena.
    destruct (lookup_or_new_vertex v h u) as [Heq|(Hnil & _)].
    + rewrite Heq in He. by apply (wf_adj h Hwf).
    + rewrite Hnil in He. by apply elem_of_nil in He.
  - intros e He.
    assert (He' : valid h e) by (unfold valid in *; by rewrite lookup_or_new_arena in He).
    assert (Hsrc : source (edge_of (lookup_or_new v h) e) = source (edge_of h e)).
    { unfold edge_of. by rewrite lookup_or_new_arena. }
    rewrite Hsrc.
    destruct (lookup_or_new_vertex v h (source (edge_of h e))) as [Heq|(_ & _ & Hnone)].
    + rewrite Heq. by apply (wf_src h Hwf).
    + pose proof (wf_vertex_of_source h e Hwf He') as [x Hx]. congruence.
  - intros e He.
    assert (He' : valid h e) by (unfold valid in *; by rewrite lookup_or_new_arena in He).
    assert (Htgt : target (edge_of (lookup_or_new v h) e) = target (edge_of h e)).
    { unfold edge_of. by rewrite lookup_or_new_arena. }
    rewrite Htgt. apply lookup_or_new_mono. by apply (wf_tgt h Hwf).
Qed.

Lemma lookup_or_new_marked v h :
  (∀ u, marked h u = false) → ∀ u, marked (lookup_or_new v h) u = false.
Proof.
  intros H u. unfold marked.
  destruct (lookup_or_new_vertex v h u) as [->|(_ & ? & _)]; [apply H|done].
Qed.

(** A new edge between two vertices of the heap, put into the set of its
    source. *)
Lemma wf_add_edge h x :
  wf h → is_Some (verts h !! source x) → is_Some (verts h !! target x) →
  wf (edges_insert (source x) (length (arena h)) (new_edge x h)).
Proof.
  intros Hwf Hs Ht. set (L := length (arena h)). set (h1 := new_edge x h).
  assert (Hval : ∀ e, valid (edges_insert (source x) L h1) e ↔ (e ≤ L)%nat).
  { intros e. apply valid_new_edge. }
  assert (Hedge : ∀ e, edge_of (edges_insert (source x) L h1) e = edge_of h1 e) by done.
  split.
  - intros u e He. rewrite Hval, Hedge.
    apply edges_insert_elem in He as [[-> ->]|He].
    + split; [done|]. unfold h1, L. by rewrite edge_of_new_edge_new.
    + destruct (wf_adj h Hwf u e He) as [Hv Hsrc].
      split; [unfold valid in Hv; fold L in Hv; lia|].
      unfold h1. by rewrite edge_of_new_edge_old.
  - intros e He. apply Hval in He. rewrite Hedge.
    destruct (decide (e = L)) as [->|Hne].
    + unfold h1 at 2, L at 2. rewrite edge_of_new_edge_new.
      rewrite edges_edges_insert_eq by exact Hs.
      apply set_insert_new. intros y Hy. apply EdgePtrComparator_total.
      apply (wf_adj h Hwf) in Hy as [Hy _]. unfold valid in Hy. fold L in Hy. lia.
    + assert (Hv : valid h e) by (unfold valid; fold L; lia).
      unfold h1 at 2. rewrite edge_of_new_edge_old by done.
      apply edges_insert_old. by apply (wf_src h Hwf).
  - intros e He. apply Hval in He. rewrite Hedge. apply is_Some_edges_insert.
    destruct (decide (e = L)) as [->|Hne].
    + unfold h1, L. by rewrite edge_of_new_edge_new.
    + assert (Hv : valid h e) by (unfold valid; fold L; lia).
      unfold h1. rewrite edge_of_new_edge_old by done. by apply (wf_tgt h Hwf).
Qed.

Lemma readEdge_fresh lines h l :
  fresh_heap lines h → fresh_heap (lines ++ [l]) (readEdge h l).
Proof.
  intros (Harena & Hwf & Hmk). destruct l as [[a b] c]. unfold readEdge.
  set (h2 := lookup_or_new b (lookup_or_new a h)).
  assert (Hwf2 : wf h2) by by do 2 apply lookup_or_new_wf.
  assert (Ha2 : arena h2 = arena h) by (unfold h2; by rewrite !lookup_or_new_arena).
  split_and!.
  - simpl. rewrite Ha2, Harena, fmap_app. done.
  - apply (wf_add_edge h2 (mkEdge a b c 0 false None)); simpl; try done.
    + apply lookup_or_new_mono, lookup_or_new_is_Some.
    + apply lookup_or_new_is_Some.
  - intros v. rewrite marked_edges_insert.
    change (marked h2 v = false). by do 2 apply lookup_or_new_marked.
Qed.

Lemma foldl_readEdge_fresh ls lines h :
  fresh_heap lines h → fresh_heap (lines ++ ls) (foldl readEdge h ls).
Proof.
  revert lines h. induction ls as [|l ls IH]; intros lines h Hf; simpl.
  - by rewrite app_nil_r.
  - replace (lines ++ l :: ls) with ((lines ++ [l]) ++ ls) by by rewrite <- app_assoc.
    apply IH. by apply readEdge_fresh.
Qed.

Lemma emptyHeap_fresh : fresh_heap [] emptyHeap.
Proof.
  split_and!; [done| |done]. split.
  - intros v e He. by apply elem_of_nil in He.
  - intros e He. unfold valid in He. simpl in He. lia.
  - intros e He. unfold valid in He. simpl in He. lia.
Qed.

Lemma fresh_building lines h : fresh_heap lines h → building lines h.
Proof.
  intros (Harena & Hwf & Hmk).
  assert (Hlen : length (arena h) = length lines) by by rewrite Harena, length_fmap.
  split; try done.
  - intros i Hi. unfold valid. lia.
  - intros i a b c Hi. left. unfold edge_of. rewrite Harena, list_lookup_fmap, Hi. done.
  - intros r Hr Hvr. unfold valid in Hvr. lia.
Qed.

Lemma vertices_complete (keys : list ascii) v :
  NoDup keys → v ∈ keys → v ∈ foldr (set_insert VertexPtrComparator) [] keys.
Proof.
  assert (Hsub : ∀ ks u, u ∈ foldr (set_insert VertexPtrComparator) [] ks → u ∈ ks).
  { induction ks as [|k ks IH]; simpl; intros u Hu; [done|].
    apply elem_of_set_insert in Hu as [->|Hu]; [by left|right; by apply IH]. }
  induction keys as [|k keys IH]; intros Hnd Hv; [by apply elem_of_nil in Hv|].
  apply NoDup_cons in Hnd as [Hnot Hnd]. simpl.
  apply elem_of_cons in Hv as [->|Hv].
  - apply set_insert_new. intros y Hy. apply char_lt_total.
    intros ->. by apply Hnot, Hsub.
  - apply set_insert_old. by apply IH.
Qed.

Lemma readGraph_spec inp graph h :
  readGraph inp = Done (graph, h) →
  fresh_heap (edgeLines inp) h ∧
  gsource graph = sourceName inp ∧ gtarget graph = targetName inp ∧
  is_Some (verts h !! sourceName inp) ∧ is_Some (verts h !! targetName inp) ∧
  ∀ v, is_Some (verts h !! v) → v ∈ vertices graph.
Proof.
  unfold readGraph. intros Hrun.
  pose proof (foldl_readEdge_fresh (edgeLines inp) [] emptyHeap emptyHeap_fresh) as Hf.
  simpl in Hf.
  destruct (verts (foldl readEdge emptyHeap (edgeLines inp)) !! sourceName inp)
    as [xs|] eqn:Hs; [|done].
  destruct (verts (foldl readEdge emptyHeap (edgeLines inp)) !! targetName inp)
    as [xt|] eqn:Ht; [|done].
  injection Hrun as <- <-. simpl. split_and!; try done.
  intros v [x Hx]. apply vertices_complete.
  - apply NoDup_fst_map_to_list.
  - apply list_elem_of_fmap. exists (v, x). split; [done|]. by apply elem_of_map_to_list.
Qed.

(** *** The residual graph at the start of the loop *)

Lemma excess_zero lines f v :
  (∀ i a b c, lines !! i = Some (a, b, c) → f i = 0) → excess lines f v = 0.
Proof.
  intros Hf. rewrite excess_sum.
  rewrite (sum_lines_ext _ (λ _ _, 0)); [apply sum_lines_zero|].
  intros j [[a b] c] Hj. simpl. rewrite (Hf _ _ _ _ Hj). lia.
Qed.

Lemma building_network lines h :
  building lines h →
  (∀ i, (i < length lines)%nat → is_Some (reverseEdge (edge_of h i))) →
  network lines h ∧ ∀ i a b c, lines !! i = Some (a, b, c) → flow_of h i = 0.
Proof.
  intros Hb Hall.
  assert (Hpair : ∀ i a b c, lines !! i = Some (a, b, c) →
            ∃ r, (length lines ≤ r)%nat ∧ valid h r ∧ pair_state h i a b c r 0).
  { intros i a b c Hi. destruct (bld_fwd _ _ Hb i a b c Hi) as [HE|?]; [|done].
    destruct (Hall i) as [r Hr]; [by eapply lookup_lt_Some|].
    by rewrite HE in Hr. }
  split.
  - split.
    + apply (bld_valid _ _ Hb).
    + intros i a b c Hi. destruct (Hpair i a b c Hi) as (r & Hr & Hvr & Hp).
      exists r, 0. split_and!; try done. lia.
    + apply (bld_rev _ _ Hb).
  - intros i a b c Hi. destruct (Hpair i a b c Hi) as (r & _ & _ & HE & _).
    unfold flow_of. by rewrite HE.
Qed.

(** readGraph followed by addReverseEdges: the loop starts from a residual
    network without flow. *)
Lemma residual_construction inp graph h :
  readGraph inp = Done (graph, h) →
  ∃ h0, addReverseEdges graph h = Done h0 ∧
    driver_inv (edgeLines inp) (gsource graph) (gtarget graph) h0 ∧
    building (edgeLines inp) h0 ∧ extends h h0 ∧
    (∀ i a b c, edgeLines inp !! i = Some (a, b, c) → flow_of h0 i = 0).
Proof.
  intros Hread. apply readGraph_spec in Hread as (Hfresh & Hs & Ht & Hsd & Htd & Hvs).
  pose proof (fresh_building _ _ Hfresh) as Hb.
  destruct (addReverseEdges_vertices_building (edgeLines inp) h (vertices graph) Hb)
    as (h0 & Hrun & Hb0 & Hext & Hrev).
  exists h0. split; [done|].
  destruct (building_network (edgeLines inp) h0 Hb0) as [Hnet Hzero].
  { intros i Hi. pose proof (bld_valid _ _ Hb i Hi) as Hvi.
    pose proof (bld_wf _ _ Hb) as Hwf.
    apply (Hrev (source (edge_of h i)) i).
    - apply Hvs. by apply wf_vertex_of_source.
    - by apply (wf_src h Hwf). }
  split_and!; try done. split.
  - apply (bld_wf _ _ Hb0).
  - done.
  - intros v _. apply (bld_marks _ _ Hb0).
  - intros v _ _. by apply excess_zero.
Qed.

(** ** The states of the driver loop *)

(** The heap and the value of maxFlow whenever the while loop of
    findMaxFlow tests its condition, [h0] being the heap that
    addReverseEdges has left. *)
Inductive loop_state (graph : Graph) (h0 : Heap) : Heap → Z → Prop :=
  | loop_start : loop_state graph h0 h0 0
  | loop_turn depth h maxFlow h' minCapacity :
      loop_state graph h0 h maxFlow →
      augment depth graph h = Done (h', Some minCapacity) →
      loop_state graph h0 h' (wrap_int (maxFlow + minCapacity)).

Lemma loop_state_inv lines graph h0 h m :
  int_lines lines →
  driver_inv lines (gsource graph) (gtarget graph) h0 →
  (∀ v, excess lines (flow_of h0) v = 0) →
  loop_state graph h0 h m →
  driver_inv lines (gsource graph) (gtarget graph) h ∧
  0 ≤ excess lines (flow_of h) (gsource graph) ∧
  m = wrap_int (excess lines (flow_of h) (gsource graph)).
Proof.
  intros Hint Hinv0 Hzero Hstate. induction Hstate as [|depth h m h' d _ IH Haug].
  - rewrite Hzero. done.
  - destruct IH as (Hinv & Hpos & ->).
    destruct (augment_step _ _ _ _ _ _ Hint Hinv Haug) as (Hd & Hinv' & Hex & _).
    split_and!; [done|lia|]. by rewrite wrap_int_add, Hex.
Qed.

(** The loop of findMaxFlow runs through loop states, and stops in one
    without augmenting path; the last, failed search only clears the marker
    of the source. *)
Lemma findMaxFlow_loop_states lines graph h0 depth fuel h m h' r :
  int_lines lines →
  driver_inv lines (gsource graph) (gtarget graph) h0 →
  (∀ v, excess lines (flow_of h0) v = 0) →
  loop_state graph h0 h m →
  findMaxFlow_loop depth fuel graph h m = Done (h', r) →
  ∃ h1, loop_state graph h0 h1 r ∧ h' = set_inPath (gsource graph) false h1 ∧
        ∀ p, ¬ augmenting_path h' (gsource graph) (gtarget graph) p.
Proof.
  intros Hint Hinv0 Hzero. revert h m.
  induction fuel as [|fuel IH]; intros h m Hstate Hrun; [done|].
  simpl in Hrun.
  destruct (augment depth graph h) as [[h1 step]|] eqn:Haug; [|done]. simpl in Hrun.
  destruct step as [d|].
  - apply (IH h1 (wrap_int (m + d))); [|done]. by eapply loop_turn.
  - injection Hrun as <- <-.
    destruct (loop_state_inv _ _ _ _ _ Hint Hinv0 Hzero Hstate) as (Hinv & _).
    destruct (augment_stop _ _ _ _ _ Hinv Haug) as (-> & _ & Hnone).
    exists h. done.
Qed.

(** * The claims *)

Definition ex1 : Input := mkInput "S" "T" [("S", "A", 3); ("A", "T", 2)]%char.

(** What findMaxFlow does on every input with nonnegative capacities:
    it stops, in a state without augmenting path whose flow is feasible and
    maximum, and returns the value of that flow wrapped to an [int]. *)
Lemma findMaxFlow_runs inp graph h :
  readGraph inp = Done (graph, h) →
  nonneg_lines (edgeLines inp) → int_lines (edgeLines inp) →
  ∃ fuel0 h' r,
    (∀ fuel, (fuel0 ≤ fuel)%nat → findMaxFlow fuel graph h = Done (h', r)) ∧
    driver_inv (edgeLines inp) (sourceName inp) (targetName inp) h' ∧
    (∀ p, ¬ augmenting_path h' (sourceName inp) (targetName inp) p) ∧
    0 ≤ flow_value (edgeLines inp) (sourceName inp) (flow_of h') ∧
    r = wrap_int (flow_value (edgeLines inp) (sourceName inp) (flow_of h')).
Proof.
  intros Hread Hnn Hint.
  destruct (residual_construction _ _ _ Hread) as (h0 & Hadd & Hinv0 & _ & _ & Hzero).
  apply readGraph_spec in Hread as (_ & Hs & Ht & _).
  rewrite Hs, Ht in Hinv0.
  set (lines := edgeLines inp) in *. set (s := sourceName inp) in *.
  set (k := Z.to_nat (capacity_out lines s)).
  destruct (findMaxFlow_loop_done lines graph (S (size (verts h0))) k h0 0)
    as (h' & r & Hrun & Hinv & Hnone & Hle & Hr); try done.
  - by rewrite Hs, Ht.
  - lia.
  - rewrite Hs, (excess_zero lines (flow_of h0) s Hzero). lia.
  - rewrite Hs, Ht in *. rewrite (excess_zero lines (flow_of h0) s Hzero) in Hle, Hr.
    exists (Nat.max (S (size (verts h0))) (S k)), h', r. split_and!; try done.
    + intros fuel Hfuel. unfold findMaxFlow. rewrite Hadd. simpl.
      eapply findMaxFlow_loop_mono; [| |done]; lia.
    + rewrite Hr. f_equal. unfold flow_value, excess. lia.
Qed.

Definition overflowing : Input :=
  mkInput "S" "T" [("S", "T", 2147483647); ("S", "A", 1); ("A", "T", 1)]%char.

(** C1, as stated, fails: the value is accumulated in an [int].  On three
    edges of capacities 2147483647, 1 and 1 the maximum flow is 2147483648
    and findMaxFlow returns less. *)
Lemma findMaxFlow_overflow :
  nonneg_lines (edgeLines overflowing) ∧ int_lines (edgeLines overflowing) ∧
  sourceName overflowing ≠ targetName overflowing ∧
  ∃ graph h h' r f,
    readGraph overflowing = Done (graph, h) ∧
    findMaxFlow 5 graph h = Done (h', r) ∧
    feasible_flow (edgeLines overflowing) "S" "T" f ∧
    r < flow_value (edgeLines overflowing) "S" f.
Proof.
  split_and!.
  - intros [|[|[|i]]] a b c Hi; simpl in Hi; simplify_eq; lia.
  - intros [|[|[|i]]] a b c Hi; simpl in Hi; simplify_eq;
      unfold in_int, int_min, int_max; lia.
  - done.
  - eexists _, _, _, _, (λ i, if decide (i = 0%nat) then 2147483647 else 1).
    split_and!.
    + vm_compute. reflexivity.
    + vm_compute. reflexivity.
    + split.
      * intros [|[|[|i]]] a b c Hi; simpl in Hi; simplify_eq; simpl; lia.
      * intros v Hs Ht. unfold inflow, outflow, ind. simpl.
        repeat case_decide; simplify_eq; lia.
    + vm_compute. reflexivity.
Qed.

(** C1, amended: for every input graph with nonnegative capacities and
    distinct source and target that readGraph accepts, and whose flows all
    have a value that fits an [int], findMaxFlow returns the maximum value
    of a feasible flow: the flow it leaves on the input edges is feasible
    and has the value returned, and no feasible flow has a greater value.
    On S→A of capacity 3 and A→T of capacity 2 it returns 2, with flow 2 on
    both edges. *)
Theorem findMaxFlow_maximum :
  (∀ inp graph h,
     readGraph inp = Done (graph, h) →
     nonneg_lines (edgeLines inp) → int_lines (edgeLines inp) →
     sourceName inp ≠ targetName inp →
     (∀ f, feasible_flow (edgeLines inp) (sourceName inp) (targetName inp) f →
           flow_value (edgeLines inp) (sourceName inp) f ≤ int_max) →
     ∃ fuel0 h' r,
       (∀ fuel, (fuel0 ≤ fuel)%nat → findMaxFlow fuel graph h = Done (h', r)) ∧
       feasible_flow (edgeLines inp) (sourceName inp) (targetName inp) (flow_of h') ∧
       flow_value (edgeLines inp) (sourceName inp) (flow_of h') = r ∧
       ∀ f, feasible_flow (edgeLines inp) (sourceName inp) (targetName inp) f →
            flow_value (edgeLines inp) (sourceName inp) f ≤ r) ∧
  (∃ graph h h',
     readGraph ex1 = Done (graph, h) ∧ findMaxFlow 3 graph h = Done (h', 2) ∧
     flow_of h' 0 = 2 ∧ flow_of h' 1 = 2).
Proof.
  split.
  - intros inp graph h Hread Hnn Hint Hst Hfit.
    destruct (findMaxFlow_runs inp graph h Hread Hnn Hint)
      as (fuel0 & h' & r & Hrun & Hinv & Hnone & Hpos & Hr).
    pose proof (network_feasible _ _ _ _ Hnn Hinv) as Hfeas.
    assert (Hval : r = flow_value (edgeLines inp) (sourceName inp) (flow_of h')).
    { rewrite Hr. apply wrap_int_id. specialize (Hfit _ Hfeas).
      unfold in_int, int_min. lia. }
    exists fuel0, h', r. split_and!; try done.
    intros f Hf. rewrite Hval. by eapply no_path_max_flow.
  - eexists _, _, _. split; [vm_compute; reflexivity|].
    split; [vm_compute; reflexivity|]. split; vm_compute; reflexivity.
Qed.

Lemma findMaxFlow_maximum_witness :
  ∃ graph h,
    readGraph ex1 = Done (graph, h) ∧
    ∃ fuel0 h' r,
      (∀ fuel, (fuel0 ≤ fuel)%nat → findMaxFlow fuel graph h = Done (h', r)) ∧
      feasible_flow (edgeLines ex1) (sourceName ex1) (targetName ex1) (flow_of h') ∧
      flow_value (edgeLines ex1) (sourceName ex1) (flow_of h') = r ∧
      ∀ f, feasible_flow (edgeLines ex1) (sourceName ex1) (targetName ex1) f →
           flow_value (edgeLines ex1) (sourceName ex1) f ≤ r.
Proof.
  eexists _, _. split; [vm_compute; reflexivity|].
  apply (proj1 findMaxFlow_maximum ex1).
  - vm_compute. reflexivity.
  - intros [|[|i]] a b c Hi; simpl in Hi; simplify_eq; lia.
  - intros [|[|i]] a b c Hi; simpl in Hi; simplify_eq;
      unfold in_int, int_min, int_max; lia.
  - done.
  - intros f [Hcap _]. pose proof (Hcap 0%nat _ _ _ eq_refl) as H0.
    unfold flow_value, outflow, inflow, ind, int_max. simpl.
    repeat case_decide; simplify_eq; lia.
Defined.

(** The heaps that calls of changeFlow and findPath, with any arguments,
    make of [h0]. *)
Inductive evolves (h0 : Heap) : Heap → Prop :=
  | evolves_start : evolves h0 h0
  | evolves_changeFlow h path flowChange h' :
      evolves h0 h → changeFlow h path flowChange = Done h' → evolves h0 h'
  | evolves_findPath h fuel src tgt path clearPath h' path' found :
      evolves h0 h →
      findPath fuel h src tgt path clearPath = Done (h', path', found) →
      evolves h0 h'.

Lemma evolves_network lines h0 h :
  int_lines lines → wf h0 → network lines h0 → evolves h0 h →
  wf h ∧ network lines h.
Proof.
  intros Hint Hwf0 Hnet0 Hev.
  induction Hev as [|h path d h' _ [Hwf Hnet] Hrun
                    |h fuel src tgt path cp h' path' found _ [Hwf Hnet] Hrun].
  - done.
  - unfold changeFlow in Hrun. destruct (d <? 0) eqn:Hd; [done|].
    apply Z.ltb_ge in Hd.
    destruct (changeFlow_loop_network lines _ _ _ _ Hint Hnet Hd Hrun) as (? & _ & ? & _).
    auto.
  - apply findPath_post_gen in Hrun; [|done]. unfold findPath_post in Hrun.
    set (h1 := if cp then set_inPath src true h else h) in *.
    assert (wf h1 ∧ network lines h1) as [Hwf1 Hnet1].
    { unfold h1. destruct cp; [|done].
      split; [by apply wf_set_inPath|by apply network_set_inPath]. }
    assert (Hh' : h' = h1 ∨ h' = set_inPath src false h1).
    { destruct found.
      - by destruct Hrun as (p & _ & _ & ?).
      - destruct Hrun as (_ & -> & _). by right. }
    destruct Hh' as [->| ->]; [done|].
    split; [by apply wf_set_inPath|by apply network_set_inPath].
Qed.

Lemma loop_state_evolves graph h0 h m : loop_state graph h0 h m → evolves h0 h.
Proof.
  induction 1 as [|depth h m h' d _ IH Haug]; [constructor|].
  unfold augment in Haug.
  destruct (findPath depth h (gsource graph) (gtarget graph) [] true)
    as [[[h1 path] found]|] eqn:Hfind; [|done]. simpl in Haug.
  destruct found; [|done].
  destruct (findMinCapacity h1 path) as [c|]; [|done]. simpl in Haug.
  destruct (changeFlow h1 path c) as [h2|] eqn:Hchange; [|done]. simpl in Haug.
  injection Haug as <- <-.
  eapply evolves_changeFlow; [|done]. by eapply evolves_findPath.
Qed.

Lemma fresh_capacity lines h i a b c :
  fresh_heap lines h → lines !! i = Some (a, b, c) → capacity (edge_of h i) = c.
Proof.
  intros (Harena & _) Hi. unfold edge_of. by rewrite Harena, list_lookup_fmap, Hi.
Qed.

Lemma fresh_valid lines h i :
  fresh_heap lines h → valid h i ↔ (i < length lines)%nat.
Proof. intros (Harena & _). unfold valid. by rewrite Harena, length_fmap. Qed.

(** C2: for every pair of an input edge [i] and the reverse edge [r] that
    addReverseEdges has made for it, the flows are opposite and the
    capacities add up to the capacity that [i] had before, once
    addReverseEdges is done and after every call of changeFlow (and of
    findPath) that returns, in particular whenever the driver loop tests
    its condition. *)
Theorem pair_invariant inp graph h :
  readGraph inp = Done (graph, h) → int_lines (edgeLines inp) →
  ∃ h0, addReverseEdges graph h = Done h0 ∧
    ∀ h', evolves h0 h' ∨ (∃ m, loop_state graph h0 h' m) →
      ∀ i, valid h i →
        ∃ r, reverseEdge (edge_of h' i) = Some r ∧
             reverseEdge (edge_of h' r) = Some i ∧
             isReverseEdge (edge_of h' r) = true ∧
             flow (edge_of h' i) = - flow (edge_of h' r) ∧
             capacity (edge_of h' i) + capacity (edge_of h' r) = capacity (edge_of h i).
Proof.
  intros Hread Hint.
  destruct (residual_construction _ _ _ Hread) as (h0 & Hadd & Hinv0 & _ & _ & _).
  apply readGraph_spec in Hread as (Hfresh & _).
  exists h0. split; [done|]. intros h' Hh' i Hi.
  assert (Hev : evolves h0 h').
  { destruct Hh' as [?|[m Hm]]; [done|by eapply loop_state_evolves]. }
  destruct (evolves_network _ _ _ Hint (inv_wf _ _ _ _ Hinv0)
              (inv_network _ _ _ _ Hinv0) Hev) as [_ Hnet].
  apply (fresh_valid _ _ _ Hfresh) in Hi.
  destruct (lookup_lt_is_Some_2 _ i Hi) as [[[a b] c] Hline].
  destruct (net_fwd _ _ Hnet i a b c Hline) as (r & f & _ & _ & _ & HE & HR).
  exists r. rewrite HE, HR, (fresh_capacity _ _ _ _ _ _ Hfresh Hline). simpl.
  split_and!; try done; lia.
Qed.

Lemma pair_invariant_witness :
  ∃ graph h,
    readGraph ex1 = Done (graph, h) ∧
    ∃ h0, addReverseEdges graph h = Done h0 ∧
      ∀ h', evolves h0 h' ∨ (∃ m, loop_state graph h0 h' m) →
        ∀ i, valid h i →
          ∃ r, reverseEdge (edge_of h' i) = Some r ∧
               reverseEdge (edge_of h' r) = Some i ∧
               isReverseEdge (edge_of h' r) = true ∧
               flow (edge_of h' i) = - flow (edge_of h' r) ∧
               capacity (edge_of h' i) + capacity (edge_of h' r) = capacity (edge_of h i).
Proof.
  eexists _, _. split; [vm_compute; reflexivity|].
  apply (pair_invariant ex1).
  - vm_compute. reflexivity.
  - intros [|[|i]] a b c Hi; simpl in Hi; simplify_eq;
      unfold in_int, int_min, int_max; lia.
Defined.

(** C3: findPath, called as the driver calls it on a heap whose markers
    are clear, returns; when it returns found, the path is a sequence of
    edges from the source to the target, each starting where the one before
    ends, each with capacity > 0, that meets no vertex twice; and it
    returns not found exactly when the residual graph has no such path. *)
Theorem findPath_correct h src tgt :
  wf h → clean h src →
  ∃ h' path found,
    (∀ fuel path0, (size (verts h) < fuel)%nat →
       findPath fuel h src tgt path0 true = Done (h', path, found)) ∧
    (found = true → augmenting_path h src tgt path) ∧
    (found = false ↔ ∀ p, ¬ augmenting_path h src tgt p).
Proof.
  intros Hwf Hclean.
  destruct (findPath_total (S (size (verts h))) h src tgt [] true Hwf)
    as [[[h' path] found] Hrun]; [lia|].
  exists h', path, found. split_and!.
  - intros fuel path0 Hfuel.
    apply (findPath_mono (S (size (verts h))) fuel); [lia|].
    by destruct fuel.
  - intros ->. by apply findPath_top in Hrun as [_ ?].
  - apply findPath_top in Hrun as [_ Hfound]; try done. split.
    + intros ->. by destruct Hfound as (_ & _ & ?).
    + intros Hnone. destruct found; [|done]. by destruct (Hnone path).
Qed.

Lemma findPath_correct_witness :
  ∃ graph h h0,
    readGraph ex1 = Done (graph, h) ∧ addReverseEdges graph h = Done h0 ∧
    ∃ h' path found,
      (∀ fuel path0, (size (verts h0) < fuel)%nat →
         findPath fuel h0 (gsource graph) (gtarget graph) path0 true
         = Done (h', path, found)) ∧
      (found = true → augmenting_path h0 (gsource graph) (gtarget graph) path) ∧
      (found = false ↔ ∀ p, ¬ augmenting_path h0 (gsource graph) (gtarget graph) p).
Proof.
  assert (Hread : ∃ graph h, readGraph ex1 = Done (graph, h)).
  { eexists _, _. vm_compute. reflexivity. }
  destruct Hread as (graph & h & Hread).
  destruct (residual_construction _ _ _ Hread) as (h0 & Hadd & Hinv & _).
  exists graph, h, h0. split; [exact Hread|]. split; [exact Hadd|].
  apply (findPath_correct h0 (gsource graph) (gtarget graph)).
  - exact (inv_wf _ _ _ _ Hinv).
  - exact (inv_clean _ _ _ _ Hinv).
Defined.

(** C4: in the driver loop changeFlow is called with a path that findPath
    has found and with its bottleneck, which is positive and at most the
    capacity of every edge of the path; the call then returns, that is, no
    assertion in it fails, and it drives no capacity below zero. *)
Theorem changeFlow_assertion_holds inp graph h h0 h1 m depth h2 path :
  readGraph inp = Done (graph, h) → int_lines (edgeLines inp) →
  addReverseEdges graph h = Done h0 →
  loop_state graph h0 h1 m →
  findPath depth h1 (gsource graph) (gtarget graph) [] true = Done (h2, path, true) →
  ∃ d h3,
    findMinCapacity h2 path = Done d ∧ 0 < d ∧
    (∀ e, e ∈ path → 0 < capacity (edge_of h2 e) ∧ d ≤ capacity (edge_of h2 e)) ∧
    changeFlow h2 path d = Done h3 ∧
    ∀ e, valid h2 e → 0 ≤ capacity (edge_of h2 e) → 0 ≤ capacity (edge_of h3 e).
Proof.
  intros Hread Hint Hadd Hstate Hfind.
  destruct (residual_construction _ _ _ Hread) as (h0' & Hadd' & Hinv0 & _ & _ & Hzero).
  rewrite Hadd in Hadd'. injection Hadd' as <-.
  destruct (loop_state_inv _ _ _ _ _ Hint Hinv0
              (λ v, excess_zero _ _ v Hzero) Hstate) as ([Hwf Hnet Hclean _] & _).
  apply findPath_top in Hfind as [Hh2 Hpath]; try done.
  assert (Hnet2 : network (edgeLines inp) h2)
    by (destruct Hh2 as [->| ->]; by apply network_set_inPath).
  assert (Hpath2 : augmenting_path h2 (gsource graph) (gtarget graph) path)
    by (destruct Hh2 as [->| ->]; by apply augmenting_path_set_inPath).
  destruct Hpath2 as (Hne & Hw & Hr & Hnd).
  destruct (findMinCapacity_done h2 path Hne) as [d Hmin].
  pose proof (findMinCapacity_pos _ _ _ Hmin Hr) as Hpos.
  pose proof (findMinCapacity_le _ _ _ Hmin) as Hle.
  assert (Hd0 : 0 ≤ d) by lia.
  destruct (changeFlow_loop_path (edgeLines inp) h2 path d _ _ Hint Hnet2 Hd0 Hw Hnd Hle)
    as (h3 & Hrun & _).
  destruct (changeFlow_loop_network _ _ _ _ _ Hint Hnet2 Hd0 Hrun)
    as (Hnet3 & _ & _ & Hval3).
  exists d, h3. split_and!; try done.
  - intros e He. split; [|by apply Hle].
    unfold residual in Hr. rewrite Forall_forall in Hr. by apply Hr.
  - unfold changeFlow. destruct (d <? 0) eqn:Hneg; [apply Z.ltb_lt in Hneg; lia|done].
  - intros e He Hcap.
    destruct (decide (e < length (edgeLines inp))%nat) as [Hlt|Hge].
    + destruct (lookup_lt_is_Some_2 _ e Hlt) as [[[a b] c] Hline].
      destruct (net_fwd _ _ Hnet2 e a b c Hline) as (r & f & _ & _ & Hf & HE & _).
      destruct (net_fwd _ _ Hnet3 e a b c Hline) as (r' & f' & _ & _ & Hf' & HE' & _).
      rewrite HE in Hcap. rewrite HE'. simpl in *. lia.
    + destruct (net_rev _ _ Hnet3 e) as (i & Hi & Hrev); [lia|by apply Hval3|].
      destruct (lookup_lt_is_Some_2 _ i Hi) as [[[a b] c] Hline].
      destruct (net_fwd _ _ Hnet3 i a b c Hline) as (r' & f' & _ & _ & Hf' & HE' & HR').
      rewrite HE' in Hrev. simpl in Hrev. injection Hrev as ->.
      rewrite HR'. simpl. lia.
Qed.

Lemma changeFlow_assertion_holds_witness :
  ∃ graph h h0 h2 path,
    readGraph ex1 = Done (graph, h) ∧ addReverseEdges graph h = Done h0 ∧
    findPath 3 h0 (gsource graph) (gtarget graph) [] true = Done (h2, path, true) ∧
    ∃ d h3,
      findMinCapacity h2 path = Done d ∧ 0 < d ∧
      (∀ e, e ∈ path → 0 < capacity (edge_of h2 e) ∧ d ≤ capacity (edge_of h2 e)) ∧
      changeFlow h2 path d = Done h3 ∧
      ∀ e, valid h2 e → 0 ≤ capacity (edge_of h2 e) → 0 ≤ capacity (edge_of h3 e).
Proof.
  eexists _, _, _, _, _.
  split; [vm_compute; reflexivity|].
  split; [vm_compute; reflexivity|].
  split; [vm_compute; reflexivity|].
  eapply (changeFlow_assertion_holds ex1) with (depth := 3%nat).
  - vm_compute. reflexivity.
  - intros [|[|i]] a b c Hi; simpl in Hi; simplify_eq;
      unfold in_int, int_min, int_max; lia.
  - vm_compute. reflexivity.
  - apply loop_start.
  - vm_compute. reflexivity.
Defined.

Definition negative_capacity : Input := mkInput "S" "T" [("S", "T", -5)]%char.

(** C5, as stated, fails for two kinds of edges.  On the edges S->A of
    capacity 3 and A->T of capacity 2, after the first augmentation the
    reverse edge of S->A (edge 2, which addReverseEdges has made) carries
    the flow -2.  On the single edge S->T of capacity -5, at the first test
    of the loop the edge has flow 0, above the capacity it was read with. *)
Lemma flow_bounds_fail :
  (∃ graph h h0 h1,
     readGraph ex1 = Done (graph, h) ∧ addReverseEdges graph h = Done h0 ∧
     augment 3 graph h0 = Done (h1, Some 2) ∧
     loop_state graph h0 h1 2 ∧
     valid h1 2 ∧ isReverseEdge (edge_of h1 2) = true ∧
     flow (edge_of h1 2) = -2) ∧
  (∃ graph h h0,
     readGraph negative_capacity = Done (graph, h) ∧
     addReverseEdges graph h = Done h0 ∧
     loop_state graph h0 h0 0 ∧
     valid h 0 ∧ capacity (edge_of h 0) = -5 ∧ flow (edge_of h0 0) = 0).
Proof.
  split.
  - eexists _, _, _, _.
    split; [vm_compute; reflexivity|].
    split; [vm_compute; reflexivity|].
    split; [vm_compute; reflexivity|].
    split.
    + change 2 with (wrap_int (0 + 2)).
      eapply loop_turn with (depth := 3%nat); [apply loop_start|].
      vm_compute. reflexivity.
    + split; [vm_compute; lia|]. split; vm_compute; reflexivity.
  - eexists _, _, _.
    split; [vm_compute; reflexivity|].
    split; [vm_compute; reflexivity|].
    split; [apply loop_start|].
    split; [vm_compute; lia|]. split; vm_compute; reflexivity.
Qed.

(** C5, amended: whenever the driver loop tests its condition (after
    addReverseEdges, and before and after every augmentation), every edge
    that the graph had before residual construction carries a flow between
    0 and the capacity it had then, or the flow 0 when that capacity is
    negative; every reverse edge carries the opposite of the flow of its
    input edge, a flow between minus that capacity and 0. *)
Theorem flow_bounds inp graph h h0 h1 m :
  readGraph inp = Done (graph, h) →
  int_lines (edgeLines inp) →
  addReverseEdges graph h = Done h0 →
  loop_state graph h0 h1 m →
  (∀ i, valid h i →
     0 ≤ flow (edge_of h1 i) ≤ Z.max 0 (capacity (edge_of h i))) ∧
  (∀ r, valid h1 r → ¬ valid h r →
     ∃ i, valid h i ∧ reverseEdge (edge_of h1 r) = Some i ∧
          flow (edge_of h1 r) = - flow (edge_of h1 i) ∧
          - Z.max 0 (capacity (edge_of h i)) ≤ flow (edge_of h1 r) ≤ 0).
Proof.
  intros Hread Hint Hadd Hstate.
  destruct (residual_construction _ _ _ Hread) as (h0' & Hadd' & Hinv0 & _ & _ & Hzero).
  rewrite Hadd in Hadd'. injection Hadd' as <-.
  apply readGraph_spec in Hread as (Hfresh & _).
  destruct (loop_state_inv _ _ _ _ _ Hint Hinv0
              (λ v, excess_zero _ _ v Hzero) Hstate) as ([_ Hnet _ _] & _).
  split.
  - intros i Hi. apply (fresh_valid _ _ _ Hfresh) in Hi.
    destruct (lookup_lt_is_Some_2 _ i Hi) as [[[a b] c] Hline].
    rewrite (fresh_capacity _ _ _ _ _ _ Hfresh Hline).
    pose proof (network_flow_bounds _ _ _ _ _ _ Hnet Hline) as Hb.
    unfold flow_of in Hb. lia.
  - intros r Hr Hnr. rewrite (fresh_valid _ _ _ Hfresh) in Hnr.
    destruct (net_rev _ _ Hnet r) as (i & Hi & Hrev); [lia|done|].
    destruct (lookup_lt_is_Some_2 _ i Hi) as [[[a b] c] Hline].
    destruct (net_fwd _ _ Hnet i a b c Hline) as (r' & f & _ & _ & Hf & HE & HR).
    rewrite HE in Hrev. simpl in Hrev. injection Hrev as ->.
    exists i. rewrite (fresh_capacity _ _ _ _ _ _ Hfresh Hline), HE, HR. simpl.
    split; [by apply (fresh_valid _ _ _ Hfresh)|]. split; [done|]. split; [done|lia].
Qed.

Lemma flow_bounds_witness :
  ∃ graph h h0 h1,
    readGraph ex1 = Done (graph, h) ∧ addReverseEdges graph h = Done h0 ∧
    augment 3 graph h0 = Done (h1, Some 2) ∧
    (∀ i, valid h i →
       0 ≤ flow (edge_of h1 i) ≤ Z.max 0 (capacity (edge_of h i))) ∧
    (∀ r, valid h1 r → ¬ valid h r →
       ∃ i, valid h i ∧ reverseEdge (edge_of h1 r) = Some i ∧
            flow (edge_of h1 r) = - flow (edge_of h1 i) ∧
            - Z.max 0 (capacity (edge_of h i)) ≤ flow (edge_of h1 r) ≤ 0).
Proof.
  eexists _, _, _, _.
  split; [vm_compute; reflexivity|].
  split; [vm_compute; reflexivity|].
  split; [vm_compute; reflexivity|].
  eapply (flow_bounds ex1).
  - vm_compute. reflexivity.
  - intros [|[|i]] a b c Hi; simpl in Hi; simplify_eq;
      unfold in_int, int_min, int_max; lia.
  - vm_compute. reflexivity.
  - eapply loop_turn with (depth := 3%nat); [apply loop_start|].
    vm_compute. reflexivity.
Defined.

(** C6: when findMaxFlow has returned, at every vertex other than the
    source and the target the flows of the input edges into the vertex add
    up to the same as the flows of the input edges out of it. *)
Theorem flow_conservation inp graph h fuel h' r :
  readGraph inp = Done (graph, h) → int_lines (edgeLines inp) →
  findMaxFlow fuel graph h = Done (h', r) →
  ∀ v, v ≠ sourceName inp → v ≠ targetName inp →
       inflow (edgeLines inp) (flow_of h') v = outflow (edgeLines inp) (flow_of h') v.
Proof.
  intros Hread Hint Hrun v Hvs Hvt.
  destruct (residual_construction _ _ _ Hread) as (h0 & Hadd & Hinv0 & _ & _ & Hzero).
  apply readGraph_spec in Hread as (_ & Hs & Ht & _).
  unfold findMaxFlow in Hrun. rewrite Hadd in Hrun. simpl in Hrun.
  pose proof (λ v, excess_zero _ _ v Hzero) as Hzero'.
  destruct (findMaxFlow_loop_states _ _ _ _ _ _ _ _ _ Hint Hinv0 Hzero'
              (loop_start graph h0) Hrun) as (h1 & Hstate & -> & _).
  destruct (loop_state_inv _ _ _ _ _ Hint Hinv0 Hzero' Hstate) as ([_ _ _ Hcons] & _).
  rewrite flow_of_set_inPath. rewrite Hs, Ht in Hcons.
  specialize (Hcons v Hvs Hvt). unfold excess in Hcons. lia.
Qed.

Lemma flow_conservation_witness :
  ∃ graph h h' r,
    readGraph ex1 = Done (graph, h) ∧ findMaxFlow 3 graph h = Done (h', r) ∧
    ∀ v, v ≠ sourceName ex1 → v ≠ targetName ex1 →
         inflow (edgeLines ex1) (flow_of h') v = outflow (edgeLines ex1) (flow_of h') v.
Proof.
  eexists _, _, _, _.
  split; [vm_compute; reflexivity|].
  split; [vm_compute; reflexivity|].
  eapply (flow_conservation ex1) with (fuel := 3%nat).
  - vm_compute. reflexivity.
  - intros [|[|i]] a b c Hi; simpl in Hi; simplify_eq;
      unfold in_int, int_min, int_max; lia.
  - vm_compute. reflexivity.
Defined.

(** C9: on every input with nonnegative capacities the loop of
    findMaxFlow stops: every turn that finds a path has a bottleneck of at
    least 1, by which the flow out of the source grows, and this flow never
    exceeds the total capacity of the edges that leave the source; so
    findMaxFlow returns, and returns the same for every sufficient bound. *)
Theorem findMaxFlow_terminates inp graph h :
  readGraph inp = Done (graph, h) →
  nonneg_lines (edgeLines inp) → int_lines (edgeLines inp) →
  (∃ h' r, ∀ fuel,
     (S (size (verts h) + Z.to_nat (capacity_out (edgeLines inp) (sourceName inp)))
        ≤ fuel)%nat →
     findMaxFlow fuel graph h = Done (h', r)) ∧
  ∃ h0, addReverseEdges graph h = Done h0 ∧
    ∀ h1 m depth h2 d,
      loop_state graph h0 h1 m →
      augment depth graph h1 = Done (h2, Some d) →
      0 < d ∧
      flow_value (edgeLines inp) (sourceName inp) (flow_of h2) =
        flow_value (edgeLines inp) (sourceName inp) (flow_of h1) + d ∧
      flow_value (edgeLines inp) (sourceName inp) (flow_of h2)
        ≤ capacity_out (edgeLines inp) (sourceName inp).
Proof.
  intros Hread Hnn Hint.
  destruct (residual_construction _ _ _ Hread) as (h0 & Hadd & Hinv0 & _ & Hext & Hzero).
  pose proof (λ v, excess_zero _ _ v Hzero) as Hzero'.
  pose proof Hread as Hspec.
  apply readGraph_spec in Hspec as (_ & Hs & Ht & _).
  split.
  - assert (Hsize : size (verts h0) = size (verts h)).
    { rewrite <- !size_dom. f_equal. apply set_eq. intros v.
      rewrite !elem_of_dom. apply (ext_verts _ _ Hext). }
    set (k := Z.to_nat (capacity_out (edgeLines inp) (sourceName inp))).
    destruct (findMaxFlow_loop_done (edgeLines inp) graph (S (size (verts h0))) k h0 0)
      as (h' & r & Hrun & _); try done.
    + lia.
    + rewrite Hs, Hzero'. lia.
    + exists h', r. intros fuel Hfuel. unfold findMaxFlow. rewrite Hadd. simpl.
      eapply findMaxFlow_loop_mono; [| |done]; lia.
  - exists h0. split; [done|]. intros h1 m depth h2 d Hstate Haug.
    destruct (loop_state_inv _ _ _ _ _ Hint Hinv0 Hzero' Hstate) as (Hinv & _).
    destruct (augment_step _ _ _ _ _ _ Hint Hinv Haug) as (Hd & Hinv2 & Hex & _).
    rewrite Hs in Hex. split_and!; [done|exact Hex|].
    pose proof (excess_bound _ h2 (sourceName inp) Hnn (inv_network _ _ _ _ Hinv2)).
    done.
Qed.

Lemma findMaxFlow_terminates_witness :
  ∃ graph h,
    readGraph ex1 = Done (graph, h) ∧
    (∃ h' r, ∀ fuel,
       (S (size (verts h) + Z.to_nat (capacity_out (edgeLines ex1) (sourceName ex1)))
          ≤ fuel)%nat →
       findMaxFlow fuel graph h = Done (h', r)) ∧
    ∃ h0, addReverseEdges graph h = Done h0 ∧
      ∀ h1 m depth h2 d,
        loop_state graph h0 h1 m →
        augment depth graph h1 = Done (h2, Some d) →
        0 < d ∧
        flow_value (edgeLines ex1) (sourceName ex1) (flow_of h2) =
          flow_value (edgeLines ex1) (sourceName ex1) (flow_of h1) + d ∧
        flow_value (edgeLines ex1) (sourceName ex1) (flow_of h2)
          ≤ capacity_out (edgeLines ex1) (sourceName ex1).
Proof.
  eexists _, _. split; [vm_compute; reflexivity|].
  apply (findMaxFlow_terminates ex1).
  - vm_compute. reflexivity.
  - intros [|[|i]] a b c Hi; simpl in Hi; simplify_eq; lia.
  - intros [|[|i]] a b c Hi; simpl in Hi; simplify_eq;
      unfold in_int, int_min, int_max; lia.
Defined.

Lemma addReverseEdges_edges_paired h es :
  (∀ e, e ∈ es → is_Some (reverseEdge (edge_of h e))) →
  addReverseEdges_edges h es = Done h.
Proof.
  induction es as [|e es IH]; intros Hes; simpl; [done|].
  rewrite addReverseEdge_paired by (apply Hes; by left). simpl.
  apply IH. intros x Hx. apply Hes. by right.
Qed.

Lemma addReverseEdges_vertices_paired h vs :
  (∀ v e, v ∈ vs → e ∈ edges (vertex_of h v) → is_Some (reverseEdge (edge_of h e))) →
  addReverseEdges_vertices h vs = Done h.
Proof.
  induction vs as [|v vs IH]; intros Hvs; simpl; [done|].
  rewrite addReverseEdges_edges_paired by (intros e He; apply (Hvs v); [by left|done]).
  simpl. apply IH. intros u e Hu He. apply (Hvs u); [by right|done].
Qed.

Lemma extends_size h h' : extends h h' → size (verts h') = size (verts h).
Proof.
  intros Hext. rewrite <- !size_dom. f_equal. apply set_eq. intros v.
  rewrite !elem_of_dom. apply (ext_verts _ _ Hext).
Qed.

Definition antiparallel : Input :=
  mkInput "A" "B" [("A", "B", 1); ("B", "A", 1)]%char.

(** C7, as stated, fails: an edge whose reverse direction is an input edge
    is not passed over.  With the input edges A→B and B→A, the edge A→B
    gets a new reverse edge of its own, and so does B→A: four edges in
    all. *)
Lemma addReverseEdges_antiparallel :
  ∃ graph h h0,
    readGraph antiparallel = Done (graph, h) ∧
    source (edge_of h 0) = "A"%char ∧ target (edge_of h 0) = "B"%char ∧
    source (edge_of h 1) = "B"%char ∧ target (edge_of h 1) = "A"%char ∧
    addReverseEdge h 0 ≠ Done h ∧
    addReverseEdges graph h = Done h0 ∧
    length (arena h0) = 4%nat ∧
    reverseEdge (edge_of h0 0) = Some 2%nat ∧ isReverseEdge (edge_of h0 2) = true ∧
    reverseEdge (edge_of h0 1) = Some 3%nat ∧ isReverseEdge (edge_of h0 3) = true.
Proof.
  eexists _, _, _. split; [vm_compute; reflexivity|].
  do 4 (split; [vm_compute; reflexivity|]).
  split; [vm_compute; congruence|].
  split; [vm_compute; reflexivity|].
  repeat split; vm_compute; reflexivity.
Qed.

(** C7, amended: addReverseEdges passes over exactly the edges whose
    reverseEdge is set.  On the graph that readGraph has built it gives
    every input edge, whether or not the input has an edge in the opposite
    direction, one new edge from its target to its source with capacity 0
    and flow 0, marked as reverse edge, linked both ways and put into the
    set of the target vertex, and makes no other edge; run a second time it
    leaves the heap as it is. *)
Theorem addReverseEdges_idempotent :
  (∀ h edge, is_Some (reverseEdge (edge_of h edge)) → addReverseEdge h edge = Done h) ∧
  (∀ inp graph h,
     readGraph inp = Done (graph, h) →
     ∃ h0, addReverseEdges graph h = Done h0 ∧
       addReverseEdges graph h0 = Done h0 ∧
       (∀ i a b c, edgeLines inp !! i = Some (a, b, c) →
          edge_of h i = mkEdge a b c 0 false None ∧
          ∃ r, ¬ valid h r ∧ valid h0 r ∧
               edge_of h0 i = mkEdge a b c 0 false (Some r) ∧
               edge_of h0 r = mkEdge b a 0 0 true (Some i) ∧
               r ∈ edges (vertex_of h0 b)) ∧
       (∀ r, valid h0 r → ¬ valid h r →
          ∃ i, valid h i ∧ reverseEdge (edge_of h0 r) = Some i ∧
               reverseEdge (edge_of h0 i) = Some r)).
Proof.
  split; [apply addReverseEdge_paired|].
  intros inp graph h Hread.
  destruct (residual_construction _ _ _ Hread) as (h0 & Hadd & Hinv0 & Hb0 & Hext & _).
  apply readGraph_spec in Hread as (Hfresh & _).
  pose proof (inv_wf _ _ _ _ Hinv0) as Hwf0.
  pose proof (inv_network _ _ _ _ Hinv0) as Hnet0.
  assert (Hpairs : ∀ i a b c, edgeLines inp !! i = Some (a, b, c) →
            ∃ r, (length (edgeLines inp) ≤ r)%nat ∧ valid h0 r ∧
                 pair_state h0 i a b c r 0).
  { intros i a b c Hi. destruct (bld_fwd _ _ Hb0 i a b c Hi) as [HE|?]; [|done].
    destruct (net_fwd _ _ Hnet0 i a b c Hi) as (r & f & _ & _ & _ & HE' & _).
    rewrite HE in HE'. done. }
  exists h0. split; [done|]. split_and!.
  - apply addReverseEdges_vertices_paired. intros v e _ He.
    apply (wf_adj h0 Hwf0) in He as [He _].
    destruct (decide (e < length (edgeLines inp))%nat) as [Hlt|Hge].
    + destruct (lookup_lt_is_Some_2 _ e Hlt) as [[[a b] c] Hline].
      destruct (Hpairs e a b c Hline) as (r & _ & _ & HE & _). rewrite HE. simpl. eauto.
    + destruct (building_paired _ h0 e Hb0) as (i & a & b & c & _ & _ & HR); [lia|done|].
      rewrite HR. simpl. eauto.
  - intros i a b c Hi. split.
    + destruct Hfresh as (Harena & _). unfold edge_of.
      by rewrite Harena, list_lookup_fmap, Hi.
    + destruct (Hpairs i a b c Hi) as (r & Hr & Hvr & HE & HR).
      exists r. rewrite (fresh_valid _ _ _ Hfresh). split_and!; [lia|done| | |].
      * rewrite HE. f_equal. lia.
      * by rewrite HR.
      * pose proof (wf_src h0 Hwf0 r Hvr) as Hin. by rewrite HR in Hin.
  - intros r Hvr Hnr. rewrite (fresh_valid _ _ _ Hfresh) in Hnr.
    destruct (building_paired _ h0 r Hb0) as (i & a & b & c & Hi & HE & HR); [lia|done|].
    exists i. rewrite HE, HR. simpl. split_and!; try done.
    apply (fresh_valid _ _ _ Hfresh). by eapply lookup_lt_Some.
Qed.

Lemma addReverseEdges_idempotent_witness :
  ∃ graph h,
    readGraph antiparallel = Done (graph, h) ∧
    ∃ h0, addReverseEdges graph h = Done h0 ∧
      addReverseEdges graph h0 = Done h0 ∧
      (∀ i a b c, edgeLines antiparallel !! i = Some (a, b, c) →
         edge_of h i = mkEdge a b c 0 false None ∧
         ∃ r, ¬ valid h r ∧ valid h0 r ∧
              edge_of h0 i = mkEdge a b c 0 false (Some r) ∧
              edge_of h0 r = mkEdge b a 0 0 true (Some i) ∧
              r ∈ edges (vertex_of h0 b)) ∧
      (∀ r, valid h0 r → ¬ valid h r →
         ∃ i, valid h i ∧ reverseEdge (edge_of h0 r) = Some i ∧
              reverseEdge (edge_of h0 i) = Some r).
Proof.
  eexists _, _. split; [vm_compute; reflexivity|].
  apply (proj2 addReverseEdges_idempotent antiparallel).
  vm_compute. reflexivity.
Defined.



Lemma readGraph_done inp :
  (∃ i a b c, edgeLines inp !! i = Some (a, b, c) ∧
              (a = sourceName inp ∨ b = sourceName inp)) →
  (∃ i a b c, edgeLines inp !! i = Some (a, b, c) ∧
              (a = targetName inp ∨ b = targetName inp)) →
  ∃ graph h, readGraph inp = Done (graph, h).
Proof.
  intros Hs Ht.
  pose proof (foldl_readEdge_fresh (edgeLines inp) [] emptyHeap emptyHeap_fresh) as Hf.
  simpl in Hf. unfold readGraph.
  set (h := foldl readEdge emptyHeap (edgeLines inp)) in *.
  assert (Hend : ∀ i a b c, edgeLines inp !! i = Some (a, b, c) →
            is_Some (verts h !! a) ∧ is_Some (verts h !! b)).
  { intros i a b c Hi. pose proof Hf as (Harena & Hwf & _).
    assert (Hv : valid h i).
    { apply (fresh_valid _ _ _ Hf). by eapply lookup_lt_Some. }
    assert (HE : edge_of h i = fresh_edge (a, b, c)).
    { unfold edge_of. by rewrite Harena, list_lookup_fmap, Hi. }
    pose proof (wf_vertex_of_source h i Hwf Hv) as H1.
    pose proof (wf_tgt h Hwf i Hv) as H2. rewrite HE in H1, H2. done. }
  assert (Hs' : is_Some (verts h !! sourceName inp)).
  { destruct Hs as (i & a & b & c & Hi & [<-|<-]); by apply (Hend i a b c). }
  assert (Ht' : is_Some (verts h !! targetName inp)).
  { destruct Ht as (i & a & b & c & Hi & [<-|<-]); by apply (Hend i a b c). }
  destruct Hs' as [xs ->], Ht' as [xt ->]. eauto.
Qed.



Definition direct_edge : Input := mkInput "S" "T" [("S", "T", 1)]%char.

(** C10 does not hold of the code: when findPath, called by the driver,
    takes an edge from the source straight to the target, it returns at
    once and the marker of the source stays set.  On the single edge S→T
    the markers are clear before the search, and after it that of S is
    set. *)
Lemma findPath_leaves_source_marked :
  ∃ graph h h0 h' path,
    readGraph direct_edge = Done (graph, h) ∧
    addReverseEdges graph h = Done h0 ∧
    marked h0 "S" = false ∧ marked h0 "T" = false ∧
    findPath 3 h0 (gsource graph) (gtarget graph) [] true = Done (h', path, true) ∧
    path = [0%nat] ∧ marked h' "S" = true ∧ marked h' "T" = false.
Proof.
  eexists _, _, _, _, _.
  split; [vm_compute; reflexivity|].
  split; [vm_compute; reflexivity|].
  split; [vm_compute; reflexivity|].
  split; [vm_compute; reflexivity|].
  split; [vm_compute; reflexivity|].
  repeat split; vm_compute; reflexivity.
Qed.

(** * Further properties of the code *)

(** ** readGraph *)

(** The label [v] is an end of some edge line. *)
Definition occurs (v : ascii) (lines : list Line) : Prop :=
  ∃ i a b c, lines !! i = Some (a, b, c) ∧ (a = v ∨ b = v).

Lemma lookup_or_new_dom v h u :
  is_Some (verts (lookup_or_new v h) !! u) → u = v ∨ is_Some (verts h !! u).
Proof.
  unfold lookup_or_new. destruct (verts h !! v) eqn:Hv; simpl; [by right|].
  destruct (decide (v = u)) as [->|Hne]; [by left|].
  rewrite lookup_insert_ne by done. by right.
Qed.

Lemma readEdge_dom h a b c u :
  is_Some (verts (readEdge h (a, b, c)) !! u) →
  u = a ∨ u = b ∨ is_Some (verts h !! u).
Proof.
  unfold readEdge. intros Hu. apply is_Some_edges_insert in Hu.
  change (is_Some (verts (lookup_or_new b (lookup_or_new a h)) !! u)) in Hu.
  apply lookup_or_new_dom in Hu as [->|Hu]; [by right; left|].
  apply lookup_or_new_dom in Hu as [->|Hu]; [by left|by right; right].
Qed.

Lemma occurs_app v lines l : occurs v lines → occurs v (lines ++ [l]).
Proof.
  intros (i & a & b & c & Hi & Hv). exists i, a, b, c. split; [|done].
  rewrite lookup_app_l; [done|]. by eapply lookup_lt_Some.
Qed.

Lemma foldl_readEdge_dom ls lines h :
  (∀ v, is_Some (verts h !! v) → occurs v lines) →
  ∀ v, is_Some (verts (foldl readEdge h ls) !! v) → occurs v (lines ++ ls).
Proof.
  revert lines h. induction ls as [|[[a b] c] ls IH]; intros lines h Hdom v Hv; simpl in *.
  - rewrite app_nil_r. by apply Hdom.
  - replace (lines ++ (a, b, c) :: ls) with ((lines ++ [(a, b, c)]) ++ ls)
      by by rewrite <- app_assoc.
    apply (IH _ (readEdge h (a, b, c))); [|done].
    intros u Hu. apply readEdge_dom in Hu as [->|[->|Hu]].
    + exists (length lines), a, b, c. split; [|by left].
      rewrite lookup_app_r by lia. by rewrite Nat.sub_diag.
    + exists (length lines), a, b, c. split; [|by right].
      rewrite lookup_app_r by lia. by rewrite Nat.sub_diag.
    + by apply occurs_app, Hdom.
Qed.

Lemma readGraph_dom inp graph h v :
  readGraph inp = Done (graph, h) →
  is_Some (verts h !! v) ↔ occurs v (edgeLines inp).
Proof.
  intros Hread. unfold readGraph in Hread.
  destruct (verts (foldl readEdge emptyHeap (edgeLines inp)) !! sourceName inp); [|done].
  destruct (verts (foldl readEdge emptyHeap (edgeLines inp)) !! targetName inp); [|done].
  injection Hread as _ <-. split.
  - apply (foldl_readEdge_dom (edgeLines inp) [] emptyHeap).
    intros u [x Hx]. unfold emptyHeap in Hx. simpl in Hx. by rewrite lookup_empty in Hx.
  - intros (i & a & b & c & Hi & Hv).
    pose proof (foldl_readEdge_fresh (edgeLines inp) [] emptyHeap emptyHeap_fresh) as Hf.
    simpl in Hf. pose proof Hf as (Harena & Hwf & _).
    set (h := foldl readEdge emptyHeap (edgeLines inp)) in *.
    assert (Hvi : valid h i).
    { apply (fresh_valid _ _ _ Hf). by eapply lookup_lt_Some. }
    assert (HE : edge_of h i = fresh_edge (a, b, c)).
    { unfold edge_of. by rewrite Harena, list_lookup_fmap, Hi. }
    pose proof (wf_vertex_of_source h i Hwf Hvi) as H1.
    pose proof (wf_tgt h Hwf i Hvi) as H2. rewrite HE in H1, H2.
    by destruct Hv as [<-|<-].
Qed.

(** readGraph returns a graph when both labels occur in an edge line, and
    throws out_of_range (from std::map::at) otherwise, in particular on an
    input without edge lines; it fails in no other way. *)
Theorem readGraph_out_of_range inp :
  (occurs (sourceName inp) (edgeLines inp) ∧ occurs (targetName inp) (edgeLines inp) →
   ∃ graph h, readGraph inp = Done (graph, h)) ∧
  (¬ (occurs (sourceName inp) (edgeLines inp) ∧ occurs (targetName inp) (edgeLines inp)) →
   readGraph inp = Fail OutOfRange) ∧
  (edgeLines inp = [] → readGraph inp = Fail OutOfRange).
Proof.
  assert (Hfail : ¬ (occurs (sourceName inp) (edgeLines inp) ∧
                     occurs (targetName inp) (edgeLines inp)) →
                  readGraph inp = Fail OutOfRange).
  { intros Hnot. destruct (readGraph inp) as [[graph h]|f] eqn:Hread.
    - exfalso. apply Hnot.
      pose proof Hread as Hspec. apply readGraph_spec in Hspec as (_ & _ & _ & Hs & Ht & _).
      split; by apply (readGraph_dom inp graph h).
    - unfold readGraph in Hread.
      destruct (verts _ !! sourceName inp); [|by injection Hread as <-].
      destruct (verts _ !! targetName inp); [done|by injection Hread as <-]. }
  split_and!.
  - intros [Hs Ht]. by apply readGraph_done.
  - done.
  - intros Hnil. apply Hfail. intros [(i & a & b & c & Hi & _) _].
    rewrite Hnil in Hi. done.
Qed.

Lemma readGraph_out_of_range_witness :
  (∃ graph h, readGraph ex1 = Done (graph, h)) ∧
  readGraph (mkInput "S" "X" [("S", "A", 3); ("A", "T", 2)]%char) = Fail OutOfRange ∧
  readGraph (mkInput "S" "T" []) = Fail OutOfRange.
Proof.
  split_and!.
  - apply (proj1 (readGraph_out_of_range ex1)). split.
    + exists 0%nat, "S"%char, "A"%char, 3. split; [reflexivity|by left].
    + exists 1%nat, "A"%char, "T"%char, 2. split; [reflexivity|by right].
  - apply (proj1 (proj2 (readGraph_out_of_range _))).
    intros [_ (i & a & b & c & Hi & Hv)].
    destruct i as [|[|i]]; simpl in Hi; simplify_eq; by destruct Hv.
  - apply (proj2 (proj2 (readGraph_out_of_range _))). reflexivity.
Defined.

Lemma set_insert_sorted {A} (lt : A → A → bool) x l :
  (∀ a b c, lt a b = true → lt b c = true → lt a c = true) →
  StronglySorted (λ a b, lt a b = true) l →
  StronglySorted (λ a b, lt a b = true) (set_insert lt x l).
Proof.
  intros Htrans. induction l as [|y l IH]; intros Hs; simpl.
  - repeat constructor.
  - apply StronglySorted_inv in Hs as [Hs Hy].
    destruct (lt x y) eqn:Hxy.
    + constructor; [by constructor|]. constructor; [done|].
      rewrite Forall_forall in Hy |- *. intros z Hz. eauto.
    + destruct (lt y x) eqn:Hyx; [|by constructor].
      constructor; [by apply IH|].
      rewrite Forall_forall in Hy |- *. intros z Hz.
      apply elem_of_set_insert in Hz as [->|Hz]; [done|by apply Hy].
Qed.

Lemma char_lt_trans a b c : char_lt a b = true → char_lt b c = true → char_lt a c = true.
Proof. unfold char_lt. rewrite !Z.ltb_lt. lia. Qed.

Lemma char_lt_irrefl a : char_lt a a = false.
Proof. unfold char_lt. apply Z.ltb_irrefl. Qed.

Lemma vertices_sound (keys : list ascii) v :
  v ∈ foldr (set_insert VertexPtrComparator) [] keys → v ∈ keys.
Proof.
  induction keys as [|k keys IH]; simpl; intros Hv; [done|].
  apply elem_of_set_insert in Hv as [->|Hv]; [by left|right; by apply IH].
Qed.

Lemma vertices_sorted (keys : list ascii) :
  StronglySorted (λ a b, VertexPtrComparator a b = true)
    (foldr (set_insert VertexPtrComparator) [] keys).
Proof.
  induction keys as [|k keys IH]; simpl; [constructor|].
  apply set_insert_sorted; [|done]. apply char_lt_trans.
Qed.

(** The vertex set of the graph that readGraph returns holds exactly the
    labels of the edge lines, each once, in ascending order of the
    comparator. *)
Theorem readGraph_vertices inp graph h :
  readGraph inp = Done (graph, h) →
  StronglySorted (λ a b, VertexPtrComparator a b = true) (vertices graph) ∧
  NoDup (vertices graph) ∧
  ∀ v, v ∈ vertices graph ↔ occurs v (edgeLines inp).
Proof.
  intros Hread.
  assert (Hvs : vertices graph =
                foldr (set_insert VertexPtrComparator) [] (map_to_list (verts h)).*1).
  { unfold readGraph in Hread.
    destruct (verts _ !! sourceName inp); [|done].
    destruct (verts _ !! targetName inp); [|done].
    by injection Hread as <- <-. }
  assert (Hsorted : StronglySorted (λ a b, VertexPtrComparator a b = true) (vertices graph)).
  { rewrite Hvs. apply vertices_sorted. }
  split_and!.
  - done.
  - clear -Hsorted. induction Hsorted as [|a l _ IH Hall]; [constructor|].
    constructor; [|done]. intros Hin. rewrite Forall_forall in Hall.
    specialize (Hall a Hin). unfold VertexPtrComparator in Hall.
    by rewrite char_lt_irrefl in Hall.
  - intros v. rewrite <- (readGraph_dom inp graph h v Hread). split.
    + rewrite Hvs. intros Hv. apply vertices_sound in Hv.
      apply list_elem_of_fmap in Hv as ([u x] & -> & Hux).
      apply elem_of_map_to_list in Hux. simpl. eauto.
    + apply readGraph_spec in Hread as (_ & _ & _ & _ & _ & Hall). apply Hall.
Qed.

(** An input with a name byte above 0x7f, which as a [char] is negative. *)
Definition high_byte : Input :=
  mkInput "S" "T"
    [("S", "233", 1); ("S", "A", 1); ("233", "T", 1); ("A", "T", 1)]%char.

Lemma readGraph_vertices_witness :
  ∃ graph h,
    readGraph high_byte = Done (graph, h) ∧
    StronglySorted (λ a b, VertexPtrComparator a b = true) (vertices graph) ∧
    NoDup (vertices graph) ∧
    ∀ v, v ∈ vertices graph ↔ occurs v (edgeLines high_byte).
Proof.
  eexists _, _. split; [vm_compute; reflexivity|].
  eapply (readGraph_vertices high_byte). vm_compute. reflexivity.
Defined.

(** On that input the vertex with the high byte comes first, and the edge
    to it is the first of the edges of S. *)
Example readGraph_high_byte :
  ∃ graph h,
    readGraph high_byte = Done (graph, h) ∧
    vertices graph = ["233"; "A"; "S"; "T"]%char ∧
    edges (vertex_of h "S") = [0; 1]%nat.
Proof.
  eexists _, _. split; [vm_compute; reflexivity|].
  split; vm_compute; reflexivity.
Qed.

(** On an input whose capacities are read as [int]s, readGraph makes one
    edge of every edge line, in the order of the lines: with the line's
    ends and capacity, without flow and without reverse edge, held by the
    set of its source vertex; the set of a vertex
    holds nothing but the edges of the lines that start at it.  Lines with
    the same two ends thus stay separate edges. *)
Theorem readGraph_edges inp graph h :
  readGraph inp = Done (graph, h) → int_lines (edgeLines inp) →
  length (arena h) = length (edgeLines inp) ∧
  (∀ i a b c, edgeLines inp !! i = Some (a, b, c) →
     edge_of h i = mkEdge a b c 0 false None ∧ in_int (capacity (edge_of h i)) ∧
     i ∈ edges (vertex_of h a)) ∧
  (∀ v e, e ∈ edges (vertex_of h v) → ∃ b c, edgeLines inp !! e = Some (v, b, c)) ∧
  (∀ v, inPath (vertex_of h v) = false).
Proof.
  intros Hread Hint. apply readGraph_spec in Hread as (Hfresh & _).
  pose proof Hfresh as (Harena & Hwf & Hmk).
  assert (HE : ∀ i a b c, edgeLines inp !! i = Some (a, b, c) →
                          edge_of h i = mkEdge a b c 0 false None).
  { intros i a b c Hi. unfold edge_of. by rewrite Harena, list_lookup_fmap, Hi. }
  split_and!.
  - by rewrite Harena, length_fmap.
  - intros i a b c Hi. split; [by apply HE|].
    split; [rewrite (HE i a b c Hi); by apply (Hint i a b c)|].
    assert (Hvi : valid h i).
    { apply (fresh_valid _ _ _ Hfresh). by eapply lookup_lt_Some. }
    pose proof (wf_src h Hwf i Hvi) as Hin. by rewrite (HE i a b c Hi) in Hin.
  - intros v e He. apply (wf_adj h Hwf) in He as [Hve Hsrc].
    apply (fresh_valid _ _ _ Hfresh) in Hve.
    destruct (lookup_lt_is_Some_2 _ e Hve) as [[[a b] c] Hline].
    rewrite (HE e a b c Hline) in Hsrc. simpl in Hsrc. subst a. eauto.
  - apply Hmk.
Qed.

Definition parallel : Input :=
  mkInput "S" "T" [("S", "T", 1); ("S", "T", 2)]%char.

Lemma readGraph_edges_witness :
  ∃ graph h,
    readGraph parallel = Done (graph, h) ∧
    length (arena h) = length (edgeLines parallel) ∧
    (∀ i a b c, edgeLines parallel !! i = Some (a, b, c) →
       edge_of h i = mkEdge a b c 0 false None ∧ in_int (capacity (edge_of h i)) ∧
       i ∈ edges (vertex_of h a)) ∧
    (∀ v e, e ∈ edges (vertex_of h v) → ∃ b c, edgeLines parallel !! e = Some (v, b, c)) ∧
    (∀ v, inPath (vertex_of h v) = false).
Proof.
  eexists _, _. split; [vm_compute; reflexivity|].
  eapply (readGraph_edges parallel).
  - vm_compute. reflexivity.
  - intros [|[|i]] a b c Hi; simpl in Hi; simplify_eq;
      unfold in_int, int_min, int_max; lia.
Defined.

(** ** findMinCapacity *)

Lemma foldl_min_attained h p init :
  foldl (λ m e, Z.min m (capacity (edge_of h e))) init p = init ∨
  ∃ e, e ∈ p ∧ foldl (λ m e, Z.min m (capacity (edge_of h e))) init p
               = capacity (edge_of h e).
Proof.
  revert init. induction p as [|x p IH]; intros init; simpl; [by left|].
  destruct (IH (Z.min init (capacity (edge_of h x)))) as [Heq|(e & He & Heq)].
  - rewrite Heq. destruct (Z.min_spec init (capacity (edge_of h x))) as [[_ ->]|[_ ->]].
    + by left.
    + right. exists x. split; [by left|done].
  - right. exists e. split; [by right|done].
Qed.

(** findMinCapacity fails its assertion on the empty path; on any other
    path it returns the capacity of one of the path's edges, and no edge of
    the path has less. *)
Theorem findMinCapacity_minimum h path :
  (path = [] → findMinCapacity h path = Fail AssertionFailed) ∧
  (path ≠ [] →
   ∃ m, findMinCapacity h path = Done m ∧
        (∀ e, e ∈ path → m ≤ capacity (edge_of h e)) ∧
        ∃ e, e ∈ path ∧ m = capacity (edge_of h e)).
Proof.
  split; [by intros ->|]. intros Hne.
  destruct (findMinCapacity_done h path Hne) as [m Hm]. exists m.
  split; [done|]. split; [by apply findMinCapacity_le|].
  destruct path as [|x p]; [done|]. unfold findMinCapacity in Hm.
  injection Hm as <-.
  destruct (foldl_min_attained h (x :: p) (capacity (edge_of h x))) as [Heq|(e & He & Heq)].
  - exists x. split; [by left|done].
  - exists e. done.
Qed.

Lemma findMinCapacity_minimum_witness :
  findMinCapacity emptyHeap [] = Fail AssertionFailed ∧
  ∃ m, findMinCapacity (mkHeap [mkEdge "S" "A" 3 0 false None;
                                mkEdge "A" "T" 2 0 false None] ∅) [0; 1]%nat = Done m ∧
       (∀ e, e ∈ [0; 1]%nat →
          m ≤ capacity (edge_of (mkHeap [mkEdge "S" "A" 3 0 false None;
                                         mkEdge "A" "T" 2 0 false None] ∅) e)) ∧
       ∃ e, e ∈ [0; 1]%nat ∧
            m = capacity (edge_of (mkHeap [mkEdge "S" "A" 3 0 false None;
                                           mkEdge "A" "T" 2 0 false None] ∅) e).
Proof.
  split.
  - apply (proj1 (findMinCapacity_minimum emptyHeap [])). reflexivity.
  - apply (proj2 (findMinCapacity_minimum _ [0; 1]%nat)). discriminate.
Defined.

(** ** findPath *)

Lemma findPath_loop_marker rec src tgt es h path h' path' :
  wf h →
  (∀ h1 w path1 r1, wf h1 → rec h1 w path1 = Done r1 → findPath_post h1 w tgt path1 r1) →
  (∀ e, e ∈ es → e ∈ edges (vertex_of h src)) →
  findPath_loop rec src tgt es h path = Done (h', path', true) →
  (h' = h ∧ ∃ e, path' = path ++ [e]) ∨
  (h' = set_inPath src false h ∧ ∃ p, path' = path ++ p ∧ (2 ≤ length p)%nat).
Proof.
  intros Hwf Hrec. induction es as [|e es IH]; intros Hes Hrun; [done|].
  simpl in Hrun.
  assert (Hes' : ∀ e0, e0 ∈ es → e0 ∈ edges (vertex_of h src)).
  { intros e0 He0. apply Hes. by right. }
  assert (Hvalid : valid h e).
  { apply (wf_adj h Hwf src). apply Hes. left. }
  destruct (negb (inPath (vertex_of h (target (edge_of h e)))) &&
            (0 <? capacity (edge_of h e))) eqn:Htest; [|by apply IH].
  apply andb_true_iff in Htest as [Hm _]. apply negb_true_iff in Hm.
  destruct (Ascii.eqb (target (edge_of h e)) tgt).
  { injection Hrun as <- <-. left. eauto. }
  set (w := target (edge_of h e)) in *.
  destruct (rec (set_inPath w true h) w (path ++ [e]))
    as [[[h2 path2] found2]|f] eqn:Hcall; simpl in Hrun; [|done].
  apply Hrec in Hcall; [|by apply wf_set_inPath]. simpl in Hcall.
  destruct found2.
  - destruct Hcall as (p2 & -> & (Hne & _) & Hh2). injection Hrun as <- <-. right.
    split.
    + f_equal. destruct Hh2 as [->| ->]; [|rewrite set_inPath_idemp];
        by apply set_inPath_restore.
    + exists (e :: p2). rewrite <- app_assoc. split; [done|].
      destruct p2; [done|]. simpl. lia.
  - destruct Hcall as (-> & -> & _).
    rewrite set_inPath_idemp, set_inPath_restore in Hrun by done.
    rewrite removelast_last in Hrun. by apply IH.
Qed.

(** What a search of the driver leaves of the inPath markers, on a heap
    whose markers are clear: the marker of every vertex but the source is
    clear again, and that of the source stays set exactly when the path
    found is a single edge from the source to the target.  The search
    changes nothing else: the edges and the edge sets are as before. *)
Theorem findPath_markers fuel h src tgt path0 h' path found :
  wf h → (∀ v, marked h v = false) →
  findPath fuel h src tgt path0 true = Done (h', path, found) →
  (∀ v, v ≠ src → marked h' v = false) ∧
  (marked h' src = true ↔ found = true ∧ length path = 1%nat) ∧
  arena h' = arena h ∧
  (∀ v, edges (vertex_of h' v) = edges (vertex_of h v)).
Proof.
  intros Hwf Hclear Hrun.
  assert (Hclean : clean h src) by (intros v _; apply Hclear).
  pose proof (findPath_top _ _ _ _ _ _ _ _ Hwf Hclean Hrun) as [Hh' Hfound].
  assert (Hother : ∀ v, v ≠ src → marked h' v = false).
  { intros v Hv. destruct Hh' as [->| ->]; by rewrite marked_set_inPath_ne. }
  assert (Hstatic : arena h' = arena h ∧
                    ∀ v, edges (vertex_of h' v) = edges (vertex_of h v)).
  { destruct Hh' as [->| ->]; (split; [done|intros v; apply edges_set_inPath]). }
  split; [done|]. split; [|done].
  assert (Hfalse : marked (set_inPath src false h) src = false).
  { destruct (verts h !! src) as [x|] eqn:Hx.
    - apply marked_set_inPath_eq. by rewrite Hx.
    - unfold marked, vertex_of, set_inPath. simpl. by rewrite lookup_alter_eq, Hx. }
  destruct found; cycle 1.
  { destruct Hfound as (_ & -> & _). rewrite Hfalse. split; [done|by intros [? _]]. }
  destruct fuel as [|fuel]; [done|]. simpl in Hrun.
  apply findPath_loop_marker in Hrun; [|by apply wf_set_inPath| |].
  - destruct Hrun as [[-> (e & ->)]|[-> (p & -> & Hlen)]].
    + split; [done|]. intros _. apply marked_set_inPath_eq.
      destruct Hfound as (_ & (Hv & Hs & _) & _). rewrite <- Hs.
      by apply wf_vertex_of_source.
    + rewrite set_inPath_idemp, Hfalse. simpl. split; [done|]. intros [_ ?]. lia.
  - intros h1 w path1 r1 Hwf1 Hcall. by eapply findPath_post_inner.
  - intros e He. by rewrite elem_of_reverse in He.
Qed.

Lemma findPath_markers_witness :
  ∃ graph h h0 h' path found,
    readGraph direct_edge = Done (graph, h) ∧ addReverseEdges graph h = Done h0 ∧
    findPath 3 h0 (gsource graph) (gtarget graph) [] true = Done (h', path, found) ∧
    (∀ v, v ≠ gsource graph → marked h' v = false) ∧
    (marked h' (gsource graph) = true ↔ found = true ∧ length path = 1%nat) ∧
    arena h' = arena h0 ∧
    (∀ v, edges (vertex_of h' v) = edges (vertex_of h0 v)).
Proof.
  assert (Hread : ∃ graph h, readGraph direct_edge = Done (graph, h)).
  { eexists _, _. vm_compute. reflexivity. }
  destruct Hread as (graph & h & Hread).
  destruct (residual_construction _ _ _ Hread) as (h0 & Hadd & Hinv & Hb & _).
  destruct (findPath_total 3 h0 (gsource graph) (gtarget graph) [] true
              (inv_wf _ _ _ _ Hinv)) as [[[h' path] found] Hfind].
  { pose proof Hread as Hr. vm_compute in Hr. injection Hr as <- <-.
    vm_compute in Hadd. injection Hadd as <-. vm_compute. lia. }
  exists graph, h, h0, h', path, found.
  split; [exact Hread|]. split; [exact Hadd|]. split; [exact Hfind|].
  apply (findPath_markers 3 h0 (gsource graph) (gtarget graph) [] h' path found).
  - exact (inv_wf _ _ _ _ Hinv).
  - exact (bld_marks _ _ Hb).
  - exact Hfind.
Defined.

(** A search from a vertex to itself finds nothing, whatever the edges. *)
Theorem findPath_same_vertex fuel h v path0 h' path found :
  wf h → clean h v →
  findPath fuel h v v path0 true = Done (h', path, found) →
  found = false ∧ path = [].
Proof.
  intros Hwf Hclean Hrun.
  apply findPath_top in Hrun as [_ Hfound]; try done.
  destruct found.
  - by apply augmenting_path_ends in Hfound.
  - by destruct Hfound as (-> & _).
Qed.

Lemma findPath_same_vertex_witness :
  ∃ graph h h0 h' path found,
    readGraph ex1 = Done (graph, h) ∧ addReverseEdges graph h = Done h0 ∧
    findPath 4 h0 "A" "A" [] true = Done (h', path, found) ∧
    found = false ∧ path = [].
Proof.
  assert (Hread : ∃ graph h, readGraph ex1 = Done (graph, h)).
  { eexists _, _. vm_compute. reflexivity. }
  destruct Hread as (graph & h & Hread).
  destruct (residual_construction _ _ _ Hread) as (h0 & Hadd & Hinv & Hb & _).
  destruct (findPath_total 4 h0 "A" "A" [] true (inv_wf _ _ _ _ Hinv))
    as [[[h' path] found] Hfind].
  { pose proof Hread as Hr. vm_compute in Hr. injection Hr as <- <-.
    vm_compute in Hadd. injection Hadd as <-. vm_compute. lia. }
  exists graph, h, h0, h', path, found.
  split; [exact Hread|]. split; [exact Hadd|]. split; [exact Hfind|].
  apply (findPath_same_vertex 4 h0 "A" [] h' path found).
  - exact (inv_wf _ _ _ _ Hinv).
  - intros u _. exact (bld_marks _ _ Hb u).
  - exact Hfind.
Defined.

(** ** changeFlow *)

(** The other edge of the pair of [e], and the way back along a path: the
    reverse edges of its edges, last first. *)
Definition partner (h : Heap) (e : nat) : nat :=
  default e (reverseEdge (edge_of h e)).

Definition undo_path (h : Heap) (path : Path) : Path :=
  reverse (partner h <$> path).

Lemma heap_ext h h' :
  verts h = verts h' → length (arena h) = length (arena h') →
  (∀ e, valid h e → edge_of h e = edge_of h' e) → h = h'.
Proof.
  destruct h as [l m], h' as [l' m']. unfold valid, edge_of. simpl.
  intros -> Hlen Hedge. f_equal. apply list_eq. intros i.
  destruct (decide (i < length l)%nat) as [Hlt|Hge].
  - specialize (Hedge i Hlt).
    destruct (lookup_lt_is_Some_2 l i Hlt) as [x Hx].
    destruct (lookup_lt_is_Some_2 l' i ltac:(lia)) as [x' Hx'].
    rewrite Hx, Hx' in Hedge |- *. simpl in Hedge. by rewrite Hedge.
  - rewrite !lookup_ge_None_2; [done|lia|lia].
Qed.

Lemma pair_state_unique h i a b c r f i' a' b' c' r' f' :
  pair_state h i a b c r f → pair_state h i' a' b' c' r' f' →
  i = i' ∨ r = r' →
  i = i' ∧ a = a' ∧ b = b' ∧ c = c' ∧ r = r' ∧ f = f'.
Proof.
  intros [HE HR] [HE' HR'] [Heq|Heq]; subst.
  - rewrite HE in HE'. injection HE' as -> -> Hc -> ->. split_and!; try done. lia.
  - rewrite HR in HR'. injection HR' as -> -> -> _ ->.
    rewrite HE in HE'. injection HE' as Hc. split_and!; try done. lia.
Qed.

Lemma changeFlow_edge_undo lines h x d h1 :
  nonneg_lines lines → int_lines lines → network lines h → 0 ≤ d →
  changeFlow_edge d h x = Done h1 →
  changeFlow_edge d h1 (partner h x) = Done h.
Proof.
  intros Hnn Hint Hnet Hd Hrun.
  pose proof (changeFlow_edge_pushed lines _ _ _ _ Hint Hnet Hd Hrun) as Hp.
  pose proof (pushed_network _ _ _ _ _ Hnet Hp) as Hnet1.
  pose proof (pushed_valid _ _ _ _ _ Hp) as Hval1.
  destruct Hp as (i & a & b & c & r & f & δ & Hline & Hr & Hvr & Hpair & Hx & Hcap &
                  Hf & Hpair1 & Hv1 & Hlen1 & Hoth1).
  assert (Hilt : (i < length lines)%nat) by by eapply lookup_lt_Some.
  pose proof (net_valid _ _ Hnet i Hilt) as Hvi.
  pose proof (Hnn _ _ _ _ Hline) as Hc.
  assert (Hf0 : 0 ≤ f ≤ c).
  { pose proof (network_flow_bounds _ _ _ _ _ _ Hnet Hline) as Hb.
    unfold flow_of in Hb. destruct Hpair as [HE _]. rewrite HE in Hb. simpl in Hb. lia. }
  set (y := partner h x).
  assert (Hy : (x = i ∧ y = r ∧ δ = d) ∨ (x = r ∧ y = i ∧ δ = - d)).
  { unfold y, partner. destruct Hpair as [HE HR].
    destruct Hx as [[-> ->]|[-> ->]]; [left|right]; [rewrite HE|rewrite HR]; done. }
  assert (Hvy : valid h1 y).
  { apply Hval1. by destruct Hy as [(_ & -> & _)|(_ & -> & _)]. }
  assert (Hcapy : d ≤ capacity (edge_of h1 y)).
  { destruct Hpair1 as [HE1 HR1].
    destruct Hy as [(_ & -> & ->)|(_ & -> & ->)]; [rewrite HR1|rewrite HE1]; simpl; lia. }
  destruct (changeFlow_edge_done lines h1 y d Hnet1 Hvy Hcapy) as [h2 Hrun2].
  rewrite Hrun2. f_equal.
  pose proof (changeFlow_edge_pushed lines _ _ _ _ Hint Hnet1 Hd Hrun2) as Hp2.
  destruct Hp2 as (i' & a' & b' & c' & r' & f' & δ' & Hline' & Hr' & _ & Hpair' & Hx' &
                   _ & _ & Hpair2 & Hv2 & Hlen2 & Hoth2).
  assert (Hilt' : (i' < length lines)%nat) by by eapply lookup_lt_Some.
  assert (Hsame : i = i' ∧ a = a' ∧ b = b' ∧ c = c' ∧ r = r' ∧ f + δ = f').
  { apply (pair_state_unique h1); try done.
    destruct Hy as [(_ & Hyr & _)|(_ & Hyi & _)]; destruct Hx' as [[Hyi' _]|[Hyr' _]];
      [lia|right; congruence|left; congruence|lia]. }
  destruct Hsame as (<- & <- & <- & <- & <- & <-).
  assert (Hback : f + δ + δ' = f).
  { destruct Hy as [(_ & Hyr & ->)|(_ & Hyi & ->)]; destruct Hx' as [[Hyi' ->]|[Hyr' ->]];
      lia. }
  rewrite Hback in Hpair2.
  apply heap_ext.
  - by rewrite Hv2, Hv1.
  - by rewrite Hlen2, Hlen1.
  - intros e He.
    destruct Hpair as [HE HR], Hpair2 as [HE2 HR2].
    destruct (decide (e = i)) as [->|Hei]; [by rewrite HE, HE2|].
    destruct (decide (e = r)) as [->|Her]; [by rewrite HR, HR2|].
    by rewrite Hoth2, Hoth1.
Qed.

Lemma changeFlow_loop_app d h p q :
  changeFlow_loop d h (p ++ q) =
  (h1 ← changeFlow_loop d h p; changeFlow_loop d h1 q).
Proof.
  revert h. induction p as [|x p IH]; intros h; simpl; [done|].
  destruct (changeFlow_edge d h x) as [h1|]; simpl; [apply IH|done].
Qed.

Lemma changeFlow_loop_undo lines h path d h' :
  nonneg_lines lines → int_lines lines → network lines h → 0 ≤ d →
  changeFlow_loop d h path = Done h' →
  changeFlow_loop d h' (undo_path h path) = Done h.
Proof.
  intros Hnn Hint Hnet Hd. revert h Hnet.
  induction path as [|x p IH]; intros h Hnet Hrun.
  - by injection Hrun as <-.
  - simpl in Hrun.
    destruct (changeFlow_edge d h x) as [h1|] eqn:Hedge; [|done]. simpl in Hrun.
    pose proof (changeFlow_edge_pushed lines _ _ _ _ Hint Hnet Hd Hedge) as Hp.
    pose proof (IH h1 (pushed_network _ _ _ _ _ Hnet Hp) Hrun) as Hundo.
    assert (Hpart : undo_path h1 p = undo_path h p).
    { unfold undo_path. f_equal. apply list_fmap_ext. intros _ e _.
      unfold partner. by destruct (pushed_static _ _ _ _ _ Hp e) as (_ & _ & _ & ->). }
    unfold undo_path. rewrite fmap_cons, reverse_cons.
    fold (undo_path h p). rewrite changeFlow_loop_app, <- Hpart, Hundo. simpl.
    rewrite (changeFlow_edge_undo lines h x d h1); done.
Qed.

(** changeFlow can be taken back: after a call that has returned, the same
    amount sent along the reverse edges of the path, last edge first,
    restores the heap as it was. *)
Theorem changeFlow_undo inp graph h h0 h1 path d h2 :
  readGraph inp = Done (graph, h) →
  nonneg_lines (edgeLines inp) → int_lines (edgeLines inp) →
  addReverseEdges graph h = Done h0 → evolves h0 h1 →
  changeFlow h1 path d = Done h2 →
  changeFlow h2 (undo_path h1 path) d = Done h1.
Proof.
  intros Hread Hnn Hint Hadd Hev Hrun.
  destruct (residual_construction _ _ _ Hread) as (h0' & Hadd' & Hinv0 & _).
  rewrite Hadd in Hadd'. injection Hadd' as <-.
  destruct (evolves_network _ _ _ Hint (inv_wf _ _ _ _ Hinv0)
              (inv_network _ _ _ _ Hinv0) Hev) as [_ Hnet].
  unfold changeFlow in *. destruct (d <? 0) eqn:Hd; [done|].
  apply Z.ltb_ge in Hd. by eapply changeFlow_loop_undo.
Qed.

Lemma changeFlow_undo_witness :
  ∃ graph h h0 h2,
    readGraph ex1 = Done (graph, h) ∧ addReverseEdges graph h = Done h0 ∧
    changeFlow h0 [0; 1]%nat 2 = Done h2 ∧
    changeFlow h2 (undo_path h0 [0; 1]%nat) 2 = Done h0.
Proof.
  eexists _, _, _, _.
  split; [vm_compute; reflexivity|].
  split; [vm_compute; reflexivity|].
  split; [vm_compute; reflexivity|].
  eapply (changeFlow_undo ex1).
  - vm_compute. reflexivity.
  - intros [|[|i]] a b c Hi; simpl in Hi; simplify_eq; lia.
  - intros [|[|i]] a b c Hi; simpl in Hi; simplify_eq;
      unfold in_int, int_min, int_max; lia.
  - vm_compute. reflexivity.
  - apply evolves_start.
  - vm_compute. reflexivity.
Defined.

(** ** The driver loop *)

Lemma changeFlow_loop_static lines h p d h' :
  int_lines lines → network lines h → 0 ≤ d →
  changeFlow_loop d h p = Done h' →
  ∀ e, source (edge_of h' e) = source (edge_of h e) ∧
       target (edge_of h' e) = target (edge_of h e) ∧
       isReverseEdge (edge_of h' e) = isReverseEdge (edge_of h e) ∧
       reverseEdge (edge_of h' e) = reverseEdge (edge_of h e).
Proof.
  intros Hint Hnet Hd. revert h Hnet. induction p as [|x p IH]; intros h Hnet Hrun e.
  - by injection Hrun as <-.
  - simpl in Hrun.
    destruct (changeFlow_edge d h x) as [h1|] eqn:Hedge; [|done]. simpl in Hrun.
    pose proof (changeFlow_edge_pushed lines _ _ _ _ Hint Hnet Hd Hedge) as Hp.
    destruct (IH h1 (pushed_network _ _ _ _ _ Hnet Hp) Hrun e) as (-> & -> & -> & ->).
    apply (pushed_static _ _ _ _ _ Hp).
Qed.

(** What no call of changeFlow or findPath changes. *)
Record same_topology (h h' : Heap) : Prop := mk_same_topology {
  topo_length : length (arena h') = length (arena h);
  topo_edges : ∀ e, source (edge_of h' e) = source (edge_of h e) ∧
                    target (edge_of h' e) = target (edge_of h e) ∧
                    isReverseEdge (edge_of h' e) = isReverseEdge (edge_of h e) ∧
                    reverseEdge (edge_of h' e) = reverseEdge (edge_of h e);
  topo_dom : dom (verts h') = dom (verts h);
  topo_sets : ∀ v, edges (vertex_of h' v) = edges (vertex_of h v) ∧
                   name (vertex_of h' v) = name (vertex_of h v)
}.

Lemma same_topology_set_inPath h v b : same_topology h (set_inPath v b h).
Proof.
  split; try done.
  - apply dom_alter_L.
  - intros u. split; [apply edges_set_inPath|].
    unfold vertex_of, set_inPath. simpl.
    destruct (decide (v = u)) as [->|Hne].
    + rewrite lookup_alter_eq. by destruct (verts h !! u).
    + by rewrite lookup_alter_ne.
Qed.

Lemma same_topology_trans h1 h2 h3 :
  same_topology h1 h2 → same_topology h2 h3 → same_topology h1 h3.
Proof.
  intros [A1 A2 A3 A4] [B1 B2 B3 B4]. split.
  - by rewrite B1.
  - intros e. destruct (A2 e) as (<- & <- & <- & <-). apply B2.
  - by rewrite B3.
  - intros v. destruct (A4 v) as (<- & <-). apply B4.
Qed.

Lemma evolves_same_topology lines h0 h1 :
  int_lines lines → wf h0 → network lines h0 → evolves h0 h1 →
  same_topology h0 h1.
Proof.
  intros Hint Hwf0 Hnet0 Hev.
  induction Hev as [|h1 path d h2 Hev IH Hrun
                   |h1 fuel src tgt path cp h2 path' found Hev IH Hrun].
  - by split.
  - destruct (evolves_network _ _ _ Hint Hwf0 Hnet0 Hev) as [Hwf1 Hnet1].
    apply (same_topology_trans _ h1); [done|].
    unfold changeFlow in Hrun. destruct (d <? 0) eqn:Hd; [done|].
    apply Z.ltb_ge in Hd.
    destruct (changeFlow_loop_network _ _ _ _ _ Hint Hnet1 Hd Hrun)
      as (_ & Hv & _ & Hval).
    split.
    + apply Nat.le_antisymm; apply Nat.nlt_ge; intros Hlt.
      * assert (Hv2 : valid h2 (length (arena h1))) by exact Hlt.
        apply Hval in Hv2. unfold valid in Hv2. lia.
      * assert (Hv1 : valid h1 (length (arena h2))) by exact Hlt.
        apply Hval in Hv1. unfold valid in Hv1. lia.
    + by eapply changeFlow_loop_static.
    + by rewrite Hv.
    + intros v. unfold vertex_of. by rewrite Hv.
  - destruct (evolves_network _ _ _ Hint Hwf0 Hnet0 Hev) as [Hwf1 Hnet1].
    apply (same_topology_trans _ h1); [done|].
    apply findPath_post_gen in Hrun; [|done]. unfold findPath_post in Hrun.
    set (hx := if cp then set_inPath src true h1 else h1) in *.
    assert (Hx : same_topology h1 hx).
    { unfold hx. destruct cp; [apply same_topology_set_inPath|by split]. }
    assert (Hh2 : h2 = hx ∨ h2 = set_inPath src false hx).
    { destruct found.
      - by destruct Hrun as (p & _ & _ & ?).
      - destruct Hrun as (_ & -> & _). by right. }
    destruct Hh2 as [->| ->]; [done|].
    apply (same_topology_trans _ hx); [done|apply same_topology_set_inPath].
Qed.

(** After residual construction the graph keeps its shape: whatever calls
    of changeFlow and findPath follow, there are the same edges with the
    same ends and reverse links, the same vertices and the same edge sets;
    and the capacity and the flow of every edge stay within the range of
    an [int], so that no update of an edge overflows (the running total of
    findMaxFlow is the only number that can). *)
Theorem residual_graph_stable inp graph h h0 h1 :
  readGraph inp = Done (graph, h) → int_lines (edgeLines inp) →
  addReverseEdges graph h = Done h0 → evolves h0 h1 →
  same_topology h0 h1 ∧
  ∀ e, valid h1 e → in_int (capacity (edge_of h1 e)) ∧ in_int (flow (edge_of h1 e)).
Proof.
  intros Hread Hint Hadd Hev.
  destruct (residual_construction _ _ _ Hread) as (h0' & Hadd' & Hinv0 & _).
  rewrite Hadd in Hadd'. injection Hadd' as <-.
  pose proof (inv_wf _ _ _ _ Hinv0) as Hwf0.
  pose proof (inv_network _ _ _ _ Hinv0) as Hnet0.
  split.
  - by apply (evolves_same_topology (edgeLines inp)).
  - intros e He.
    destruct (evolves_network _ _ _ Hint Hwf0 Hnet0 Hev) as [_ Hnet1].
    assert (Hpair : ∃ i a b c r f, edgeLines inp !! i = Some (a, b, c) ∧
              0 ≤ f ≤ Z.max 0 c ∧ pair_state h1 i a b c r f ∧ (e = i ∨ e = r)).
    { destruct (decide (e < length (edgeLines inp))%nat) as [Hlt|Hge].
      - destruct (lookup_lt_is_Some_2 _ e Hlt) as [[[a b] c] Hline].
        destruct (net_fwd _ _ Hnet1 e a b c Hline) as (r & f & _ & _ & Hf & Hp).
        exists e, a, b, c, r, f. split_and!; try done; [lia|lia|by left].
      - destruct (net_rev _ _ Hnet1 e) as (i & Hi & Hrev); [lia|done|].
        destruct (lookup_lt_is_Some_2 _ i Hi) as [[[a b] c] Hline].
        destruct (net_fwd _ _ Hnet1 i a b c Hline) as (r & f & _ & _ & Hf & HE & HR).
        rewrite HE in Hrev. simpl in Hrev. injection Hrev as ->.
        exists i, a, b, c, e, f. split_and!; try done; [lia|lia|by right]. }
    destruct Hpair as (i & a & b & c & r & f & Hline & Hf & [HE HR] & He').
    pose proof (Hint _ _ _ _ Hline) as Hc. unfold in_int, int_min, int_max in *.
    destruct He' as [->| ->]; [rewrite HE|rewrite HR]; simpl; lia.
Qed.

Lemma residual_graph_stable_witness :
  ∃ graph h h0 h1,
    readGraph ex1 = Done (graph, h) ∧ addReverseEdges graph h = Done h0 ∧
    changeFlow h0 [0; 1]%nat 2 = Done h1 ∧
    same_topology h0 h1 ∧
    ∀ e, valid h1 e → in_int (capacity (edge_of h1 e)) ∧ in_int (flow (edge_of h1 e)).
Proof.
  eexists _, _, _, _.
  split; [vm_compute; reflexivity|].
  split; [vm_compute; reflexivity|].
  split; [vm_compute; reflexivity|].
  eapply (residual_graph_stable ex1).
  - vm_compute. reflexivity.
  - intros [|[|i]] a b c Hi; simpl in Hi; simplify_eq;
      unfold in_int, int_min, int_max; lia.
  - vm_compute. reflexivity.
  - eapply evolves_changeFlow with (path := [0; 1]%nat) (flowChange := 2);
      [apply evolves_start|]. vm_compute. reflexivity.
Defined.

(** ** The flow that findMaxFlow leaves *)

Lemma excess_opposite lines s t f :
  s ≠ t → (∀ v, v ≠ s → v ≠ t → excess lines f v = 0) →
  excess lines f s = - excess lines f t.
Proof.
  intros Hst Hcons.
  rewrite <- (cut_flow_excess lines s t f (λ v, negb (Ascii.eqb v t))); try done.
  - rewrite excess_sum. unfold cut_flow.
    rewrite <- (sum_lines_scale (-1)). apply sum_lines_ext.
    intros j [[a b] c] _. simpl. unfold ind.
    destruct (Ascii.eqb_spec a t), (Ascii.eqb_spec b t);
      repeat case_decide; simplify_eq; simpl; lia.
  - destruct (Ascii.eqb_spec s t); done.
  - by rewrite Ascii.eqb_refl.
Qed.

(** What leaves the source arrives at the target: in the heap that
    findMaxFlow returns, the flow out of the source less the flow into it
    equals the flow into the target less the flow out of it. *)
Theorem flow_reaches_target inp graph h fuel h' r :
  readGraph inp = Done (graph, h) → int_lines (edgeLines inp) →
  sourceName inp ≠ targetName inp →
  findMaxFlow fuel graph h = Done (h', r) →
  outflow (edgeLines inp) (flow_of h') (sourceName inp)
    - inflow (edgeLines inp) (flow_of h') (sourceName inp) =
  inflow (edgeLines inp) (flow_of h') (targetName inp)
    - outflow (edgeLines inp) (flow_of h') (targetName inp).
Proof.
  intros Hread Hint Hst Hrun.
  destruct (residual_construction _ _ _ Hread) as (h0 & Hadd & Hinv0 & _ & _ & Hzero).
  apply readGraph_spec in Hread as (_ & Hs & Ht & _).
  unfold findMaxFlow in Hrun. rewrite Hadd in Hrun. simpl in Hrun.
  pose proof (λ v, excess_zero _ _ v Hzero) as Hzero'.
  destruct (findMaxFlow_loop_states _ _ _ _ _ _ _ _ _ Hint Hinv0 Hzero'
              (loop_start graph h0) Hrun) as (h1 & Hstate & -> & _).
  destruct (loop_state_inv _ _ _ _ _ Hint Hinv0 Hzero' Hstate) as ([_ _ _ Hcons] & _).
  rewrite flow_of_set_inPath. rewrite Hs, Ht in Hcons.
  pose proof (excess_opposite _ _ _ _ Hst Hcons) as Hopp.
  unfold excess in Hopp. lia.
Qed.

Lemma flow_reaches_target_witness :
  ∃ graph h h' r,
    readGraph ex1 = Done (graph, h) ∧ findMaxFlow 3 graph h = Done (h', r) ∧
    outflow (edgeLines ex1) (flow_of h') (sourceName ex1)
      - inflow (edgeLines ex1) (flow_of h') (sourceName ex1) =
    inflow (edgeLines ex1) (flow_of h') (targetName ex1)
      - outflow (edgeLines ex1) (flow_of h') (targetName ex1).
Proof.
  eexists _, _, _, _.
  split; [vm_compute; reflexivity|].
  split; [vm_compute; reflexivity|].
  eapply (flow_reaches_target ex1) with (fuel := 3%nat).
  - vm_compute. reflexivity.
  - intros [|[|i]] a b c Hi; simpl in Hi; simplify_eq;
      unfold in_int, int_min, int_max; lia.
  - done.
  - vm_compute. reflexivity.
Defined.

Lemma saturated_cut lines s t h :
  nonneg_lines lines → driver_inv lines s t h →
  cut_flow lines (flow_of h) (reaches h s) = cut_capacity lines (reaches h s).
Proof.
  intros Hnn [Hwf Hnet Hclean _]. unfold cut_flow, cut_capacity.
  apply sum_lines_ext. intros j [[a b] c] Hj. simpl.
  destruct (net_fwd _ _ Hnet j a b c Hj) as (r & fl & Hr & Hvr & Hfl & HE & HR).
  pose proof (Hnn _ _ _ _ Hj) as Hc.
  assert (Hj' : valid h j).
  { apply (net_valid _ _ Hnet). by eapply lookup_lt_Some. }
  unfold flow_of. rewrite HE. simpl.
  destruct (reaches h s a) eqn:Ha, (reaches h s b) eqn:Hb; simpl; try lia.
  - assert (¬ 0 < c - fl); [|lia]. intros Hpos.
    pose proof (reaches_closed h s j Hwf Hclean Hj') as Hcl.
    rewrite HE in Hcl. simpl in Hcl. specialize (Hcl Hpos Ha). congruence.
  - assert (¬ 0 < fl); [|lia]. intros Hpos.
    pose proof (reaches_closed h s r Hwf Hclean Hvr) as Hcl.
    rewrite HR in Hcl. simpl in Hcl. specialize (Hcl Hpos Hb). congruence.
Qed.

(** Maximum flow and minimum cut: when findMaxFlow has stopped, the
    vertices that the residual graph still reaches from the source form,
    with the source and without the target, a cut whose capacity is the
    value of the flow; and no set of vertices with the source and without
    the target makes a cut of less capacity. *)
Theorem max_flow_min_cut inp graph h :
  readGraph inp = Done (graph, h) →
  nonneg_lines (edgeLines inp) → int_lines (edgeLines inp) →
  sourceName inp ≠ targetName inp →
  ∃ fuel0 h' r,
    (∀ fuel, (fuel0 ≤ fuel)%nat → findMaxFlow fuel graph h = Done (h', r)) ∧
    reaches h' (sourceName inp) (sourceName inp) = true ∧
    reaches h' (sourceName inp) (targetName inp) = false ∧
    flow_value (edgeLines inp) (sourceName inp) (flow_of h') =
      cut_capacity (edgeLines inp) (reaches h' (sourceName inp)) ∧
    ∀ R : ascii → bool,
      R (sourceName inp) = true → R (targetName inp) = false →
      flow_value (edgeLines inp) (sourceName inp) (flow_of h')
        ≤ cut_capacity (edgeLines inp) R.
Proof.
  intros Hread Hnn Hint Hst.
  destruct (findMaxFlow_runs inp graph h Hread Hnn Hint)
    as (fuel0 & h' & r & Hrun & Hinv & Hnone & _ & _).
  pose proof Hinv as [Hwf Hnet Hclean Hcons].
  pose proof (network_feasible _ _ _ _ Hnn Hinv) as [Hcap _].
  assert (HRs : reaches h' (sourceName inp) (sourceName inp) = true).
  { apply reaches_spec; [done|done|by left]. }
  assert (HRt : reaches h' (sourceName inp) (targetName inp) = false).
  { destruct (reaches h' (sourceName inp) (targetName inp)) eqn:HR; [|done].
    apply reaches_spec in HR; try done.
    destruct HR as [?|[p Hp]]; [done|]. by destruct (Hnone p). }
  exists fuel0, h', r. split_and!; try done.
  - change (excess (edgeLines inp) (flow_of h') (sourceName inp) =
            cut_capacity (edgeLines inp) (reaches h' (sourceName inp))).
    rewrite <- (cut_flow_excess _ _ (targetName inp) _ _ HRs HRt Hcons).
    by eapply saturated_cut.
  - intros R HR1 HR2.
    change (excess (edgeLines inp) (flow_of h') (sourceName inp) ≤
            cut_capacity (edgeLines inp) R).
    rewrite <- (cut_flow_excess _ _ (targetName inp) _ R HR1 HR2 Hcons).
    by apply cut_flow_le.
Qed.

Lemma max_flow_min_cut_witness :
  ∃ graph h,
    readGraph ex1 = Done (graph, h) ∧
    ∃ fuel0 h' r,
      (∀ fuel, (fuel0 ≤ fuel)%nat → findMaxFlow fuel graph h = Done (h', r)) ∧
      reaches h' (sourceName ex1) (sourceName ex1) = true ∧
      reaches h' (sourceName ex1) (targetName ex1) = false ∧
      flow_value (edgeLines ex1) (sourceName ex1) (flow_of h') =
        cut_capacity (edgeLines ex1) (reaches h' (sourceName ex1)) ∧
      ∀ R : ascii → bool,
        R (sourceName ex1) = true → R (targetName ex1) = false →
        flow_value (edgeLines ex1) (sourceName ex1) (flow_of h')
          ≤ cut_capacity (edgeLines ex1) R.
Proof.
  eexists _, _. split; [vm_compute; reflexivity|].
  apply (max_flow_min_cut ex1).
  - vm_compute. reflexivity.
  - intros [|[|i]] a b c Hi; simpl in Hi; simplify_eq; lia.
  - intros [|[|i]] a b c Hi; simpl in Hi; simplify_eq;
      unfold in_int, int_min, int_max; lia.
  - done.
Defined.

(** [p] leads from [a] to [b] through edge lines of capacity > 0. *)
Fixpoint line_walk (lines : list Line) (a b : ascii) (p : list nat) : Prop :=
  match p with
  | [] => a = b
  | i :: p' => ∃ y c, lines !! i = Some (a, y, c) ∧ 0 < c ∧ line_walk lines y b p'
  end.

Lemma walk_line_walk lines h a b p :
  network lines h →
  (∀ i x y c, lines !! i = Some (x, y, c) → flow_of h i = 0) →
  walk h a b p → residual h p → line_walk lines a b p.
Proof.
  intros Hnet Hzero. revert a. induction p as [|e p IH]; intros a Hw Hr; [done|].
  simpl in Hw. destruct Hw as (He & Hs & Hw). apply Forall_cons in Hr as [Hc Hr].
  destruct (decide (e < length lines)%nat) as [Hlt|Hge].
  - destruct (lookup_lt_is_Some_2 _ e Hlt) as [[[x y] c] Hline].
    destruct (net_fwd _ _ Hnet e x y c Hline) as (r & f & _ & _ & _ & HE & _).
    pose proof (Hzero _ _ _ _ Hline) as Hf. unfold flow_of in Hf.
    rewrite HE in Hs, Hc, Hw, Hf. simpl in *. subst.
    exists y, c. split_and!; [done|lia|by apply IH].
  - exfalso. destruct (net_rev _ _ Hnet e) as (i & Hi & Hrev); [lia|done|].
    destruct (lookup_lt_is_Some_2 _ i Hi) as [[[x y] c] Hline].
    destruct (net_fwd _ _ Hnet i x y c Hline) as (r & f & _ & _ & _ & HE & HR).
    rewrite HE in Hrev. simpl in Hrev. injection Hrev as ->.
    pose proof (Hzero _ _ _ _ Hline) as Hf. unfold flow_of in Hf.
    rewrite HE in Hf. rewrite HR in Hc. simpl in *. lia.
Qed.

Lemma line_walk_reaches lines s t h a b p :
  driver_inv lines s t h →
  (∀ i x y c, lines !! i = Some (x, y, c) → flow_of h i = 0) →
  line_walk lines a b p → reaches h s a = true → reaches h s b = true.
Proof.
  intros [Hwf Hnet Hclean _] Hzero. revert a.
  induction p as [|i p IH]; intros a Hw Ha; simpl in Hw; [by subst|].
  destruct Hw as (y & c & Hline & Hc & Hw). apply (IH y Hw).
  destruct (net_fwd _ _ Hnet i a y c Hline) as (r & f & _ & _ & _ & HE & _).
  pose proof (Hzero _ _ _ _ Hline) as Hf. unfold flow_of in Hf.
  assert (Hvi : valid h i).
  { apply (net_valid _ _ Hnet). by eapply lookup_lt_Some. }
  pose proof (reaches_closed h s i Hwf Hclean Hvi) as Hcl.
  rewrite HE in Hcl, Hf. simpl in *. apply Hcl; [lia|done].
Qed.

(** When no chain of edge lines of positive capacity leads from the source
    to the target, findMaxFlow finds no path in its first search and
    returns 0, with no flow on any edge. *)
Theorem unreachable_target inp graph h :
  readGraph inp = Done (graph, h) →
  (∀ p, p ≠ [] → ¬ line_walk (edgeLines inp) (sourceName inp) (targetName inp) p) →
  ∃ h', (∀ fuel, (size (verts h) < fuel)%nat →
           findMaxFlow fuel graph h = Done (h', 0)) ∧
        ∀ i, valid h i → flow (edge_of h' i) = 0.
Proof.
  intros Hread Hnone.
  destruct (residual_construction _ _ _ Hread) as (h0 & Hadd & Hinv0 & _ & Hext & Hzero).
  apply readGraph_spec in Hread as (Hfresh & Hs & Ht & _).
  exists (set_inPath (gsource graph) false h0). split.
  - intros fuel Hfuel. unfold findMaxFlow. rewrite Hadd. simpl.
    destruct fuel as [|fuel]; [lia|].
    assert (Haug : augment (S fuel) graph h0
                   = Done (set_inPath (gsource graph) false h0, None)).
    { unfold augment.
      destruct (findPath_total (S fuel) h0 (gsource graph) (gtarget graph) [] true)
        as [[[h1 path] found] Hfind].
      - apply (inv_wf _ _ _ _ Hinv0).
      - rewrite (extends_size _ _ Hext). lia.
      - rewrite Hfind. simpl.
        apply findPath_top in Hfind as [_ Hfound];
          [|apply (inv_wf _ _ _ _ Hinv0)|apply (inv_clean _ _ _ _ Hinv0)].
        destruct found.
        + exfalso. destruct Hfound as (Hne & Hw & Hr & _).
          apply (Hnone path Hne). rewrite <- Hs, <- Ht.
          eapply walk_line_walk; [apply (inv_network _ _ _ _ Hinv0)|done..].
        + by destruct Hfound as (_ & -> & _). }
    simpl. rewrite Haug. done.
  - intros i Hi. apply (fresh_valid _ _ _ Hfresh) in Hi.
    destruct (lookup_lt_is_Some_2 _ i Hi) as [[[a b] c] Hline].
    apply (Hzero i a b c Hline).
Qed.

Definition cut_off : Input :=
  mkInput "S" "T" [("S", "A", 3); ("T", "A", 2)]%char.

Lemma unreachable_target_witness :
  ∃ graph h,
    readGraph cut_off = Done (graph, h) ∧
    ∃ h', (∀ fuel, (size (verts h) < fuel)%nat →
             findMaxFlow fuel graph h = Done (h', 0)) ∧
          ∀ i, valid h i → flow (edge_of h' i) = 0.
Proof.
  eexists _, _. split; [vm_compute; reflexivity|].
  apply (unreachable_target cut_off).
  - vm_compute. reflexivity.
  - intros p Hne Hw. destruct p as [|i p]; [done|]. simpl in Hw.
    destruct Hw as (y & c & Hi & _ & Hw).
    destruct i as [|[|i]]; simpl in Hi; simplify_eq.
    destruct p as [|j p]; simpl in Hw; [done|].
    destruct Hw as (y & c & Hj & _).
    destruct j as [|[|j]]; simpl in Hj; simplify_eq.
Defined.

(** When such a chain exists, findMaxFlow sends flow: the flow it leaves
    has a value of at least 1. *)
Theorem reachable_target inp graph h :
  readGraph inp = Done (graph, h) →
  nonneg_lines (edgeLines inp) → int_lines (edgeLines inp) →
  sourceName inp ≠ targetName inp →
  (∃ p, line_walk (edgeLines inp) (sourceName inp) (targetName inp) p) →
  ∃ fuel0 h' r,
    (∀ fuel, (fuel0 ≤ fuel)%nat → findMaxFlow fuel graph h = Done (h', r)) ∧
    1 ≤ flow_value (edgeLines inp) (sourceName inp) (flow_of h').
Proof.
  intros Hread Hnn Hint Hst [p Hp].
  destruct (findMaxFlow_runs inp graph h Hread Hnn Hint)
    as (fuel0 & h' & r & Hrun & Hinv & Hnone & _ & _).
  exists fuel0, h', r. split; [done|].
  destruct (residual_construction _ _ _ Hread) as (h0 & Hadd & Hinv0 & _ & _ & Hzero).
  apply readGraph_spec in Hread as (_ & Hs & Ht & _).
  assert (Hreach : reaches h0 (gsource graph) (gtarget graph) = true).
  { rewrite Ht. apply (line_walk_reaches _ _ _ _ (sourceName inp) _ p Hinv0 Hzero).
    - done.
    - rewrite Hs. apply reaches_spec;
        [apply (inv_wf _ _ _ _ Hinv0)| |by left].
      rewrite <- Hs. apply (inv_clean _ _ _ _ Hinv0). }
  apply reaches_spec in Hreach;
    [|apply (inv_wf _ _ _ _ Hinv0)|apply (inv_clean _ _ _ _ Hinv0)].
  destruct Hreach as [Heq|[p0 Hp0]]; [by rewrite Hs, Ht in Heq|].
  destruct (augment_total _ (S (size (verts h0))) graph h0 Hint Hinv0)
    as (h1 & step & Haug); [lia|].
  destruct step as [d|].
  - destruct (augment_step _ _ _ _ _ _ Hint Hinv0 Haug) as (Hd & Hinv1 & Hex & _).
    rewrite (excess_zero _ _ _ Hzero) in Hex. rewrite Hs, Ht in *.
    pose proof (network_feasible _ _ _ _ Hnn Hinv1) as Hfeas.
    pose proof (no_path_max_flow _ _ _ _ _ Hnn Hinv Hst Hnone Hfeas) as Hle.
    unfold flow_value in *. unfold excess in Hex. lia.
  - destruct (augment_stop _ _ _ _ _ Hinv0 Haug) as (-> & _ & Hnone0).
    destruct (Hnone0 p0). by apply augmenting_path_set_inPath.
Qed.

Lemma reachable_target_witness :
  ∃ graph h,
    readGraph ex1 = Done (graph, h) ∧
    ∃ fuel0 h' r,
      (∀ fuel, (fuel0 ≤ fuel)%nat → findMaxFlow fuel graph h = Done (h', r)) ∧
      1 ≤ flow_value (edgeLines ex1) (sourceName ex1) (flow_of h').
Proof.
  eexists _, _. split; [vm_compute; reflexivity|].
  apply (reachable_target ex1).
  - vm_compute. reflexivity.
  - intros [|[|i]] a b c Hi; simpl in Hi; simplify_eq; lia.
  - intros [|[|i]] a b c Hi; simpl in Hi; simplify_eq;
      unfold in_int, int_min, int_max; lia.
  - done.
  - exists [0; 1]%nat. simpl. exists "A"%char, 3. split_and!; [done|lia|].
    exists "T"%char, 2. split_and!; [done|lia|done].
Defined.

(** ** The edge sets and the printed result *)

Lemma EdgePtrComparator_spec h a b :
  EdgePtrComparator h a b = true ↔
  char_value (source (edge_of h a)) < char_value (source (edge_of h b)) ∨
  (char_value (source (edge_of h a)) = char_value (source (edge_of h b)) ∧
   (char_value (target (edge_of h a)) < char_value (target (edge_of h b)) ∨
    (char_value (target (edge_of h a)) = char_value (target (edge_of h b)) ∧
     (a < b)%nat))).
Proof.
  assert (Hinj : ∀ x y : ascii, x ≠ y → char_value x ≠ char_value y).
  { intros x y Hne Heq. by apply Hne, char_value_inj. }
  unfold EdgePtrComparator, char_lt.
  destruct (Ascii.eqb_spec (source (edge_of h a)) (source (edge_of h b))) as [Hs|Hs]; simpl.
  - destruct (Ascii.eqb_spec (target (edge_of h a)) (target (edge_of h b))) as [Ht|Ht]; simpl.
    + rewrite Nat.ltb_lt, Hs, Ht. lia.
    + apply Hinj in Ht. rewrite Z.ltb_lt, Hs. lia.
  - apply Hinj in Hs. rewrite Z.ltb_lt. lia.
Qed.

Lemma EdgePtrComparator_trans h a b c :
  EdgePtrComparator h a b = true → EdgePtrComparator h b c = true →
  EdgePtrComparator h a c = true.
Proof. rewrite !EdgePtrComparator_spec. lia. Qed.

Lemma EdgePtrComparator_irrefl h a : EdgePtrComparator h a a ≠ true.
Proof. rewrite EdgePtrComparator_spec. lia. Qed.

Lemma StronglySorted_impl {A} (R R' : A → A → Prop) l :
  (∀ a b, a ∈ l → b ∈ l → R a b → R' a b) →
  StronglySorted R l → StronglySorted R' l.
Proof.
  induction l as [|x l IH]; intros H Hs; [constructor|].
  apply StronglySorted_inv in Hs as [Hs Hx]. constructor.
  - apply IH; [|done]. intros a b Ha Hb. apply H; by right.
  - rewrite Forall_forall in Hx |- *. intros b Hb.
    apply H; [by left|by right|by apply Hx].
Qed.

Lemma StronglySorted_NoDup {A} (R : A → A → Prop) l :
  (∀ x, ¬ R x x) → StronglySorted R l → NoDup l.
Proof.
  intros Hirr. induction 1 as [|x l _ IH Hx]; constructor; [|done].
  rewrite Forall_forall in Hx. intros Hin. by apply (Hirr x), Hx.
Qed.

Lemma StronglySorted_filter {A} (R : A → A → Prop) (P : A → Prop)
    `{∀ x, Decision (P x)} l :
  StronglySorted R l → StronglySorted R (filter P l).
Proof.
  induction 1 as [|x l _ IH Hx]; [constructor|].
  rewrite filter_cons. case_decide; [|done]. constructor; [done|].
  rewrite Forall_forall in Hx |- *. intros y Hy.
  apply list_elem_of_filter in Hy as [_ Hy]. by apply Hx.
Qed.

(** Every edge set holds edges of the arena, in the strict order of the
    comparator. *)
Definition sorted_sets (h : Heap) : Prop :=
  ∀ v, Forall (valid h) (edges (vertex_of h v)) ∧
       StronglySorted (λ a b, EdgePtrComparator h a b = true) (edges (vertex_of h v)).

(** A vertex is stored under its name. *)
Definition named (h : Heap) : Prop := ∀ v x, verts h !! v = Some x → name x = v.

Lemma sorted_sets_step h h' :
  (∀ e, valid h e → valid h' e ∧ source (edge_of h' e) = source (edge_of h e) ∧
                    target (edge_of h' e) = target (edge_of h e)) →
  (∀ v, edges (vertex_of h' v) = edges (vertex_of h v)) →
  sorted_sets h → sorted_sets h'.
Proof.
  intros Hlab Hsets Hs v. rewrite Hsets. destruct (Hs v) as [Hval Hsorted]. split.
  - eapply Forall_impl; [done|]. intros e He. by apply Hlab.
  - eapply StronglySorted_impl; [|done]. intros a b Ha Hb.
    rewrite Forall_forall in Hval.
    destruct (Hlab a (Hval a Ha)) as (_ & Hsa & Hta).
    destruct (Hlab b (Hval b Hb)) as (_ & Hsb & Htb).
    unfold EdgePtrComparator. by rewrite Hsa, Hta, Hsb, Htb.
Qed.

Lemma sorted_sets_edges_insert h v e :
  valid h e → sorted_sets h → sorted_sets (edges_insert v e h).
Proof.
  intros He Hs u. destruct (decide (u = v)) as [->|Hne].
  - destruct (verts h !! v) as [x|] eqn:Hx.
    + rewrite edges_edges_insert_eq by by rewrite Hx.
      destruct (Hs v) as [Hval Hsorted]. split.
      * rewrite Forall_forall in Hval |- *. intros y Hy.
        apply elem_of_set_insert in Hy as [->|Hy]; [exact He|exact (Hval y Hy)].
      * apply (set_insert_sorted (EdgePtrComparator h));
          [apply EdgePtrComparator_trans|exact Hsorted].
    + unfold vertex_of, edges_insert. simpl. rewrite lookup_alter_eq, Hx. simpl.
      split; constructor.
  - rewrite vertex_of_edges_insert_ne by done. exact (Hs u).
Qed.

Lemma named_edges_insert h v e : named h → named (edges_insert v e h).
Proof.
  intros Hn u x Hx. unfold edges_insert in Hx. simpl in Hx.
  rewrite lookup_alter in Hx. case_decide.
  - subst u. apply fmap_Some in Hx as (y & Hy & ->). simpl. by apply Hn.
  - by apply Hn.
Qed.

Lemma edges_lookup_or_new h v u :
  edges (vertex_of (lookup_or_new v h) u) = edges (vertex_of h u).
Proof.
  unfold lookup_or_new. destruct (verts h !! v) eqn:Hv; [done|].
  unfold vertex_of. simpl. destruct (decide (u = v)) as [->|Hne].
  - by rewrite lookup_insert_eq, Hv.
  - by rewrite lookup_insert_ne.
Qed.

Lemma named_lookup_or_new h v : named h → named (lookup_or_new v h).
Proof.
  intros Hn u x Hx. unfold lookup_or_new in Hx.
  destruct (verts h !! v) eqn:Hv; [by apply Hn|]. simpl in Hx.
  destruct (decide (u = v)) as [->|Hne].
  - rewrite lookup_insert_eq in Hx. by injection Hx as <-.
  - rewrite lookup_insert_ne in Hx by done. by apply Hn.
Qed.

Lemma sorted_sets_lookup_or_new h v : sorted_sets h → sorted_sets (lookup_or_new v h).
Proof.
  apply sorted_sets_step.
  - intros e He. unfold valid, edge_of. by rewrite lookup_or_new_arena.
  - apply edges_lookup_or_new.
Qed.

Lemma sorted_sets_new_edge h x : sorted_sets h → sorted_sets (new_edge x h).
Proof.
  apply sorted_sets_step; [|done].
  intros e He. rewrite edge_of_new_edge_old by done. split; [|done].
  apply valid_new_edge. unfold valid in He. lia.
Qed.

Lemma readEdge_sets h l :
  sorted_sets h ∧ named h → sorted_sets (readEdge h l) ∧ named (readEdge h l).
Proof.
  intros [Hs Hn]. destruct l as [[a b] c]. unfold readEdge. split.
  - apply sorted_sets_edges_insert; [by apply valid_new_edge|].
    by apply sorted_sets_new_edge, sorted_sets_lookup_or_new, sorted_sets_lookup_or_new.
  - apply named_edges_insert.
    by apply (named_lookup_or_new _ b), named_lookup_or_new.
Qed.

Lemma foldl_readEdge_sets ls h :
  sorted_sets h ∧ named h →
  sorted_sets (foldl readEdge h ls) ∧ named (foldl readEdge h ls).
Proof.
  revert h. induction ls as [|l ls IH]; intros h H; [done|].
  simpl. by apply IH, readEdge_sets.
Qed.

Lemma readGraph_sets inp graph h :
  readGraph inp = Done (graph, h) → sorted_sets h ∧ named h.
Proof.
  unfold readGraph. intros Hread.
  destruct (verts _ !! sourceName inp) as [xs|]; [|done].
  destruct (verts _ !! targetName inp) as [xt|]; [|done].
  injection Hread as _ <-. apply foldl_readEdge_sets. split.
  - intros v. split; constructor.
  - intros v x Hx. unfold emptyHeap in Hx. simpl in Hx. by rewrite lookup_empty in Hx.
Qed.

Lemma addReverseEdge_sets h e h' :
  addReverseEdge h e = Done h' →
  sorted_sets h ∧ named h → sorted_sets h' ∧ named h'.
Proof.
  unfold addReverseEdge. intros Hrun [Hs Hn].
  destruct (isReverseEdge (edge_of h e) &&
            negb (bool_decide (is_Some (reverseEdge (edge_of h e))))); [done|].
  destruct (reverseEdge (edge_of h e)); [by injection Hrun as <-|].
  injection Hrun as <-. split; [|by apply named_edges_insert].
  apply sorted_sets_edges_insert.
  - apply valid_set_edge. by apply valid_new_edge.
  - revert Hs. apply sorted_sets_step; [|done]. intros x Hx.
    split; [apply valid_set_edge, valid_new_edge; unfold valid in Hx; lia|].
    destruct (decide (x = e)) as [->|Hne].
    + rewrite edge_of_set_edge_eq; [done|].
      apply valid_new_edge. unfold valid in Hx. lia.
    + rewrite edge_of_set_edge_ne by done. by rewrite edge_of_new_edge_old.
Qed.

Lemma addReverseEdges_edges_sets es h h' :
  addReverseEdges_edges h es = Done h' →
  sorted_sets h ∧ named h → sorted_sets h' ∧ named h'.
Proof.
  revert h. induction es as [|e es IH]; intros h Hrun H; simpl in Hrun.
  - by injection Hrun as <-.
  - destruct (addReverseEdge h e) as [h1|] eqn:He; [|done]. simpl in Hrun.
    apply (IH h1 Hrun). by apply (addReverseEdge_sets h e).
Qed.

Lemma addReverseEdges_sets graph h h' :
  addReverseEdges graph h = Done h' →
  sorted_sets h ∧ named h → sorted_sets h' ∧ named h'.
Proof.
  unfold addReverseEdges. generalize (vertices graph). intros vs. revert h.
  induction vs as [|v vs IH]; intros h Hrun H; simpl in Hrun.
  - by injection Hrun as <-.
  - destruct (addReverseEdges_edges h (edges (vertex_of h v))) as [h1|] eqn:Hv; [|done].
    simpl in Hrun. apply (IH h1 Hrun). by eapply addReverseEdges_edges_sets.
Qed.

Lemma same_topology_sets h h' :
  same_topology h h' → sorted_sets h ∧ named h → sorted_sets h' ∧ named h'.
Proof.
  intros [Hlen Hlab Hdom Hsets] [Hs Hn]. split.
  - revert Hs. apply sorted_sets_step.
    + intros e He. destruct (Hlab e) as (-> & -> & _).
      split; [|done]. unfold valid in *. by rewrite Hlen.
    + intros v. apply Hsets.
  - intros v x Hx.
    assert (Hv : v ∈ dom (verts h)).
    { rewrite <- Hdom. apply elem_of_dom. eauto. }
    apply elem_of_dom in Hv as [y Hy].
    destruct (Hsets v) as [_ Hname]. unfold vertex_of in Hname.
    rewrite Hx, Hy in Hname. simpl in Hname. rewrite Hname. by apply Hn.
Qed.

(** The edge sets are ordered sets from readGraph on: as read, once the
    reverse edges are there, and after any calls of findPath and
    changeFlow, each set holds allocated edges in the strict order of
    EdgePtrComparator, none of them twice, and every vertex is stored under
    its own name. *)
Theorem edge_sets_sorted inp graph h h0 h1 :
  readGraph inp = Done (graph, h) → int_lines (edgeLines inp) →
  addReverseEdges graph h = Done h0 → evolves h0 h1 →
  (sorted_sets h ∧ named h) ∧ (sorted_sets h1 ∧ named h1) ∧
  ∀ v, NoDup (edges (vertex_of h1 v)).
Proof.
  intros Hread Hint Hadd Hev.
  pose proof (readGraph_sets _ _ _ Hread) as Hh.
  destruct (residual_construction _ _ _ Hread) as (h0' & Hadd' & Hinv0 & _).
  rewrite Hadd in Hadd'. injection Hadd' as <-.
  assert (H1 : sorted_sets h1 ∧ named h1).
  { apply (same_topology_sets h0).
    - apply (evolves_same_topology (edgeLines inp)); [done| | |done].
      + apply (inv_wf _ _ _ _ Hinv0).
      + apply (inv_network _ _ _ _ Hinv0).
    - by apply (addReverseEdges_sets graph h). }
  split; [done|]. split; [done|].
  intros v. destruct H1 as [Hs _]. destruct (Hs v) as [_ Hsorted].
  eapply StronglySorted_NoDup; [|done]. intros x. apply EdgePtrComparator_irrefl.
Qed.

Lemma edge_sets_sorted_witness :
  ∃ graph h h0 h1,
    readGraph high_byte = Done (graph, h) ∧ addReverseEdges graph h = Done h0 ∧
    changeFlow h0 [1; 3]%nat 1 = Done h1 ∧
    (sorted_sets h ∧ named h) ∧ (sorted_sets h1 ∧ named h1) ∧
    ∀ v, NoDup (edges (vertex_of h1 v)).
Proof.
  eexists _, _, _, _.
  split; [vm_compute; reflexivity|].
  split; [vm_compute; reflexivity|].
  split; [vm_compute; reflexivity|].
  eapply (edge_sets_sorted high_byte).
  - vm_compute. reflexivity.
  - intros [|[|[|[|i]]]] a b c Hi; simpl in Hi; simplify_eq;
      unfold in_int, int_min, int_max; lia.
  - vm_compute. reflexivity.
  - eapply evolves_changeFlow with (path := [1; 3]%nat) (flowChange := 1);
      [apply evolves_start|]. vm_compute. reflexivity.
Defined.

(** ** printGraph and main *)

(** [std::endl] *)
Definition endl : string := String "010" EmptyString.

(** What a sequence of [<<] writes. *)
Definition cat (l : list string) : string := foldr String.append EmptyString l.

(** The body of printGraph's inner loop: the text written for [edge] of
    [vertex]. *)
Definition printEdge (h : Heap) (printReverseEdges printProperties : bool)
    (vertex : ascii) (edge : nat) : string :=
  let e := edge_of h edge in
  if isReverseEdge e && negb printReverseEdges then EmptyString
  else
    (String (name (vertex_of h vertex))
       (" " +:+ String (name (vertex_of h (target e)))
          ((if printProperties then
              " {capacity: " +:+ pretty (capacity e) +:+
              ", flow: " +:+ pretty (flow e) +:+
              ", isReverseEdge: " +:+ (if isReverseEdge e then "true" else "false") +:+
              "}"
            else " " +:+ pretty (flow e)) +:+ endl)))%string.

Definition printGraph (graph : Graph) (h : Heap)
    (printReverseEdges printProperties : bool) : string :=
  cat ((λ vertex,
          cat (printEdge h printReverseEdges printProperties vertex
                 <$> edges (vertex_of h vertex)))
         <$> vertices graph).

(** printPath: the assertion comes after the loop, which writes nothing for
    an empty path. *)
Definition printPath (h : Heap) (path : Path) : res string :=
  match last path with
  | None => Fail AssertionFailed
  | Some back =>
      Done (cat ((λ edge, String (name (vertex_of h (source (edge_of h edge))))
                            (String " " EmptyString)) <$> path)
            +:+ String (name (vertex_of h (target (edge_of h back)))) endl)
  end.

(** main, run without arguments ([debug] stays false): what the program
    writes to the standard output. *)
Definition main (fuel : nat) (inp : Input) : res string :=
  '(graph, h) ← readGraph inp;
  '(h', maxFlow) ← findMaxFlow fuel graph h;
  Done (pretty maxFlow +:+ endl +:+ printGraph graph h' false false).

(** The line of the result for edge line [i] with flow [f i]. *)
Definition edge_line (lines : list Line) (f : nat → Z) (i : nat) : string :=
  match lines !! i with
  | Some (a, b, _) =>
      (String a (" " +:+ String b (" " +:+ pretty (f i) +:+ endl)))%string
  | None => EmptyString
  end.

Lemma append_assoc (s1 s2 s3 : string) :
  ((s1 +:+ s2) +:+ s3 = s1 +:+ (s2 +:+ s3))%string.
Proof.
  induction s1 as [|c s1 IH]; [done|].
  change (String c ((s1 +:+ s2) +:+ s3) = String c (s1 +:+ (s2 +:+ s3))).
  by rewrite IH.
Qed.

Lemma cat_app l1 l2 : cat (l1 ++ l2) = (cat l1 +:+ cat l2)%string.
Proof.
  induction l1 as [|x l1 IH]; [done|].
  change (x +:+ cat (l1 ++ l2) = (x +:+ cat l1) +:+ cat l2)%string.
  by rewrite IH, append_assoc.
Qed.

Lemma cat_concat {A} (F : A → string) (ls : list (list A)) :
  cat ((λ l, cat (F <$> l)) <$> ls) = cat (F <$> concat ls).
Proof.
  induction ls as [|l ls IH]; simpl; [done|].
  rewrite fmap_app, cat_app. by rewrite <- IH.
Qed.

Lemma cat_filter {A} (F : A → string) (P : A → Prop) `{∀ x, Decision (P x)} l :
  cat ((λ x, if decide (P x) then F x else EmptyString) <$> l) =
  cat (F <$> filter P l).
Proof.
  induction l as [|x l IH]; [done|].
  unfold cat in *. rewrite fmap_cons, filter_cons. cbn [foldr]. rewrite IH.
  by case_decide.
Qed.

Lemma elem_of_concat_fmap {A B} (g : A → list B) vs x :
  x ∈ concat (g <$> vs) ↔ ∃ v, v ∈ vs ∧ x ∈ g v.
Proof.
  induction vs as [|v vs IH]; simpl.
  - split; [by intros ?%elem_of_nil|by intros (v & ?%elem_of_nil & _)].
  - rewrite elem_of_app, IH. split.
    + intros [Hx|(u & Hu & Hx)]; [exists v; split; [by left|done]|].
      exists u. split; [by right|done].
    + intros (u & Hu & Hx). apply elem_of_cons in Hu as [->|Hu]; [by left|].
      right. eauto.
Qed.

Lemma concat_sorted (R : nat → nat → Prop) (k : nat → ascii) (g : ascii → list nat) vs :
  StronglySorted (λ a b, VertexPtrComparator a b = true) vs →
  (∀ v e, e ∈ g v → k e = v) →
  (∀ v, StronglySorted R (g v)) →
  (∀ a b, char_lt (k a) (k b) = true → R a b) →
  StronglySorted R (concat (g <$> vs)).
Proof.
  intros Hs Hk Hg HR. induction Hs as [|v vs _ IH Hv]; simpl; [constructor|].
  apply StronglySorted_app_2; [|done|done].
  intros x1 x2 H1 H2. apply elem_of_concat_fmap in H2 as (u & Hu & H2).
  apply HR. rewrite (Hk _ _ H1), (Hk _ _ H2).
  rewrite Forall_forall in Hv. by apply Hv.
Qed.

Lemma readGraph_vertices_sorted inp graph h :
  readGraph inp = Done (graph, h) →
  StronglySorted (λ a b, VertexPtrComparator a b = true) (vertices graph).
Proof.
  unfold readGraph. intros Hread.
  destruct (verts _ !! sourceName inp) as [xs|]; [|done].
  destruct (verts _ !! targetName inp) as [xt|]; [|done].
  injection Hread as <- _. simpl. apply vertices_sorted.
Qed.

(** What the program prints: the value that findMaxFlow returns, then one
    line for every edge line of the input and none for a reverse edge, with
    the two labels of the line and the final flow of its edge.  The lines
    come in the order of EdgePtrComparator: by source label, then target
    label, both as signed [char]s, then address (in the model, order of
    allocation, which is the order of input). *)
Theorem main_output inp graph h :
  readGraph inp = Done (graph, h) →
  nonneg_lines (edgeLines inp) → int_lines (edgeLines inp) →
  ∃ fuel0 h' r order,
    (∀ fuel, (fuel0 ≤ fuel)%nat →
       findMaxFlow fuel graph h = Done (h', r) ∧
       main fuel inp =
         Done (pretty r +:+ endl +:+
               cat (edge_line (edgeLines inp) (flow_of h') <$> order))) ∧
    order ≡ₚ seq 0 (length (edgeLines inp)) ∧
    StronglySorted (λ i j, EdgePtrComparator h i j = true) order.
Proof.
  intros Hread Hnn Hint.
  destruct (findMaxFlow_runs inp graph h Hread Hnn Hint)
    as (fuel0 & h' & r & Hrun & Hinv & _).
  destruct (residual_construction _ _ _ Hread) as (h0 & Hadd & Hinv0 & _ & Hext & Hzero).
  pose proof (readGraph_sets _ _ _ Hread) as Hsets.
  pose proof (addReverseEdges_sets _ _ _ Hadd Hsets) as Hsets0.
  pose proof (readGraph_vertices_sorted _ _ _ Hread) as Hvs.
  pose proof (readGraph_spec _ _ _ Hread) as (Hfresh & _ & _ & _ & _ & Hall).
  set (lines := edgeLines inp) in *. set (n := length lines).
  assert (Htopo : same_topology h0 h').
  { pose proof (Hrun fuel0 (le_n _)) as Hr. unfold findMaxFlow in Hr.
    rewrite Hadd in Hr. simpl in Hr.
    destruct (findMaxFlow_loop_states lines graph h0 fuel0 fuel0 h0 0 h' r)
      as (h1 & Hst & -> & _); [done|done| |constructor|done|].
    { intros v. by apply excess_zero. }
    apply (same_topology_trans _ h1); [|apply same_topology_set_inPath].
    apply (evolves_same_topology lines); [done| | |by eapply loop_state_evolves].
    - apply (inv_wf _ _ _ _ Hinv0).
    - apply (inv_network _ _ _ _ Hinv0). }
  destruct (same_topology_sets _ _ Htopo Hsets0) as [Hsorted Hnamed].
  pose proof (inv_wf _ _ _ _ Hinv) as Hwf.
  pose proof (inv_network _ _ _ _ Hinv) as Hnet.
  set (sets := λ v, edges (vertex_of h' v)).
  set (order := filter (λ e, (e < n)%nat) (concat (sets <$> vertices graph))).
  exists fuel0, h', r, order.
  assert (Hfwd : ∀ i a b c, lines !! i = Some (a, b, c) →
            source (edge_of h' i) = a ∧ target (edge_of h' i) = b ∧
            isReverseEdge (edge_of h' i) = false).
  { intros i a b c Hi.
    destruct (net_fwd _ _ Hnet i a b c Hi) as (r0 & f & _ & _ & _ & HE & _).
    by rewrite HE. }
  assert (Hrev : ∀ e, valid h' e → (n ≤ e)%nat → isReverseEdge (edge_of h' e) = true).
  { intros e He Hge. destruct (net_rev _ _ Hnet e Hge He) as (i & Hi & Hr).
    destruct (lookup_lt_is_Some_2 _ i Hi) as [[[a b] c] Hline].
    destruct (net_fwd _ _ Hnet i a b c Hline) as (r0 & f & _ & _ & _ & HE & HR).
    rewrite HE in Hr. simpl in Hr. injection Hr as ->. by rewrite HR. }
  assert (Hname : ∀ v, is_Some (verts h' !! v) → name (vertex_of h' v) = v).
  { intros v [x Hx]. unfold vertex_of. rewrite Hx. simpl. by apply Hnamed. }
  assert (Hprint : printGraph graph h' false false =
                   cat (edge_line lines (flow_of h') <$> order)).
  { unfold order. rewrite <- cat_filter, <- cat_concat, <- list_fmap_compose.
    unfold printGraph. f_equal. apply Forall_fmap_ext_1, Forall_forall.
    intros v _. simpl. f_equal. apply Forall_fmap_ext_1, Forall_forall.
    intros e He. destruct (wf_adj h' Hwf v e He) as [Hve Hsrc].
    unfold printEdge. case_decide as Hlt.
    - destruct (lookup_lt_is_Some_2 lines e Hlt) as [[[a b] c] Hline].
      destruct (Hfwd e a b c Hline) as (Ha & Hb & ->). simpl.
      rewrite Hname by (rewrite <- Hsrc; by apply wf_vertex_of_source).
      rewrite Hname by by apply wf_tgt.
      unfold edge_line. rewrite Hline, Hb. rewrite <- Hsrc, Ha. reflexivity.
    - rewrite Hrev; [done|done|lia]. }
  assert (Hsorted' : StronglySorted (λ i j, EdgePtrComparator h' i j = true) order).
  { apply StronglySorted_filter.
    apply (concat_sorted _ (λ e, source (edge_of h' e))); [done| | |].
    - intros v e He. by apply (wf_adj h' Hwf v e).
    - intros v. apply Hsorted.
    - intros a b Hab. apply EdgePtrComparator_spec. left.
      unfold char_lt in Hab. by apply Z.ltb_lt in Hab. }
  split; [|split].
  - intros fuel Hfuel. split; [by apply Hrun|].
    unfold main. rewrite Hread. simpl. rewrite (Hrun fuel Hfuel). simpl.
    by rewrite Hprint.
  - apply NoDup_Permutation.
    + eapply StronglySorted_NoDup; [|exact Hsorted'].
      intros x. apply EdgePtrComparator_irrefl.
    + apply NoDup_seq.
    + intros x. rewrite elem_of_seq. unfold order. rewrite list_elem_of_filter.
      split; [intros [Hx _]; fold n; lia|]. intros [_ Hx]. simpl in Hx. fold n in Hx.
      split; [done|].
      assert (Hvx : valid h' x) by by apply (net_valid _ _ Hnet).
      apply elem_of_concat_fmap. exists (source (edge_of h' x)). split.
      * apply Hall. apply (ext_verts _ _ Hext).
        apply elem_of_dom. rewrite <- (topo_dom _ _ Htopo). apply elem_of_dom.
        by apply wf_vertex_of_source.
      * by apply (wf_src h' Hwf).
  - eapply StronglySorted_impl; [|exact Hsorted'].
    intros a b Ha Hb. unfold order in Ha, Hb.
    apply list_elem_of_filter in Ha as [Ha _]. apply list_elem_of_filter in Hb as [Hb _].
    destruct (lookup_lt_is_Some_2 lines a Ha) as [[[sa ta] ca] Hla].
    destruct (lookup_lt_is_Some_2 lines b Hb) as [[[sb tb] cb] Hlb].
    destruct (Hfwd a sa ta ca Hla) as (Hsa & Hta & _).
    destruct (Hfwd b sb tb cb Hlb) as (Hsb & Htb & _).
    destruct Hfresh as (Harena & _).
    unfold EdgePtrComparator. rewrite Hsa, Hta, Hsb, Htb.
    unfold edge_of at 1 2 3 4 5 6 7 8. rewrite Harena, !list_lookup_fmap.
    fold lines. by rewrite Hla, Hlb.
Qed.

Lemma main_output_witness :
  ∃ graph h,
    readGraph high_byte = Done (graph, h) ∧
    ∃ fuel0 h' r order,
      (∀ fuel, (fuel0 ≤ fuel)%nat →
         findMaxFlow fuel graph h = Done (h', r) ∧
         main fuel high_byte =
           Done (pretty r +:+ endl +:+
                 cat (edge_line (edgeLines high_byte) (flow_of h') <$> order))) ∧
      order ≡ₚ seq 0 (length (edgeLines high_byte)) ∧
      StronglySorted (λ i j, EdgePtrComparator h i j = true) order.
Proof.
  eexists _, _. split; [vm_compute; reflexivity|].
  apply (main_output high_byte).
  - vm_compute. reflexivity.
  - intros [|[|[|[|i]]]] a b c Hi; simpl in Hi; simplify_eq; lia.
  - intros [|[|[|[|i]]]] a b c Hi; simpl in Hi; simplify_eq;
      unfold in_int, int_min, int_max; lia.
Defined.

(** On that input the lines of the edges that leave the high byte come
    first and the edge to it comes before the edge S A: the output is the
    lines of the edges 2, 3, 0, 1, each with flow 1, after the value 2. *)
Example main_high_byte :
  main 10 high_byte =
  Done (pretty 2 +:+ endl +:+
        cat (edge_line (edgeLines high_byte) (λ _, 1) <$> [2; 3; 0; 1]%nat)).
Proof. vm_compute. reflexivity. Qed.

(** ** printPath *)

(** The labels of a path as printPath writes them: separated by blanks,
    the line ended after the last. *)
Fixpoint path_line (vs : list ascii) : string :=
  match vs with
  | [] => endl
  | [v] => String v endl
  | v :: vs' => String v (String " " (path_line vs'))
  end.

Lemma evolves_state inp graph h h0 h1 :
  readGraph inp = Done (graph, h) → int_lines (edgeLines inp) →
  addReverseEdges graph h = Done h0 → evolves h0 h1 →
  wf h1 ∧ network (edgeLines inp) h1 ∧ sorted_sets h1 ∧ named h1.
Proof.
  intros Hread Hint Hadd Hev.
  destruct (residual_construction _ _ _ Hread) as (h0' & Hadd' & Hinv0 & _).
  rewrite Hadd in Hadd'. injection Hadd' as <-.
  pose proof (inv_wf _ _ _ _ Hinv0) as Hwf0.
  pose proof (inv_network _ _ _ _ Hinv0) as Hnet0.
  destruct (evolves_network _ _ _ Hint Hwf0 Hnet0 Hev) as [Hwf1 Hnet1].
  split; [done|]. split; [done|].
  apply (same_topology_sets h0).
  - by apply (evolves_same_topology (edgeLines inp)).
  - apply (addReverseEdges_sets graph h); [done|]. by eapply readGraph_sets.
Qed.

Lemma printPath_line h a b e p :
  wf h → named h → walk h a b (e :: p) →
  printPath h (e :: p) = Done (path_line (a :: targets h (e :: p))).
Proof.
  intros Hwf Hn.
  assert (Hname : ∀ x, valid h x →
            name (vertex_of h (source (edge_of h x))) = source (edge_of h x) ∧
            name (vertex_of h (target (edge_of h x))) = target (edge_of h x)).
  { intros x Hx.
    destruct (wf_vertex_of_source h x Hwf Hx) as [vs Hvs].
    destruct (wf_tgt h Hwf x Hx) as [vt Hvt].
    unfold vertex_of. rewrite Hvs, Hvt. simpl. split; by apply Hn. }
  revert e a. induction p as [|e' p IH]; intros e a (He & Hs & Hw).
  - simpl in Hw. destruct (Hname e He) as [H1 H2].
    unfold printPath. simpl. rewrite H1, H2, Hs, Hw. reflexivity.
  - pose proof (IH e' _ Hw) as Hrest. unfold printPath in Hrest |- *.
    change (last (e :: e' :: p)) with (last (e' :: p)).
    destruct (last (e' :: p)) as [back|]; [|done].
    assert (Hinj : ∀ x y : string, Done x = Done y → x = y) by by intros x y [=].
    apply Hinj in Hrest. f_equal.
    rewrite fmap_cons.
    change (cat (?x :: ?l)) with (x +:+ cat l).
    rewrite append_assoc, Hrest.
    destruct (Hname e He) as [-> _]. rewrite Hs. reflexivity.
Qed.

(** printPath on a path of the residual graph writes the labels of the
    vertices along the path, from its first vertex to its last; on the
    empty path it writes nothing and its assertion fails. *)
Theorem printPath_labels inp graph h h0 h1 a b p :
  readGraph inp = Done (graph, h) → int_lines (edgeLines inp) →
  addReverseEdges graph h = Done h0 → evolves h0 h1 →
  walk h1 a b p →
  (p = [] → printPath h1 p = Fail AssertionFailed) ∧
  (p ≠ [] → printPath h1 p = Done (path_line (a :: targets h1 p)) ∧
            last (a :: targets h1 p) = Some b).
Proof.
  intros Hread Hint Hadd Hev Hw.
  destruct (evolves_state _ _ _ _ _ Hread Hint Hadd Hev) as (Hwf & _ & _ & Hn).
  split; [by intros ->|]. intros Hne.
  destruct p as [|e p]; [done|]. split; [by apply (printPath_line h1 a b)|].
  clear Hne. revert e a Hw. induction p as [|e' p IH]; intros e a (He & Hs & Hw).
  - simpl in Hw. simpl. by rewrite Hw.
  - specialize (IH e' _ Hw). exact IH.
Qed.

Lemma printPath_labels_witness :
  ∃ graph h h0,
    readGraph ex1 = Done (graph, h) ∧ addReverseEdges graph h = Done h0 ∧
    ([0; 1]%nat = [] → printPath h0 [0; 1]%nat = Fail AssertionFailed) ∧
    ([0; 1]%nat ≠ [] →
     printPath h0 [0; 1]%nat = Done (path_line ("S"%char :: targets h0 [0; 1]%nat)) ∧
     last ("S"%char :: targets h0 [0; 1]%nat) = Some "T"%char).
Proof.
  eexists _, _, _.
  split; [vm_compute; reflexivity|].
  split; [vm_compute; reflexivity|].
  eapply (printPath_labels ex1).
  - vm_compute. reflexivity.
  - intros [|[|i]] a b c Hi; simpl in Hi; simplify_eq;
      unfold in_int, int_min, int_max; lia.
  - vm_compute. reflexivity.
  - apply evolves_start.
  - vm_compute. split_and!; try done; lia.
Defined.

(** ** The assertions of changeFlow *)

Lemma findMinCapacity_attained h p m :
  findMinCapacity h p = Done m → ∃ e, e ∈ p ∧ m = capacity (edge_of h e).
Proof.
  unfold findMinCapacity. destruct p as [|x p]; [done|]. intros [= <-].
  destruct (foldl_min_attained h (x :: p) (capacity (edge_of h x)))
    as [Heq|(e & He & Heq)].
  - exists x. split; [by left|done].
  - by exists e.
Qed.

Lemma changeFlow_loop_fails lines h p d a b :
  int_lines lines → network lines h → 0 ≤ d →
  walk h a b p → NoDup (a :: targets h p) →
  (∃ e, e ∈ p ∧ capacity (edge_of h e) < d) →
  changeFlow_loop d h p = Fail AssertionFailed.
Proof.
  intros Hint Hnet Hd. revert h a Hnet.
  induction p as [|x p IH]; intros h a Hnet Hw Hnd (e & He & Hlt).
  - by apply elem_of_nil in He.
  - simpl in Hw. destruct Hw as (Hx & Hs & Hw). simpl.
    destruct (decide (capacity (edge_of h x) < d)) as [Hxd|Hxd].
    + unfold changeFlow_edge. apply Z.ltb_lt in Hxd. by rewrite Hxd.
    + destruct (changeFlow_edge_done lines h x d) as [h1 Hedge]; [done|done|lia|].
      rewrite Hedge. simpl.
      pose proof (changeFlow_edge_pushed lines _ _ _ _ Hint Hnet Hd Hedge) as Hp.
      assert (Hext : ∀ z, z ∈ p → edge_of h1 z = edge_of h z).
      { intros z Hz. destruct (walk_ends _ _ _ _ _ Hw Hz) as [H1 H2].
        simpl in Hnd. apply NoDup_cons in Hnd as [Hnot _].
        eapply pushed_other; [done| |]; rewrite Hs; intros Heq; apply Hnot.
        - by rewrite <- Heq.
        - rewrite <- Heq. by right. }
      apply elem_of_cons in He as [->|He]; [done|].
      apply (IH h1 (target (edge_of h x))).
      * by eapply pushed_network.
      * eapply walk_ext; [by eapply pushed_valid|done|done].
      * rewrite (targets_ext h h1) by done.
        simpl in Hnd. by apply NoDup_cons in Hnd as [_ ?].
      * exists e. split; [done|]. by rewrite Hext.
Qed.

(** On a simple path of the residual graph changeFlow returns exactly for
    the amounts from 0 to the bottleneck that findMinCapacity computes; for
    a negative amount and for an amount above the bottleneck one of its
    assertions fails. *)
Theorem changeFlow_bottleneck inp graph h h0 h1 a b p m d :
  readGraph inp = Done (graph, h) → int_lines (edgeLines inp) →
  addReverseEdges graph h = Done h0 → evolves h0 h1 →
  walk h1 a b p → NoDup (a :: targets h1 p) →
  findMinCapacity h1 p = Done m →
  (0 ≤ d ≤ m → ∃ h2, changeFlow h1 p d = Done h2) ∧
  (¬ 0 ≤ d ≤ m → changeFlow h1 p d = Fail AssertionFailed).
Proof.
  intros Hread Hint Hadd Hev Hw Hnd Hmin.
  destruct (evolves_state _ _ _ _ _ Hread Hint Hadd Hev) as (Hwf & Hnet & _).
  split.
  - intros [Hd Hm]. unfold changeFlow.
    destruct (d <? 0) eqn:Hneg; [apply Z.ltb_lt in Hneg; lia|].
    destruct (changeFlow_loop_path (edgeLines inp) h1 p d a b) as (h2 & Hrun & _);
      try done; [|by exists h2].
    intros e He. pose proof (findMinCapacity_le _ _ _ Hmin e He). lia.
  - intros Hout. unfold changeFlow.
    destruct (d <? 0) eqn:Hneg; [done|]. apply Z.ltb_ge in Hneg.
    apply (changeFlow_loop_fails (edgeLines inp) h1 p d a b); try done.
    destruct (findMinCapacity_attained _ _ _ Hmin) as (e & He & ->).
    exists e. split; [done|lia].
Qed.

Lemma changeFlow_bottleneck_witness :
  ∃ graph h h0,
    readGraph ex1 = Done (graph, h) ∧ addReverseEdges graph h = Done h0 ∧
    (0 ≤ 3 ≤ 2 → ∃ h2, changeFlow h0 [0; 1]%nat 3 = Done h2) ∧
    (¬ 0 ≤ 3 ≤ 2 → changeFlow h0 [0; 1]%nat 3 = Fail AssertionFailed).
Proof.
  eexists _, _, _.
  split; [vm_compute; reflexivity|].
  split; [vm_compute; reflexivity|].
  eapply (changeFlow_bottleneck ex1) with (a := "S"%char) (b := "T"%char).
  - vm_compute. reflexivity.
  - intros [|[|i]] a b c Hi; simpl in Hi; simplify_eq;
      unfold in_int, int_min, int_max; lia.
  - vm_compute. reflexivity.
  - apply evolves_start.
  - vm_compute. split_and!; try done; lia.
  - vm_compute. apply (bool_decide_unpack _). vm_compute. reflexivity.
  - vm_compute. reflexivity.
Defined.

(** ** The comparators *)

(** EdgePtrComparator and VertexPtrComparator are strict orders, as the
    ordered sets require: no element is before itself, the order is
    transitive, and of two different edges, or two different names, one is
    before the other.  Edges compare by the label of the source, then by
    the label of the target, then by address.  Labels compare as signed
    [char]s: a byte from 0x80 on is before every byte below 0x80, and
    within each of the two ranges the order is that of the codes. *)
Theorem comparators_strict_order h :
  (∀ a, EdgePtrComparator h a a = false) ∧
  (∀ a b c, EdgePtrComparator h a b = true → EdgePtrComparator h b c = true →
            EdgePtrComparator h a c = true) ∧
  (∀ a b, a ≠ b → EdgePtrComparator h a b = true ∨ EdgePtrComparator h b a = true) ∧
  (∀ a b, EdgePtrComparator h a b = true → EdgePtrComparator h b a = false) ∧
  (∀ a, VertexPtrComparator a a = false) ∧
  (∀ a b c, VertexPtrComparator a b = true → VertexPtrComparator b c = true →
            VertexPtrComparator a c = true) ∧
  (∀ a b, a ≠ b → VertexPtrComparator a b = true ∨ VertexPtrComparator b a = true) ∧
  (∀ a b, (128 ≤ nat_of_ascii a)%nat → (nat_of_ascii b < 128)%nat →
          VertexPtrComparator a b = true) ∧
  (∀ a b, ((128 ≤ nat_of_ascii a)%nat ↔ (128 ≤ nat_of_ascii b)%nat) →
          (VertexPtrComparator a b = true ↔ (nat_of_ascii a < nat_of_ascii b)%nat)) ∧
  (∀ a b, source (edge_of h a) ≠ source (edge_of h b) →
          EdgePtrComparator h a b
          = VertexPtrComparator (source (edge_of h a)) (source (edge_of h b))) ∧
  (∀ a b, source (edge_of h a) = source (edge_of h b) →
          target (edge_of h a) ≠ target (edge_of h b) →
          EdgePtrComparator h a b
          = VertexPtrComparator (target (edge_of h a)) (target (edge_of h b))) ∧
  (∀ a b, source (edge_of h a) = source (edge_of h b) →
          target (edge_of h a) = target (edge_of h b) →
          EdgePtrComparator h a b = (a <? b)%nat).
Proof.
  split_and!.
  - intros a. apply not_true_is_false, EdgePtrComparator_irrefl.
  - apply EdgePtrComparator_trans.
  - apply EdgePtrComparator_total.
  - intros a b Hab. apply not_true_is_false. intros Hba.
    apply (EdgePtrComparator_irrefl h a). by eapply EdgePtrComparator_trans.
  - apply char_lt_irrefl.
  - apply char_lt_trans.
  - apply char_lt_total.
  - intros a b Ha Hb. unfold VertexPtrComparator, char_lt, char_value.
    apply Z.ltb_lt.
    destruct (Z.leb_spec 128 (Z.of_nat (nat_of_ascii a)));
      destruct (Z.leb_spec 128 (Z.of_nat (nat_of_ascii b))); try lia.
    pose proof (nat_ascii_bounded a). lia.
  - intros a b Hab. unfold VertexPtrComparator, char_lt, char_value.
    rewrite Z.ltb_lt.
    destruct (Z.leb_spec 128 (Z.of_nat (nat_of_ascii a)));
      destruct (Z.leb_spec 128 (Z.of_nat (nat_of_ascii b))); lia.
  - intros a b Hs. unfold EdgePtrComparator.
    by destruct (Ascii.eqb_spec (source (edge_of h a)) (source (edge_of h b))).
  - intros a b Hs Ht. unfold EdgePtrComparator. rewrite Hs, Ascii.eqb_refl. simpl.
    by destruct (Ascii.eqb_spec (target (edge_of h a)) (target (edge_of h b))).
  - intros a b Hs Ht. unfold EdgePtrComparator.
    by rewrite Hs, Ht, !Ascii.eqb_refl.
Qed.

(** ** The order of the search *)

(** The loop of findPath takes the first edge of its list from which the
    target can be reached. *)
Lemma findPath_loop_first rec src tgt es h path h' path' :
  wf h →
  (∀ h1 w path1 r1, wf h1 → rec h1 w path1 = Done r1 → findPath_post h1 w tgt path1 r1) →
  (∀ e, e ∈ es → e ∈ edges (vertex_of h src)) →
  findPath_loop rec src tgt es h path = Done (h', path', true) →
  ∃ es1 e es2 p, es = es1 ++ e :: es2 ∧ path' = path ++ e :: p ∧
    open_path h src tgt (e :: p) ∧
    ∀ e0 q, e0 ∈ es1 → ¬ open_path h src tgt (e0 :: q).
Proof.
  intros Hwf Hrec. induction es as [|e es IH]; intros Hes Hrun; [done|].
  simpl in Hrun.
  assert (Hee : valid h e ∧ source (edge_of h e) = src).
  { apply (wf_adj h Hwf). apply Hes. left. }
  destruct Hee as [Hvalid Hsrc].
  assert (Hes' : ∀ e0, e0 ∈ es → e0 ∈ edges (vertex_of h src)).
  { intros e0 He0. apply Hes. by right. }
  assert (Hnext : findPath_loop rec src tgt es h path = Done (h', path', true) →
            (∀ q, ¬ open_path h src tgt (e :: q)) →
            ∃ es1 e1 es2 p, e :: es = es1 ++ e1 :: es2 ∧ path' = path ++ e1 :: p ∧
              open_path h src tgt (e1 :: p) ∧
              ∀ e0 q, e0 ∈ es1 → ¬ open_path h src tgt (e0 :: q)).
  { intros Hrun1 Hno.
    destruct (IH Hes' Hrun1) as (es1 & e1 & es2 & p & -> & Hp & Hopen & Hno1).
    exists (e :: es1), e1, es2, p. split_and!; try done.
    intros e0 q He0. apply elem_of_cons in He0 as [->|He0]; [apply Hno|by apply Hno1]. }
  destruct (negb (inPath (vertex_of h (target (edge_of h e)))) &&
            (0 <? capacity (edge_of h e))) eqn:Htest.
  - apply andb_true_iff in Htest as [Hm Hc].
    apply negb_true_iff in Hm. apply Z.ltb_lt in Hc.
    destruct (Ascii.eqb_spec (target (edge_of h e)) tgt) as [Heq|Hneq].
    + injection Hrun as _ <-. exists [], e, es, []. split_and!; [done|done| |].
      * rewrite <- Hsrc. apply open_path_single; try done.
        unfold marked. by rewrite <- Heq.
      * intros e0 q He0. by apply elem_of_nil in He0.
    + set (w := target (edge_of h e)) in *.
      assert (Hw : is_Some (verts h !! w)) by by apply (wf_tgt h Hwf).
      destruct (rec (set_inPath w true h) w (path ++ [e]))
        as [[[h2 path2] found2]|f] eqn:Hcall; simpl in Hrun; [|done].
      apply Hrec in Hcall; [|by apply wf_set_inPath]. simpl in Hcall.
      destruct found2.
      * destruct Hcall as (p2 & -> & Hopen & Hh2).
        injection Hrun as _ <-.
        apply open_path_unmarked in Hopen as [Hopen Hnot]; [|done].
        exists [], e, es, p2. split_and!; [done|by rewrite <- app_assoc| |].
        -- rewrite <- Hsrc. by apply open_path_cons.
        -- intros e0 q He0. by apply elem_of_nil in He0.
      * destruct Hcall as (-> & -> & Hnone).
        rewrite set_inPath_idemp, set_inPath_restore in Hrun by done.
        rewrite removelast_last in Hrun.
        apply (Hnext Hrun). intros q Hopen.
        apply open_path_inv in Hopen as (_ & _ & _ & _ & Hopen).
        destruct (Hopen Hneq) as [Hopen' Hnot].
        apply (Hnone q). by apply open_path_marked.
  - apply (Hnext Hrun). intros q Hopen.
    apply open_path_inv in Hopen as (_ & _ & Hc & Hm & _).
    unfold marked in Hm. rewrite Hm in Htest. simpl in Htest.
    apply Z.ltb_ge in Htest. lia.
Qed.

(** Where several augmenting paths exist, findPath as the driver calls it
    returns one that starts with the greatest first edge: the first edge of
    every other augmenting path is before it in the order of
    EdgePtrComparator (labels as signed [char]s: of the edges from S to
    the byte 0xe9 and from S to A, the edge to A is the greater). *)
Theorem findPath_greatest_first inp graph h h0 h1 m depth h2 e p :
  readGraph inp = Done (graph, h) → int_lines (edgeLines inp) →
  addReverseEdges graph h = Done h0 →
  loop_state graph h0 h1 m →
  findPath depth h1 (gsource graph) (gtarget graph) [] true = Done (h2, e :: p, true) →
  e ∈ edges (vertex_of h1 (gsource graph)) ∧
  ∀ e0 q, augmenting_path h1 (gsource graph) (gtarget graph) (e0 :: q) →
          e0 = e ∨ EdgePtrComparator h1 e0 e = true.
Proof.
  intros Hread Hint Hadd Hstate Hfind.
  destruct (evolves_state _ _ _ _ _ Hread Hint Hadd (loop_state_evolves _ _ _ _ Hstate))
    as (Hwf & _ & Hsorted & _).
  destruct (residual_construction _ _ _ Hread) as (h0' & Hadd' & Hinv0 & _ & _ & Hzero).
  rewrite Hadd in Hadd'. injection Hadd' as <-.
  destruct (loop_state_inv _ _ _ _ _ Hint Hinv0
              (λ v, excess_zero _ _ v Hzero) Hstate) as (Hinv & _).
  pose proof (inv_clean _ _ _ _ Hinv) as Hclean.
  set (src := gsource graph) in *. set (tgt := gtarget graph) in *.
  destruct depth as [|depth]; [done|]. simpl in Hfind.
  rewrite edges_set_inPath in Hfind.
  apply findPath_loop_first in Hfind; [|by apply wf_set_inPath| |].
  - destruct Hfind as (es1 & e1 & es2 & p1 & Hes & Hp & Hopen & Hno).
    simpl in Hp. injection Hp as -> ->.
    assert (Hedges : edges (vertex_of h1 src) = reverse es2 ++ e1 :: reverse es1).
    { rewrite <- (reverse_involutive (edges (vertex_of h1 src))), Hes.
      by rewrite reverse_app, reverse_cons, <- app_assoc. }
    split; [rewrite Hedges; set_solver|].
    intros e0 q Haug.
    pose proof (augmenting_open_path _ _ _ _ Hclean Haug) as Hop.
    destruct Haug as (_ & (Hv0 & Hs0 & _) & _).
    pose proof (wf_src h1 Hwf e0 Hv0) as Hin. rewrite Hs0, Hedges in Hin.
    apply elem_of_app in Hin as [Hin|Hin].
    + right. destruct (Hsorted src) as [_ Hs]. rewrite Hedges in Hs.
      apply (StronglySorted_app_1_elem_of _ _ _ _ _ Hs Hin). by left.
    + apply elem_of_cons in Hin as [->|Hin]; [by left|].
      rewrite elem_of_reverse in Hin. by destruct (Hno e0 q Hin).
  - intros h3 w path1 r1 Hwf3 Hcall. by eapply findPath_post_inner.
  - intros x Hx. rewrite edges_set_inPath. by rewrite elem_of_reverse in Hx.
Qed.

Lemma findPath_greatest_first_witness :
  ∃ graph h h0 h2,
    readGraph high_byte = Done (graph, h) ∧ addReverseEdges graph h = Done h0 ∧
    findPath 5 h0 (gsource graph) (gtarget graph) [] true
      = Done (h2, [1; 3]%nat, true) ∧
    1%nat ∈ edges (vertex_of h0 (gsource graph)) ∧
    ∀ e0 q, augmenting_path h0 (gsource graph) (gtarget graph) (e0 :: q) →
            e0 = 1%nat ∨ EdgePtrComparator h0 e0 1 = true.
Proof.
  eexists _, _, _, _.
  split; [vm_compute; reflexivity|].
  split; [vm_compute; reflexivity|].
  split; [vm_compute; reflexivity|].
  eapply (findPath_greatest_first high_byte _ _ _ _ 0 5%nat).
  - vm_compute. reflexivity.
  - intros [|[|[|[|i]]]] a b c Hi; simpl in Hi; simplify_eq;
      unfold in_int, int_min, int_max; lia.
  - vm_compute. reflexivity.
  - apply loop_start.
  - vm_compute. reflexivity.
Defined.
